(** * Verification of the startdue_valley simulation core

    Shallow embedding of the TypeScript simulation modules: movement,
    schedule lookup, pathfinding with its route cache, the replan
    scheduler, the decision guardrail and the snapshot parser.
    JavaScript numbers that the code only ever uses as integers (ticks,
    indices, coordinates, minutes) are modelled as [Z]; a thrown [Error]
    is modelled as [None]. *)

From Stdlib Require Import ZArith List Ascii String Bool Lia Permutation Sorted.
From Stdlib Require QArith_base Sorting FinFun.
Import ListNotations.
Open Scope Z_scope.

(* ------------------------------------------------------------------ *)
(** ** src/simulation/movement.ts *)

Module Movement.

Definition TileId := string.
Definition VillagerId := string.

Record VillagerMovementComponent := mkComponent {
  villagerId : VillagerId;
  currentTileId : TileId;
  path : list TileId;
  pathIndex : Z;
  lastProcessedTick : Z;
  arrivedAtTick : option Z
}.

Record VillagerArrivalEvent := mkArrival {
  ev_villagerId : VillagerId;
  ev_tileId : TileId;
  ev_tick : Z
}.

Record MovementAdvanceResult := mkAdvance {
  component : VillagerMovementComponent;
  events : list VillagerArrivalEvent
}.

(** [assertNonNegativeInteger]: the integer check is the type [Z]; a
    negative value throws. *)
Definition assertNonNegativeInteger (value : Z) : option Z :=
  if value <? 0 then None else Some value.

(** [path[i]]; only read at indices inside the path. *)
Definition path_at (p : list TileId) (i : Z) : TileId := List.nth (Z.to_nat i) p ""%string.

(** [x !== undefined] *)
Definition isSome {A} (o : option A) : bool := match o with Some _ => true | None => false end.

Definition len (p : list TileId) : Z := Z.of_nat (List.length p).

Definition createVillagerMovementComponent (vid : VillagerId) (startTileId : TileId)
  (initialTick : Z) : option VillagerMovementComponent :=
  match assertNonNegativeInteger initialTick with
  | None => None
  | Some t => Some (mkComponent vid startTileId [startTileId] 0 t (Some initialTick))
  end.

Definition assignVillagerMovementPath (c : VillagerMovementComponent) (p : list TileId)
  (tick : Z) : option VillagerMovementComponent :=
  match assertNonNegativeInteger tick with
  | None => None
  | Some safeTick =>
      match p with
      | [] => None
      | first :: _ =>
          Some (mkComponent (villagerId c) first p 0 safeTick
                  (if List.length p =? 1 then Some safeTick else None)%nat)
      end
  end.

Definition advanceVillagerMovement (c : VillagerMovementComponent) (tick : Z)
  : option MovementAdvanceResult :=
  match assertNonNegativeInteger tick with
  | None => None
  | Some safeTick =>
      if (safeTick <=? lastProcessedTick c) || (len (path c) <=? 1) then
        Some (mkAdvance
                (mkComponent (villagerId c) (currentTileId c) (path c) (pathIndex c)
                   (Z.max (lastProcessedTick c) safeTick) (arrivedAtTick c))
                [])
      else
        let tickDelta := safeTick - lastProcessedTick c in
        let nextPathIndex := Z.min (len (path c) - 1) (pathIndex c + tickDelta) in
        let nextCurrentTileId := path_at (path c) nextPathIndex in
        let reachedDestination := nextPathIndex =? len (path c) - 1 in
        let distanceToDestination := len (path c) - 1 - pathIndex c in
        let arrivalTick :=
          if reachedDestination && negb (isSome (arrivedAtTick c))
          then Some (lastProcessedTick c + distanceToDestination)
          else arrivedAtTick c in
        let nextComponent :=
          mkComponent (villagerId c) nextCurrentTileId (path c) nextPathIndex safeTick
            arrivalTick in
        if negb reachedDestination || negb (isSome arrivalTick)
           || isSome (arrivedAtTick c)
        then Some (mkAdvance nextComponent [])
        else
          match arrivalTick with
          | Some arrival => Some (mkAdvance nextComponent
                               [mkArrival (villagerId c) nextCurrentTileId arrival])
          | None => Some (mkAdvance nextComponent [])
          end
  end.

(** A sequence of [advanceVillagerMovement] calls, collecting the events
    in order; a throwing call aborts the sequence. *)
Fixpoint advance_all (c : VillagerMovementComponent) (ticks : list Z)
  : option (VillagerMovementComponent * list VillagerArrivalEvent) :=
  match ticks with
  | [] => Some (c, [])
  | t :: rest =>
      match advanceVillagerMovement c t with
      | None => None
      | Some r =>
          match advance_all (component r) rest with
          | None => None
          | Some (c', evs) => Some (c', events r ++ evs)
          end
      end
  end.

End Movement.

(* ------------------------------------------------------------------ *)
(** ** src/domain/actions.ts, src/simulation/schedule.ts *)

Module Schedule.

Definition TileId := string.
Definition VillagerId := string.

Inductive VillagerActionType := walk | farm | chat | shop | rest | observe.

Record SimulationTime := mkTime { tick : Z; day : Z; minuteOfDay : Z }.

Record VillagerScheduleSlot := mkSlot {
  hour : Z;
  slot_action : VillagerActionType;
  slot_targetTileId : TileId
}.

(** The fields of [Villager] that the schedule index reads. *)
Record Villager := mkVillager { id : VillagerId; baseSchedule : list VillagerScheduleSlot }.

Record VillagerScheduleEntry := mkEntry {
  startMinute : Z;
  action : VillagerActionType;
  targetTileId : TileId
}.

Record VillagerDailySchedule := mkSchedule {
  sched_villagerId : VillagerId;
  entries : list VillagerScheduleEntry
}.

Inductive TaskSource := source_schedule | source_idle.

Record ActiveVillagerTask := mkTask {
  task_villagerId : VillagerId;
  task_action : VillagerActionType;
  task_targetTileId : option TileId;
  task_source : TaskSource
}.

Definition MINUTES_PER_HOUR : Z := 60.
Definition MINUTES_PER_DAY : Z := 1440.
Definition IDLE_ACTION : VillagerActionType := observe.

Definition normalizeHourToMinute (h : Z) : option Z :=
  if (h <? 0) || (h >=? MINUTES_PER_DAY / MINUTES_PER_HOUR) then None
  else Some (h * MINUTES_PER_HOUR).

(** [Array.prototype.sort] with comparator [left.startMinute -
    right.startMinute] is a stable sort: insertion sort that places each
    element after every already-sorted element with a smaller or equal
    start minute. *)
Fixpoint insert_by_start (e : VillagerScheduleEntry) (l : list VillagerScheduleEntry)
  : list VillagerScheduleEntry :=
  match l with
  | [] => [e]
  | x :: xs => if startMinute x <=? startMinute e then x :: insert_by_start e xs
               else e :: x :: xs
  end.

Definition sort_by_start (l : list VillagerScheduleEntry) : list VillagerScheduleEntry :=
  fold_left (fun acc e => insert_by_start e acc) l [].

Fixpoint map_option {A B} (f : A -> option B) (l : list A) : option (list B) :=
  match l with
  | [] => Some []
  | x :: xs => match f x, map_option f xs with
               | Some y, Some ys => Some (y :: ys)
               | _, _ => None
               end
  end.

(** The duplicate check: [entries[index - 1].startMinute ===
    entries[index].startMinute] for some adjacent pair. *)
Fixpoint has_adjacent_duplicate (l : list VillagerScheduleEntry) : bool :=
  match l with
  | x :: ((y :: _) as rest) => (startMinute x =? startMinute y) || has_adjacent_duplicate rest
  | _ => false
  end.

Definition createVillagerDailySchedule (v : Villager) : option VillagerDailySchedule :=
  match map_option (fun slot =>
          match normalizeHourToMinute (hour slot) with
          | Some m => Some (mkEntry m (slot_action slot) (slot_targetTileId slot))
          | None => None
          end) (baseSchedule v) with
  | None => None
  | Some mapped =>
      let es := sort_by_start mapped in
      if has_adjacent_duplicate es then None else Some (mkSchedule (id v) es)
  end.

(** ToInt32, applied by [>>] to its left operand. *)
Definition toInt32 (z : Z) : Z :=
  let m := z mod 2 ^ 32 in if m >=? 2 ^ 31 then m - 2 ^ 32 else m.

(** The [while (low <= high)] loop of [resolveActiveVillagerTask].  The
    fuel bounds the iterations (each one shrinks [high - low]); [None]
    stands for a thrown error: reading [startMinute] of [entries[mid]]
    outside the array, or running out of fuel. *)
Fixpoint binary_search (fuel : nat) (es : list VillagerScheduleEntry) (m : Z)
  (low high : Z) (activeEntry : option VillagerScheduleEntry)
  : option (option VillagerScheduleEntry) :=
  if low <=? high then
    match fuel with
    | O => None
    | S fuel' =>
        let mid := Z.shiftr (toInt32 (low + high)) 1 in
        match (if mid <? 0 then None else nth_error es (Z.to_nat mid)) with
        | None => None
        | Some e =>
            if startMinute e <=? m then binary_search fuel' es m (mid + 1) high (Some e)
            else binary_search fuel' es m low (mid - 1) activeEntry
        end
    end
  else Some activeEntry.

Definition resolveActiveVillagerTask (schedule : VillagerDailySchedule) (time : SimulationTime)
  : option ActiveVillagerTask :=
  let es := entries schedule in
  match binary_search (S (List.length es)) es (minuteOfDay time) 0
          (Z.of_nat (List.length es) - 1) None with
  | None => None
  | Some None => Some (mkTask (sched_villagerId schedule) IDLE_ACTION None source_idle)
  | Some (Some e) =>
      Some (mkTask (sched_villagerId schedule) (action e) (Some (targetTileId e)) source_schedule)
  end.

End Schedule.

(* ------------------------------------------------------------------ *)
(** ** e2e/game-smoke.spec.ts: the decision guardrail *)

Module Guardrail.
Import Schedule.

Inductive JobRole := farmer | merchant | fisher | builder | caretaker.

(** The fields of [NpcPromptInput] that the policy rules read. *)
Record NpcPromptInput := mkContext {
  role : JobRole;
  worldTime_minuteOfDay : Z
}.

Record NpcDecision := mkDecision {
  decision_action : VillagerActionType;
  reasoning : string;
  decision_targetTileId : option TileId
}.

Inductive PolicyOutcome :=
| outcome_rewrite (a : VillagerActionType) (reason : string)
| outcome_block (reason : string).

Record DecisionPolicyRule := mkRule {
  rule_id : string;
  disallowedActions : list VillagerActionType;
  evaluate : NpcPromptInput -> bool;
  outcome : PolicyOutcome
}.

Inductive ViolationOutcome := violation_rewrite | violation_block.

Record NpcDecisionPolicyViolation := mkViolation {
  policyId : string;
  violation_reason : string;
  originalAction : VillagerActionType;
  finalAction : VillagerActionType;
  violation_outcome : ViolationOutcome
}.

Inductive DecisionValidity := accepted | rewritten.

Record DecisionModerationResult := mkModeration {
  decision : NpcDecision;
  decisionValidity : DecisionValidity;
  policyViolations : list NpcDecisionPolicyViolation
}.

Record LlmAdapterApiError := mkApiError { error_message : string; status : Z }.

Definition action_eqb (a b : VillagerActionType) : bool :=
  match a, b with
  | walk, walk | farm, farm | chat, chat | shop, shop | rest, rest
  | observe, observe => true
  | _, _ => false
  end.

Definition role_eqb (a b : JobRole) : bool :=
  match a, b with
  | farmer, farmer | merchant, merchant | fisher, fisher | builder, builder
  | caretaker, caretaker => true
  | _, _ => false
  end.

Definition includes (l : list VillagerActionType) (a : VillagerActionType) : bool :=
  existsb (action_eqb a) l.

Definition DECISION_POLICY_RULES : list DecisionPolicyRule := [
  mkRule "role-restriction-shop"%string [shop]
    (fun context => negb (role_eqb (role context) merchant))
    (outcome_block "Only merchant-role villagers may execute shop actions."%string);
  mkRule "role-restriction-farm"%string [farm]
    (fun context => negb (role_eqb (role context) farmer))
    (outcome_rewrite observe "Non-farmer villagers cannot execute farm actions."%string);
  mkRule "quiet-hours-social"%string [chat; shop]
    (fun context => (worldTime_minuteOfDay context <? 360) ||
                    (worldTime_minuteOfDay context >=? 1320))
    (outcome_rewrite observe "Social and market actions are disallowed during quiet hours."%string)
].

Definition actionRequiresTarget (a : VillagerActionType) : bool :=
  match a with walk | farm | shop => true | _ => false end.

(** The loop state: the moderated action and target and the violations
    pushed so far (in order). *)
Record GuardState := mkGuard {
  moderatedAction : VillagerActionType;
  moderatedTargetTileId : option TileId;
  violations : list NpcDecisionPolicyViolation
}.

Definition guard_step (context : NpcPromptInput) (st : GuardState) (rule : DecisionPolicyRule)
  : LlmAdapterApiError + GuardState :=
  if negb (includes (disallowedActions rule) (moderatedAction st))
     || negb (evaluate rule context) then inr st
  else
    match outcome rule with
    | outcome_block reason =>
        inl (mkApiError ("Decision blocked by policy " ++ rule_id rule ++ ": " ++ reason)%string
               422)
    | outcome_rewrite a reason =>
        let originalAction := moderatedAction st in
        let target := if negb (actionRequiresTarget a) then None
                      else moderatedTargetTileId st in
        inr (mkGuard a target
               (violations st ++
                [mkViolation (rule_id rule) reason originalAction a violation_rewrite]))
    end.

Fixpoint guard_loop (context : NpcPromptInput) (rules : list DecisionPolicyRule)
  (st : GuardState) : LlmAdapterApiError + GuardState :=
  match rules with
  | [] => inr st
  | rule :: remaining =>
      match guard_step context st rule with
      | inl err => inl err
      | inr st' => guard_loop context remaining st'
      end
  end.

Definition applyDecisionGuardrails (d : NpcDecision) (context : NpcPromptInput)
  : LlmAdapterApiError + DecisionModerationResult :=
  match guard_loop context DECISION_POLICY_RULES
          (mkGuard (decision_action d) (decision_targetTileId d) []) with
  | inl err => inl err
  | inr st =>
      inr (mkModeration (mkDecision (moderatedAction st) (reasoning d) (moderatedTargetTileId st))
             (if 0 <? Z.of_nat (List.length (violations st)) then rewritten else accepted)
             (violations st))
  end.

End Guardrail.

(* ================================================================== *)
(** * Re-planning (src/simulation/replanning.ts and the re-planning
    effect of the simulation page) *)

Module Replan.
Import Schedule.

Inductive NpcReplanReason := cadence | major_event.

Record PersistedNpcIntent := mkIntent {
  intent_action : VillagerActionType;
  intent_targetTileId : option TileId;
  intent_reasoning : string;
  plannedAtTick : Z
}.

Record NpcReplanState := mkReplan {
  lastPlanTick : option Z;
  lastPlanSignature : option string;
  lastMajorEventTick : option Z;
  intent : option PersistedNpcIntent;
  intentUpdatedAtTick : option Z
}.

Record ShouldRequestNpcReplanInput := mkReplanInput {
  input_tick : Z;
  intervalTicks : Z;
  promptSignature : string;
  input_lastPlanTick : option Z;
  input_lastPlanSignature : option string;
  input_lastMajorEventTick : option Z
}.

(** JavaScript's [===] between an optional string and a string. *)
Definition opt_string_eqb (o : option string) (s : string) : bool :=
  match o with Some s' => String.eqb s' s | None => false end.

Definition shouldRequestNpcReplan (input : ShouldRequestNpcReplanInput)
  : option NpcReplanReason :=
  let cadenceDue :=
    match input_lastPlanTick input with
    | None => true
    | Some p => input_tick input - p >=? intervalTicks input
    end in
  let majorEventDue :=
    match input_lastMajorEventTick input with
    | None => false
    | Some m =>
        match input_lastPlanTick input with
        | None => true
        | Some p => m >? p
        end
    end in
  if negb cadenceDue && negb majorEventDue then None
  else if opt_string_eqb (input_lastPlanSignature input) (promptSignature input) then None
  else Some (if majorEventDue then major_event else cadence).

(** The validated decision the [.then] handler reads from the response. *)
Record ApiNpcDecision := mkApiDecision {
  api_action : VillagerActionType;
  api_targetTileId : option TileId;
  api_reasoning : string
}.

(** [.then]: the replan state written for a request issued at [tick]
    with signature [promptSignature]. *)
Definition replan_after_success (r : NpcReplanState) (d : ApiNpcDecision)
  (tick : Z) (promptSignature : string) : NpcReplanState :=
  mkReplan (Some tick) (Some promptSignature) (lastMajorEventTick r)
    (Some (mkIntent (api_action d) (api_targetTileId d) (api_reasoning d) tick))
    (Some tick).

(** [.catch]: the replan state written when the request failed. *)
Definition replan_after_failure (r : NpcReplanState) (tick : Z) (promptSignature : string)
  : NpcReplanState :=
  mkReplan (Some tick) (Some promptSignature) (lastMajorEventTick r) (intent r)
    (intentUpdatedAtTick r).

(** The movement update: the tick of the last arrival event, if any. *)
Definition replan_after_arrivals (r : NpcReplanState) (lastArrivalTick : option Z)
  : NpcReplanState :=
  mkReplan (lastPlanTick r) (lastPlanSignature r)
    (match lastArrivalTick with Some t => Some t | None => lastMajorEventTick r end)
    (intent r) (intentUpdatedAtTick r).

(** The interaction update: [Math.max(lastMajorEventTick ?? 0, latest)]. *)
Definition replan_after_interactions (r : NpcReplanState) (latestEventTick : option Z)
  : NpcReplanState :=
  mkReplan (lastPlanTick r) (lastPlanSignature r)
    (match latestEventTick with
     | Some t => Some (Z.max (match lastMajorEventTick r with Some m => m | None => 0 end) t)
     | None => lastMajorEventTick r
     end)
    (intent r) (intentUpdatedAtTick r).

(** One agent as the effect sees it: its replan state and, while a
    request is in flight, the tick and signature that request captured. *)
Record AgentReplanRuntime := mkAgent {
  replan : NpcReplanState;
  inflight : option (Z * string)
}.

(** What can happen to an agent between two evaluations: a completion of
    the in-flight request ([.then] or [.catch], then [.finally] deleting
    the in-flight mark), or a major-event update of the runtime. *)
Inductive ReplanEvent :=
| request_succeeded (d : ApiNpcDecision)
| request_failed
| arrivals (lastArrivalTick : option Z)
| interactions (latestEventTick : option Z).

Definition agent_event (a : AgentReplanRuntime) (e : ReplanEvent) : AgentReplanRuntime :=
  match e with
  | request_succeeded d =>
      match inflight a with
      | Some (tick, sig) => mkAgent (replan_after_success (replan a) d tick sig) None
      | None => a
      end
  | request_failed =>
      match inflight a with
      | Some (tick, sig) => mkAgent (replan_after_failure (replan a) tick sig) None
      | None => a
      end
  | arrivals t => mkAgent (replan_after_arrivals (replan a) t) (inflight a)
  | interactions t => mkAgent (replan_after_interactions (replan a) t) (inflight a)
  end.

(** One evaluation of the agent in the effect's loop: skipped while a
    request is in flight; otherwise [shouldRequestNpcReplan] decides, and
    a due result marks the agent in flight with the captured tick and
    signature. The second component is the reported reason. *)
Definition agent_evaluate (a : AgentReplanRuntime) (tick intervalTicks : Z)
  (promptSignature : string) : AgentReplanRuntime * option NpcReplanReason :=
  match inflight a with
  | Some _ => (a, None)
  | None =>
      let r := replan a in
      match shouldRequestNpcReplan
              (mkReplanInput tick intervalTicks promptSignature (lastPlanTick r)
                 (lastPlanSignature r) (lastMajorEventTick r)) with
      | None => (a, None)
      | Some reason => (mkAgent r (Some (tick, promptSignature)), Some reason)
      end
  end.

End Replan.

(* ================================================================== *)
(** * JavaScript collections and numbers used by the pathfinding code *)

Module Js.

(** A [Map] is an association list in insertion order: [set] on a
    present key updates its value in place, on a new key appends;
    [delete] removes the key. *)
Section JsMap.
Context {K V : Type} (eqb : K -> K -> bool).

Definition map_has (m : list (K * V)) (k : K) : bool :=
  existsb (fun '(k', _) => eqb k' k) m.

Definition map_get (m : list (K * V)) (k : K) : option V :=
  match find (fun '(k', _) => eqb k' k) m with
  | Some (_, v) => Some v
  | None => None
  end.

Definition map_set (m : list (K * V)) (k : K) (v : V) : list (K * V) :=
  if map_has m k then map (fun '(k', v') => if eqb k' k then (k', v) else (k', v')) m
  else m ++ [(k, v)].

Definition map_delete (m : list (K * V)) (k : K) : list (K * V) :=
  filter (fun '(k', _) => negb (eqb k' k)) m.

End JsMap.

(** A [Set] of strings: a list in insertion order without repetitions. *)
Definition set_has (s : list string) (v : string) : bool := existsb (String.eqb v) s.

Definition set_add (s : list string) (v : string) : list string :=
  if set_has s v then s else s ++ [v].

Definition set_delete (s : list string) (v : string) : list string :=
  filter (fun w => negb (String.eqb w v)) s.

(** [new Set(values)]. *)
Definition set_of_list (values : list string) : list string := fold_left set_add values [].

(** A JavaScript number that is an integer or [Infinity]. *)
Inductive num := Fin (z : Z) | Inf.

Definition num_add (a b : num) : num :=
  match a, b with Fin x, Fin y => Fin (x + y) | _, _ => Inf end.

(** [a < b] and [a <= b]. *)
Definition num_ltb (a b : num) : bool :=
  match a, b with
  | Fin x, Fin y => x <? y
  | Fin _, Inf => true
  | Inf, _ => false
  end.

Definition num_leb (a b : num) : bool :=
  match a, b with
  | Fin x, Fin y => x <=? y
  | _, Inf => true
  | Inf, Fin _ => false
  end.

(** [Array.prototype.join(sep)]. *)
Fixpoint join (sep : string) (l : list string) : string :=
  match l with
  | [] => ""%string
  | [a] => a
  | a :: l' => (a ++ sep ++ join sep l')%string
  end.

(** [Array.prototype.sort(compare)], modelled as a stable insertion sort
    driven by the comparator. *)
Fixpoint insert_by (compare : string -> string -> Z) (v : string) (l : list string)
  : list string :=
  match l with
  | [] => [v]
  | w :: l' => if compare v w <? 0 then v :: w :: l' else w :: insert_by compare v l'
  end.

Definition sort_by (compare : string -> string -> Z) (l : list string) : list string :=
  fold_left (fun acc v => insert_by compare v acc) l [].

(** [array[i] = v]: in-range update. *)
Fixpoint replace_nth {A} (l : list A) (i : nat) (v : A) : list A :=
  match l, i with
  | [], _ => []
  | _ :: l', O => v :: l'
  | a :: l', S i' => a :: replace_nth l' i' v
  end.

(** [[...].filter((value) => value !== undefined)]. *)
Fixpoint filter_defined {A} (l : list (option A)) : list A :=
  match l with
  | [] => []
  | Some a :: l' => a :: filter_defined l'
  | None :: l' => filter_defined l'
  end.

End Js.

(* ================================================================== *)
(** * Pathfinding service with the binary-heap A* search *)

Module Pathfinding.
Import Js.

Definition TileId := string.

Inductive TileType := tile_path | home | plaza | farm_tile | shop_tile | water | tree.

(** [coordinate.x] and [coordinate.y] (renamed: both records of this
    module have an [x] and a [y]). *)
Record TileCoordinate := mkCoordinate { coord_x : Z; coord_y : Z }.

Record Tile := mkTile {
  tile_id : TileId;
  coordinate : TileCoordinate;
  tile_type : TileType;
  walkable : bool
}.

Record PathfindingNode := mkNode {
  node_id : TileId;
  node_x : Z;
  node_y : Z;
  node_walkable : bool;
  neighbors : list TileId
}.

Record PathfindingRequest := mkRequest {
  startTileId : TileId;
  destinationTileId : TileId;
  blockedTileIds : option (list TileId)
}.

Inductive UnreachableReason :=
  unknown_start | unknown_destination | blocked_start | blocked_destination | no_route.

Inductive PathfindingResult :=
| found (path : list TileId) (fromCache : bool)
| unreachable (reason : UnreachableReason) (path : list TileId).

Definition NodesById := list (TileId * PathfindingNode).

(** [toCoordinateKey(x, y)] is the string [`${x},${y}`], which is
    injective on integer pairs; the key is kept as the pair. *)
Definition toCoordinateKey (x y : Z) : Z * Z := (x, y).

Definition coord_eqb (a b : Z * Z) : bool := (fst a =? fst b) && (snd a =? snd b).

Definition node_get (nodesById : NodesById) (v : TileId) : option PathfindingNode :=
  map_get String.eqb nodesById v.

Definition createNodesById (tiles : list Tile) : NodesById :=
  let coordinatesToId :=
    fold_left (fun m tile =>
                 map_set coord_eqb m
                   (toCoordinateKey (coord_x (coordinate tile)) (coord_y (coordinate tile)))
                   (tile_id tile)) tiles [] in
  fold_left (fun nodesById tile =>
      let cx := coord_x (coordinate tile) in
      let cy := coord_y (coordinate tile) in
      let neighbors := filter_defined
        [map_get coord_eqb coordinatesToId (toCoordinateKey (cx + 1) cy);
         map_get coord_eqb coordinatesToId (toCoordinateKey (cx - 1) cy);
         map_get coord_eqb coordinatesToId (toCoordinateKey cx (cy + 1));
         map_get coord_eqb coordinatesToId (toCoordinateKey cx (cy - 1))] in
      map_set String.eqb nodesById (tile_id tile)
        (mkNode (tile_id tile) cx cy (walkable tile) neighbors))
    tiles [].

Definition heuristicDistance (nodesById : NodesById) (fromId toId : TileId) : num :=
  match node_get nodesById fromId, node_get nodesById toId with
  | Some fromNode, Some toNode =>
      Fin (Z.abs (node_x fromNode - node_x toNode) + Z.abs (node_y fromNode - node_y toNode))
  | _, _ => Inf
  end.

(** ** [BinaryMinHeap]: the array [heap] of entries. *)
Record HeapEntry := mkEntry { entry_id : TileId; score : num }.

Definition heap_at (heap : list HeapEntry) (i : nat) : HeapEntry :=
  List.nth i heap (mkEntry ""%string Inf).

(** [[heap[i], heap[j]] = [heap[j], heap[i]]]. *)
Definition swap (heap : list HeapEntry) (i j : nat) : list HeapEntry :=
  replace_nth (replace_nth heap i (heap_at heap j)) j (heap_at heap i).

(** [bubbleUp(index)]; the index strictly decreases, so [index] is
    enough fuel. *)
Fixpoint bubbleUp (fuel : nat) (heap : list HeapEntry) (index : nat) : list HeapEntry :=
  match fuel with
  | O => heap
  | S fuel' =>
      if Nat.eqb index 0 then heap
      else
        let parentIndex := Nat.div2 (index - 1)%nat in
        if num_leb (score (heap_at heap parentIndex)) (score (heap_at heap index)) then heap
        else bubbleUp fuel' (swap heap parentIndex index) parentIndex
  end.

(** [sinkDown(index)]; the index strictly increases below the length. *)
Fixpoint sinkDown (fuel : nat) (heap : list HeapEntry) (index : nat) : list HeapEntry :=
  match fuel with
  | O => heap
  | S fuel' =>
      let length := List.length heap in
      let left := (2 * index + 1)%nat in
      let right := (2 * index + 2)%nat in
      let smallest :=
        if Nat.ltb left length && num_ltb (score (heap_at heap left)) (score (heap_at heap index))
        then left else index in
      let smallest :=
        if Nat.ltb right length && num_ltb (score (heap_at heap right)) (score (heap_at heap smallest))
        then right else smallest in
      if Nat.eqb smallest index then heap
      else sinkDown fuel' (swap heap smallest index) smallest
  end.

Definition heap_push (heap : list HeapEntry) (id : TileId) (s : num) : list HeapEntry :=
  bubbleUp (List.length heap) (heap ++ [mkEntry id s]) (List.length heap).

(** [pop()]: the new array and the returned id. *)
Definition heap_pop (heap : list HeapEntry) : list HeapEntry * option TileId :=
  match heap with
  | [] => ([], None)
  | top :: _ =>
      let last := List.last heap top in
      let rest := removelast heap in
      match rest with
      | [] => ([], Some (entry_id top))
      | _ :: _ => (sinkDown (List.length rest) (replace_nth rest 0 last) 0, Some (entry_id top))
      end
  end.

(** [reconstructPath]: the loop pushes predecessors onto [reversePath];
    [None] means the fuel ran out, which the proofs show never happens. *)
Fixpoint reconstruct_loop (fuel : nat) (cameFrom : list (TileId * TileId))
  (reversePath : list TileId) (currentStep : TileId) : option (list TileId) :=
  match fuel with
  | O => None
  | S fuel' =>
      if String.eqb currentStep "" then Some reversePath
      else
        match map_get String.eqb cameFrom currentStep with
        | None => Some reversePath
        | Some previousStep =>
            if String.eqb previousStep "" then Some reversePath
            else reconstruct_loop fuel' cameFrom (reversePath ++ [previousStep]) previousStep
        end
  end.

Definition reconstructPath (cameFrom : list (TileId * TileId)) (current : TileId)
  : option (list TileId) :=
  option_map (@rev TileId) (reconstruct_loop (S (List.length cameFrom)) cameFrom [current] current).

(** [gScore.get(id) ?? Number.POSITIVE_INFINITY]. *)
Definition score_get (scores : list (TileId * num)) (v : TileId) : num :=
  match map_get String.eqb scores v with Some n => n | None => Inf end.

(** The mutable state of [findShortestPath]. *)
Record SearchState := mkSearch {
  closedSet : list TileId;
  cameFrom : list (TileId * TileId);
  gScore : list (TileId * num);
  heap : list HeapEntry
}.

(** The body of the [for (const neighborId of currentNode.neighbors)] loop. *)
Definition relaxNeighbor (nodesById : NodesById) (destinationTileId : TileId)
  (blockedTileIds : list TileId) (current : TileId) (st : SearchState) (neighborId : TileId)
  : SearchState :=
  if set_has (closedSet st) neighborId || set_has blockedTileIds neighborId then st
  else
    match node_get nodesById neighborId with
    | None => st
    | Some neighborNode =>
        if negb (node_walkable neighborNode) then st
        else
          let tentativeScore := num_add (score_get (gScore st) current) (Fin 1) in
          if num_leb (score_get (gScore st) neighborId) tentativeScore then st
          else
            let f := num_add tentativeScore
                       (heuristicDistance nodesById neighborId destinationTileId) in
            mkSearch (closedSet st) (map_set String.eqb (cameFrom st) neighborId current)
              (map_set String.eqb (gScore st) neighborId tentativeScore)
              (heap_push (heap st) neighborId f)
  end.

(** The outcome of a fuelled loop: the function's result, or the
    fuel running out (shown impossible for the fuel used below). *)
Inductive LoopResult := Done (r : option (list TileId)) | OutOfFuel.

Fixpoint search_loop (fuel : nat) (nodesById : NodesById) (destinationTileId : TileId)
  (blockedTileIds : list TileId) (st : SearchState) : LoopResult :=
  match fuel with
  | O => OutOfFuel
  | S fuel' =>
      match heap st with
      | [] => Done None
      | _ :: _ =>
          let (heap', popped) := heap_pop (heap st) in
          match popped with
          | None => Done None
          | Some current =>
              if String.eqb current "" then Done None
              else if String.eqb current destinationTileId then
                match reconstructPath (cameFrom st) current with
                | Some p => Done (Some p)
                | None => OutOfFuel
                end
              else if set_has (closedSet st) current then
                search_loop fuel' nodesById destinationTileId blockedTileIds
                  (mkSearch (closedSet st) (cameFrom st) (gScore st) heap')
              else
                let st1 := mkSearch (set_add (closedSet st) current) (cameFrom st) (gScore st) heap' in
                match node_get nodesById current with
                | None => search_loop fuel' nodesById destinationTileId blockedTileIds st1
                | Some currentNode =>
                    search_loop fuel' nodesById destinationTileId blockedTileIds
                      (fold_left (relaxNeighbor nodesById destinationTileId blockedTileIds current)
                         (neighbors currentNode) st1)
                end
          end
      end
  end.

(** Fuel for the search: each iteration pops one heap entry, and every
    push comes from the single expansion of a node, so the iterations are
    at most one more than the total number of neighbour links. *)
Definition search_fuel (nodesById : NodesById) : nat :=
  S (S (fold_right (fun '(_, n) acc => (List.length (neighbors n) + acc)%nat) 0%nat nodesById)).

Definition findShortestPath (nodesById : NodesById) (startTileId destinationTileId : TileId)
  (blockedTileIds : list TileId) : option (list TileId) :=
  let startF := heuristicDistance nodesById startTileId destinationTileId in
  let st := mkSearch [] [] [(startTileId, Fin 0)] (heap_push [] startTileId startF) in
  match search_loop (search_fuel nodesById) nodesById destinationTileId blockedTileIds st with
  | Done r => r
  | OutOfFuel => None
  end.

(** ** The service *)

Section WithLocale.
(** [String.prototype.localeCompare], whose order depends on the locale. *)
Variable localeCompare : string -> string -> Z.

Definition toCacheKey (startTileId destinationTileId : TileId) (blockedTileIds : list TileId)
  : string :=
  let blockedPart :=
    if Nat.eqb (List.length blockedTileIds) 0 then ""%string
    else join ","%string (sort_by localeCompare blockedTileIds) in
  (startTileId ++ "->" ++ destinationTileId ++ "|" ++ blockedPart)%string.

Record PathfindingService := mkService {
  nodesById : NodesById;
  normalizedMaxCachedRoutes : Z;
  routeCache : list (string * list TileId)
}.

(** [maxCachedRoutes] is an integer here, so [Number.isInteger] holds. *)
Definition createPathfindingService (tiles : list Tile) (maxCachedRoutes : Z)
  : PathfindingService :=
  mkService (createNodesById tiles) (if 0 <? maxCachedRoutes then maxCachedRoutes else 1) [].

Definition evictOldest (cache : list (string * list TileId)) : list (string * list TileId) :=
  match cache with
  | (oldestKey, _) :: _ =>
      if String.eqb oldestKey "" then cache else map_delete String.eqb cache oldestKey
  | [] => cache
  end.

Definition findPath (svc : PathfindingService) (request : PathfindingRequest)
  : PathfindingService * PathfindingResult :=
  let nodes := nodesById svc in
  match node_get nodes (startTileId request) with
  | None => (svc, unreachable unknown_start [])
  | Some startNode =>
  match node_get nodes (destinationTileId request) with
  | None => (svc, unreachable unknown_destination [])
  | Some destinationNode =>
  let blocked := set_of_list (match blockedTileIds request with Some l => l | None => [] end) in
  if set_has blocked (node_id startNode) || negb (node_walkable startNode) then
    (svc, unreachable blocked_start [])
  else if set_has blocked (node_id destinationNode) || negb (node_walkable destinationNode) then
    (svc, unreachable blocked_destination [])
  else if String.eqb (node_id startNode) (node_id destinationNode) then
    (svc, found [node_id startNode] false)
  else
    let cacheKey := toCacheKey (node_id startNode) (node_id destinationNode) blocked in
    let cache := routeCache svc in
    match map_get String.eqb cache cacheKey with
    | Some cachedPath =>
        let cache' := map_set String.eqb (map_delete String.eqb cache cacheKey) cacheKey cachedPath in
        (mkService nodes (normalizedMaxCachedRoutes svc) cache', found cachedPath true)
    | None =>
        match findShortestPath nodes (node_id startNode) (node_id destinationNode) blocked with
        | None => (svc, unreachable no_route [])
        | Some path =>
            let cache1 := map_set String.eqb cache cacheKey path in
            let cache2 :=
              if normalizedMaxCachedRoutes svc <? Z.of_nat (List.length cache1)
              then evictOldest cache1 else cache1 in
            (mkService nodes (normalizedMaxCachedRoutes svc) cache2, found path false)
        end
    end
  end
  end.

(** A service after a sequence of calls, with their results. *)
Fixpoint run_requests (svc : PathfindingService) (requests : list PathfindingRequest)
  : PathfindingService * list PathfindingResult :=
  match requests with
  | [] => (svc, [])
  | r :: rs =>
      let (svc1, res) := findPath svc r in
      let (svc2, results) := run_requests svc1 rs in
      (svc2, res :: results)
  end.

End WithLocale.

End Pathfinding.

(* ================================================================== *)
(** * The linear-scan A* variant (open set and [fScore] map)

    The variant's service, [createNodesById], [heuristicDistance] and
    [toCacheKey] are the same text as in the heap variant and are shared;
    its search and its [reconstructPath] differ. *)

Module PathfindingLinear.
Import Js Pathfinding.

(** [pickLowestScore]: the first open id of strictly smallest score. *)
Definition pickLowestScore (openSet : list TileId) (fScore : list (TileId * num))
  : option TileId :=
  fst (fold_left (fun (best : option TileId * num) tileId =>
                    let score := score_get fScore tileId in
                    if num_ltb score (snd best) then (Some tileId, score) else best)
         openSet (None, Inf)).

(** [reconstructPath]: the loop prepends predecessors with [unshift]. *)
Fixpoint reconstruct_loop (fuel : nat) (cameFrom : list (TileId * TileId))
  (path : list TileId) (currentStep : TileId) : option (list TileId) :=
  match fuel with
  | O => None
  | S fuel' =>
      if String.eqb currentStep "" then Some path
      else
        match map_get String.eqb cameFrom currentStep with
        | None => Some path
        | Some previousStep =>
            if String.eqb previousStep "" then Some path
            else reconstruct_loop fuel' cameFrom (previousStep :: path) previousStep
        end
  end.

Definition reconstructPath (cameFrom : list (TileId * TileId)) (current : TileId)
  : option (list TileId) :=
  reconstruct_loop (S (List.length cameFrom)) cameFrom [current] current.

Record LinearState := mkLinear {
  openSet : list TileId;
  closedSet : list TileId;
  cameFrom : list (TileId * TileId);
  gScore : list (TileId * num);
  fScore : list (TileId * num)
}.

Definition relaxNeighbor (nodesById : NodesById) (destinationTileId : TileId)
  (blockedTileIds : list TileId) (current : TileId) (st : LinearState) (neighborId : TileId)
  : LinearState :=
  if set_has (closedSet st) neighborId || set_has blockedTileIds neighborId then st
  else
    match node_get nodesById neighborId with
    | None => st
    | Some neighborNode =>
        if negb (node_walkable neighborNode) then st
        else
          let tentativeScore := num_add (score_get (gScore st) current) (Fin 1) in
          if num_leb (score_get (gScore st) neighborId) tentativeScore then st
          else
            mkLinear (set_add (openSet st) neighborId) (closedSet st)
              (map_set String.eqb (cameFrom st) neighborId current)
              (map_set String.eqb (gScore st) neighborId tentativeScore)
              (map_set String.eqb (fScore st) neighborId
                 (num_add tentativeScore
                    (heuristicDistance nodesById neighborId destinationTileId)))
  end.

Fixpoint search_loop (fuel : nat) (nodesById : NodesById) (destinationTileId : TileId)
  (blockedTileIds : list TileId) (st : LinearState) : LoopResult :=
  match fuel with
  | O => OutOfFuel
  | S fuel' =>
      match openSet st with
      | [] => Done None
      | _ :: _ =>
          match pickLowestScore (openSet st) (fScore st) with
          | None => Done None
          | Some current =>
              if String.eqb current "" then Done None
              else if String.eqb current destinationTileId then
                match reconstructPath (cameFrom st) current with
                | Some p => Done (Some p)
                | None => OutOfFuel
                end
              else
                let st1 := mkLinear (set_delete (openSet st) current)
                             (set_add (closedSet st) current) (cameFrom st) (gScore st)
                             (fScore st) in
                match node_get nodesById current with
                | None => search_loop fuel' nodesById destinationTileId blockedTileIds st1
                | Some currentNode =>
                    search_loop fuel' nodesById destinationTileId blockedTileIds
                      (fold_left (relaxNeighbor nodesById destinationTileId blockedTileIds current)
                         (neighbors currentNode) st1)
                end
          end
      end
  end.

(** Fuel: every iteration closes a new node, the start or a node of the
    graph. *)
Definition search_fuel (nodesById : NodesById) : nat := S (S (List.length nodesById)).

Definition findShortestPath (nodesById : NodesById) (startTileId destinationTileId : TileId)
  (blockedTileIds : list TileId) : option (list TileId) :=
  let st := mkLinear [startTileId] [] [] [(startTileId, Fin 0)]
              [(startTileId, heuristicDistance nodesById startTileId destinationTileId)] in
  match search_loop (search_fuel nodesById) nodesById destinationTileId blockedTileIds st with
  | Done r => r
  | OutOfFuel => None
  end.

End PathfindingLinear.

(* ------------------------------------------------------------------ *)
(** ** src/domain: identifiers and enumerations *)

Module Domain.
Local Open Scope string_scope.

Definition isVillagerId (value : string) : bool :=
  String.prefix "villager_" value && (String.length "villager_" <? String.length value)%nat.

Definition isMemoryId (value : string) : bool :=
  String.prefix "memory_" value && (String.length "memory_" <? String.length value)%nat.

Definition is_digit (c : Ascii.ascii) : bool :=
  (48 <=? Ascii.nat_of_ascii c)%nat && (Ascii.nat_of_ascii c <=? 57)%nat.

(** The longest prefix of digits and the rest. *)
Fixpoint span_digits (l : list Ascii.ascii) : list Ascii.ascii * list Ascii.ascii :=
  match l with
  | c :: l' => if is_digit c then let (d, r) := span_digits l' in (c :: d, r) else ([], l)
  | [] => ([], [])
  end.

(** [/^tile_\d+_\d+$/.test(value)]. Each [\d+] is a longest run of digits:
    the character after it ([_] or the end) is not a digit. *)
Definition isTileId (value : string) : bool :=
  String.prefix "tile_" value &&
  (let (d1, r1) := span_digits (list_ascii_of_string
                                  (substring 5 (String.length value - 5) value)) in
   match r1 with
   | c :: r2 =>
       negb (List.length d1 =? 0)%nat && Ascii.eqb c "_"%char &&
       (let (d2, r3) := span_digits r2 in
        negb (List.length d2 =? 0)%nat && (List.length r3 =? 0)%nat)
   | [] => false
   end).

Definition NPC_STATES : list string := ["idle"; "planning"; "moving"; "acting"; "resting"].
Definition VILLAGER_ACTIONS : list string := ["walk"; "farm"; "chat"; "shop"; "rest"; "observe"].
Definition MEMORY_SOURCE_TYPES : list string := ["self"; "world"; "villager"; "system"].

(** [list.includes(value)] *)
Definition includes (l : list string) (value : string) : bool := existsb (String.eqb value) l.

Definition isNpcState (value : string) : bool := includes NPC_STATES value.
Definition isVillagerActionType (value : string) : bool := includes VILLAGER_ACTIONS value.
Definition isMemorySourceType (value : string) : bool := includes MEMORY_SOURCE_TYPES value.

End Domain.

(* ------------------------------------------------------------------ *)
(** ** src/simulation/snapshots.ts

    [parseWorldSnapshot] takes any JavaScript value, so this module models
    values as JSON-like trees and numbers as JavaScript numbers: finite
    ones as rationals, and [NaN] and the infinities. *)

Module Snapshot.
Import QArith_base Domain.
Local Open Scope Z_scope.
Local Open Scope string_scope.

(** A JavaScript number: a finite value, [NaN], or an infinity
    ([JsInfinity true] is [-Infinity]). *)
Inductive JsNumber := JsFinite (q : Q) | JsNaN | JsInfinity (negative : bool).

#[local] Set Warnings "-register-all".

(** A JavaScript value; an object is the list of its own properties in
    order. *)
Inductive JsValue :=
| JsUndefined
| JsNull
| JsBool (b : bool)
| JsNum (n : JsNumber)
| JsStr (s : string)
| JsArr (items : list JsValue)
| JsObj (props : list (string * JsValue)).

(** An integer literal. *)
Definition js_int (z : Z) : JsValue := JsNum (JsFinite (inject_Z z)).

(** [!!value] *)
Definition js_truthy (v : JsValue) : bool :=
  match v with
  | JsUndefined | JsNull => false
  | JsBool b => b
  | JsNum (JsFinite q) => negb (Qeq_bool q 0)
  | JsNum JsNaN => false
  | JsNum (JsInfinity _) => true
  | JsStr s => negb (String.eqb s "")
  | JsArr _ | JsObj _ => true
  end.

(** [typeof value] *)
Definition js_typeof (v : JsValue) : string :=
  match v with
  | JsUndefined => "undefined"
  | JsNull | JsArr _ | JsObj _ => "object"
  | JsBool _ => "boolean"
  | JsNum _ => "number"
  | JsStr _ => "string"
  end.

(** [typeof value === t] *)
Definition typeof_is (v : JsValue) (t : string) : bool := String.eqb (js_typeof v) t.

(** Property read [value.k]: the first own property named [k] of an
    object. The code reads only named fields, which arrays and primitives
    do not carry, and it checks for an object before reading a field. *)
Definition js_get (v : JsValue) (k : string) : JsValue :=
  match v with
  | JsObj ps =>
      match find (fun '(k', _) => String.eqb k' k) ps with
      | Some (_, x) => x
      | None => JsUndefined
      end
  | _ => JsUndefined
  end.

(** [value === undefined] *)
Definition is_undefined (v : JsValue) : bool :=
  match v with JsUndefined => true | _ => false end.

(** [value === n] for an integer literal [n]. *)
Definition strict_equals_number (v : JsValue) (n : Z) : bool :=
  match v with JsNum (JsFinite q) => Qeq_bool q (inject_Z n) | _ => false end.

(** [value === s] for a string literal [s]. *)
Definition strict_equals_string (v : JsValue) (s : string) : bool :=
  match v with JsStr t => String.eqb t s | _ => false end.

(** A value the code has checked to be a string, as a string. *)
Definition string_of (v : JsValue) : string :=
  match v with JsStr s => s | _ => "" end.

Definition Number_isInteger (v : JsValue) : bool :=
  match v with
  | JsNum (JsFinite q) => Z.eqb (Z.rem (Qnum q) (Zpos (Qden q))) 0
  | _ => false
  end.

Definition Number_isFinite (v : JsValue) : bool :=
  match v with JsNum (JsFinite _) => true | _ => false end.

(** [value < n], [value <= n], [value > n] and [value >= n] for a number
    [value] and an integer literal [n]; [NaN] compares false. The code
    compares only values it has checked to be numbers. *)
Definition js_lt (v : JsValue) (n : Z) : bool :=
  match v with
  | JsNum (JsFinite q) => negb (Qle_bool (inject_Z n) q)
  | JsNum (JsInfinity neg) => neg
  | _ => false
  end.

Definition js_le (v : JsValue) (n : Z) : bool :=
  match v with
  | JsNum (JsFinite q) => Qle_bool q (inject_Z n)
  | JsNum (JsInfinity neg) => neg
  | _ => false
  end.

Definition js_gt (v : JsValue) (n : Z) : bool :=
  match v with
  | JsNum (JsFinite q) => negb (Qle_bool q (inject_Z n))
  | JsNum (JsInfinity neg) => negb neg
  | _ => false
  end.

Definition js_ge (v : JsValue) (n : Z) : bool :=
  match v with
  | JsNum (JsFinite q) => Qle_bool (inject_Z n) q
  | JsNum (JsInfinity neg) => negb neg
  | _ => false
  end.

Definition Array_isArray (v : JsValue) : bool :=
  match v with JsArr _ => true | _ => false end.

(** [value.every(f)] for an array [value]. *)
Definition every (f : JsValue -> bool) (v : JsValue) : bool :=
  match v with JsArr items => forallb f items | _ => false end.

Definition isMemoryImportance (value : JsValue) : bool :=
  Number_isFinite value && js_ge value 0 && js_le value 1.

(** *** The validators *)

Definition isMemoryCreatedAt (value : JsValue) : bool :=
  if negb (js_truthy value) || negb (typeof_is value "object") then false else
  typeof_is (js_get value "day") "number" &&
  Number_isInteger (js_get value "day") &&
  js_ge (js_get value "day") 1 &&
  typeof_is (js_get value "minuteOfDay") "number" &&
  Number_isInteger (js_get value "minuteOfDay") &&
  js_ge (js_get value "minuteOfDay") 0 &&
  js_le (js_get value "minuteOfDay") 1439.

Definition isShortTermMemory (value : JsValue) : bool :=
  if negb (js_truthy value) || negb (typeof_is value "object") then false else
  if negb (typeof_is (js_get value "id") "string") ||
     negb (isMemoryId (string_of (js_get value "id"))) ||
     negb (typeof_is (js_get value "villagerId") "string") ||
     negb (isVillagerId (string_of (js_get value "villagerId"))) ||
     negb (typeof_is (js_get value "type") "string") ||
     negb (typeof_is (js_get value "summary") "string") ||
     negb (js_truthy (js_get value "source")) ||
     negb (typeof_is (js_get value "source") "object") ||
     negb (isMemoryCreatedAt (js_get value "createdAt")) ||
     negb (typeof_is (js_get value "bucket") "string") ||
     negb (strict_equals_string (js_get value "bucket") "short_term") ||
     negb (typeof_is (js_get value "expiresAfterTicks") "number") ||
     negb (Number_isInteger (js_get value "expiresAfterTicks")) ||
     js_le (js_get value "expiresAfterTicks") 0 ||
     negb (typeof_is (js_get value "importance") "number") ||
     negb (isMemoryImportance (js_get value "importance"))
  then false else
  typeof_is (js_get (js_get value "source") "type") "string" &&
  isMemorySourceType (string_of (js_get (js_get value "source") "type")) &&
  (is_undefined (js_get (js_get value "source") "actorVillagerId") ||
   (typeof_is (js_get (js_get value "source") "actorVillagerId") "string" &&
    isVillagerId (string_of (js_get (js_get value "source") "actorVillagerId")))) &&
  (is_undefined (js_get (js_get value "source") "eventId") ||
   typeof_is (js_get (js_get value "source") "eventId") "string").

Definition isLongTermMemory (value : JsValue) : bool :=
  if negb (js_truthy value) || negb (typeof_is value "object") then false else
  if negb (typeof_is (js_get value "id") "string") ||
     negb (isMemoryId (string_of (js_get value "id"))) ||
     negb (typeof_is (js_get value "villagerId") "string") ||
     negb (isVillagerId (string_of (js_get value "villagerId"))) ||
     negb (typeof_is (js_get value "type") "string") ||
     negb (typeof_is (js_get value "summary") "string") ||
     negb (js_truthy (js_get value "source")) ||
     negb (typeof_is (js_get value "source") "object") ||
     negb (isMemoryCreatedAt (js_get value "createdAt")) ||
     negb (typeof_is (js_get value "bucket") "string") ||
     negb (strict_equals_string (js_get value "bucket") "long_term") ||
     negb (typeof_is (js_get value "reinforcementCount") "number") ||
     negb (Number_isInteger (js_get value "reinforcementCount")) ||
     js_lt (js_get value "reinforcementCount") 0 ||
     negb (typeof_is (js_get value "importance") "number") ||
     negb (isMemoryImportance (js_get value "importance"))
  then false else
  typeof_is (js_get (js_get value "source") "type") "string" &&
  isMemorySourceType (string_of (js_get (js_get value "source") "type")) &&
  (is_undefined (js_get (js_get value "source") "actorVillagerId") ||
   (typeof_is (js_get (js_get value "source") "actorVillagerId") "string" &&
    isVillagerId (string_of (js_get (js_get value "source") "actorVillagerId")))) &&
  (is_undefined (js_get (js_get value "source") "eventId") ||
   typeof_is (js_get (js_get value "source") "eventId") "string").

Definition isVillagerMemoryStore (value : JsValue) : bool :=
  if negb (js_truthy value) || negb (typeof_is value "object") then false else
  typeof_is (js_get value "villagerId") "string" &&
  isVillagerId (string_of (js_get value "villagerId")) &&
  Array_isArray (js_get value "shortTerm") &&
  every isShortTermMemory (js_get value "shortTerm") &&
  Array_isArray (js_get value "longTerm") &&
  every isLongTermMemory (js_get value "longTerm").

Definition isNpcReplanState (value : JsValue) : bool :=
  if negb (js_truthy value) || negb (typeof_is value "object") then false else
  if (negb (is_undefined (js_get value "lastPlanTick")) &&
      (negb (typeof_is (js_get value "lastPlanTick") "number") ||
       negb (Number_isInteger (js_get value "lastPlanTick")))) ||
     (negb (is_undefined (js_get value "lastPlanSignature")) &&
      negb (typeof_is (js_get value "lastPlanSignature") "string")) ||
     (negb (is_undefined (js_get value "lastMajorEventTick")) &&
      (negb (typeof_is (js_get value "lastMajorEventTick") "number") ||
       negb (Number_isInteger (js_get value "lastMajorEventTick")))) ||
     (negb (is_undefined (js_get value "intentUpdatedAtTick")) &&
      (negb (typeof_is (js_get value "intentUpdatedAtTick") "number") ||
       negb (Number_isInteger (js_get value "intentUpdatedAtTick"))))
  then false else
  if is_undefined (js_get value "intent") then true else
  if negb (js_truthy (js_get value "intent")) ||
     negb (typeof_is (js_get value "intent") "object") then false else
  typeof_is (js_get (js_get value "intent") "action") "string" &&
  isVillagerActionType (string_of (js_get (js_get value "intent") "action")) &&
  (is_undefined (js_get (js_get value "intent") "targetTileId") ||
   (typeof_is (js_get (js_get value "intent") "targetTileId") "string" &&
    isTileId (string_of (js_get (js_get value "intent") "targetTileId")))) &&
  typeof_is (js_get (js_get value "intent") "reasoning") "string" &&
  typeof_is (js_get (js_get value "intent") "plannedAtTick") "number" &&
  Number_isInteger (js_get (js_get value "intent") "plannedAtTick").

Definition isPersistedNpcWorldState (value : JsValue) : bool :=
  if negb (js_truthy value) || negb (typeof_is value "object") then false else
  typeof_is (js_get value "villagerId") "string" &&
  isVillagerId (string_of (js_get value "villagerId")) &&
  typeof_is (js_get value "currentTileId") "string" &&
  isTileId (string_of (js_get value "currentTileId")) &&
  typeof_is (js_get value "targetTileId") "string" &&
  isTileId (string_of (js_get value "targetTileId")) &&
  typeof_is (js_get value "npcState") "string" &&
  isNpcState (string_of (js_get value "npcState")) &&
  isVillagerMemoryStore (js_get value "memoryStore") &&
  isNpcReplanState (js_get value "replan").

Definition WORLD_SNAPSHOT_VERSION : Z := 1.

(** [parseWorldSnapshot]; [undefined] is [None]. The returned [npcs] is the
    input's array itself. *)
Definition parseWorldSnapshot (value : JsValue) : option JsValue :=
  if negb (js_truthy value) || negb (typeof_is value "object") then None else
  if negb (strict_equals_number (js_get value "version") WORLD_SNAPSHOT_VERSION) ||
     negb (typeof_is (js_get value "savedAtIso") "string") ||
     negb (js_truthy (js_get value "world")) ||
     negb (typeof_is (js_get value "world") "object") ||
     negb (Array_isArray (js_get value "npcs")) ||
     negb (every isPersistedNpcWorldState (js_get value "npcs"))
  then None else
  if negb (typeof_is (js_get (js_get value "world") "tick") "number") ||
     negb (Number_isInteger (js_get (js_get value "world") "tick")) ||
     js_lt (js_get (js_get value "world") "tick") 0 ||
     negb (typeof_is (js_get (js_get value "world") "day") "number") ||
     negb (Number_isInteger (js_get (js_get value "world") "day")) ||
     js_lt (js_get (js_get value "world") "day") 1 ||
     negb (typeof_is (js_get (js_get value "world") "minuteOfDay") "number") ||
     negb (Number_isInteger (js_get (js_get value "world") "minuteOfDay")) ||
     js_lt (js_get (js_get value "world") "minuteOfDay") 0 ||
     js_gt (js_get (js_get value "world") "minuteOfDay") 1439
  then None else
  Some (JsObj [("version", js_int WORLD_SNAPSHOT_VERSION);
               ("savedAtIso", js_get value "savedAtIso");
               ("world", JsObj [("tick", js_get (js_get value "world") "tick");
                                ("day", js_get (js_get value "world") "day");
                                ("minuteOfDay", js_get (js_get value "world") "minuteOfDay")]);
               ("npcs", js_get value "npcs")]).

(** *** The [WorldSnapshot] interface

    World time is integral; the per-agent records are kept as the values
    [parseWorldSnapshot] checks and hands back. *)
Record WorldClock := mkWorldClock { tick : Z; day : Z; minuteOfDay : Z }.

Record WorldSnapshot := mkWorldSnapshot {
  version : Z;
  savedAtIso : string;
  world : WorldClock;
  npcs : list JsValue
}.

(** A [WorldSnapshot] as a JavaScript object. *)
Definition snapshot_value (s : WorldSnapshot) : JsValue :=
  JsObj [("version", js_int (version s));
         ("savedAtIso", JsStr (savedAtIso s));
         ("world", JsObj [("tick", js_int (tick (world s)));
                          ("day", js_int (day (world s)));
                          ("minuteOfDay", js_int (minuteOfDay (world s)))]);
         ("npcs", JsArr (npcs s))].

(** *** [JSON.parse(JSON.stringify(value))] on an acyclic value

    [undefined] and non-finite numbers become [null] as array elements;
    object properties whose value is [undefined] are dropped, and of
    several properties with one name only the first, the one a read sees,
    is written. Finite numbers keep their value. *)
Fixpoint json_props (f : JsValue -> JsValue) (seen : list string)
  (ps : list (string * JsValue)) : list (string * JsValue) :=
  match ps with
  | [] => []
  | (k, x) :: ps' =>
      if existsb (String.eqb k) seen then json_props f seen ps'
      else if is_undefined x then json_props f (k :: seen) ps'
      else (k, f x) :: json_props f (k :: seen) ps'
  end.

Fixpoint json_roundtrip (v : JsValue) : JsValue :=
  match v with
  | JsUndefined => JsNull
  | JsNum (JsFinite _) => v
  | JsNum _ => JsNull
  | JsArr items => JsArr (map json_roundtrip items)
  | JsObj ps => JsObj (json_props json_roundtrip [] ps)
  | _ => v
  end.

(** Values that JSON represents as they are: no [undefined], finite
    numbers, distinct property names. *)
Fixpoint distinct_keys (l : list string) : bool :=
  match l with
  | [] => true
  | k :: l' => negb (existsb (String.eqb k) l') && distinct_keys l'
  end.

Fixpoint json_data (v : JsValue) : bool :=
  match v with
  | JsUndefined => false
  | JsNum (JsFinite _) => true
  | JsNum _ => false
  | JsArr items => forallb json_data items
  | JsObj ps => distinct_keys (map fst ps) && forallb (fun '(_, x) => json_data x) ps
  | _ => true
  end.

(** JSON data in which an object property may also hold [undefined], as
    in [{ ...runtime.replan, lastMajorEventTick: undefined }]. *)
Fixpoint json_data_undef (v : JsValue) : bool :=
  match v with
  | JsUndefined => false
  | JsNum (JsFinite _) => true
  | JsNum _ => false
  | JsArr items => forallb json_data_undef items
  | JsObj ps => distinct_keys (map fst ps) &&
                forallb (fun '(_, x) => is_undefined x || json_data_undef x) ps
  | _ => true
  end.

(** Equality ignoring properties that hold [undefined]: the value with
    every such property removed, at any depth. *)
Fixpoint strip_undefined (v : JsValue) : JsValue :=
  match v with
  | JsArr items => JsArr (map strip_undefined items)
  | JsObj ps => JsObj (filter (fun kv => negb (is_undefined (snd kv)))
                              (map (fun '(k, x) => (k, strip_undefined x)) ps))
  | _ => v
  end.

End Snapshot.

(* ------------------------------------------------------------------ *)
(** ** src/unnamed/part_006: [toSimulationTime];
    src/domain/simulation-time.ts: [isSimulationTime] *)

Module SimTime.
Import Schedule Snapshot.
Local Open Scope Z_scope.

Definition MINUTES_PER_DAY : Z := 1440.

Definition assertPositiveInteger (value : Z) : option Z :=
  if value <=? 0 then None else Some value.

Definition assertNonNegativeInteger (value : Z) : option Z :=
  if value <? 0 then None else Some value.

(** [Math.floor(a / b)] and [a % b] on non-negative integers are [Z.div]
    and [Z.rem]. *)
Definition toSimulationTime (tick dayLengthTicks : Z) : option SimulationTime :=
  match assertNonNegativeInteger tick with
  | None => None
  | Some safeTick =>
      match assertPositiveInteger dayLengthTicks with
      | None => None
      | Some safeDayLengthTicks =>
          let day := safeTick / safeDayLengthTicks + 1 in
          let dayTick := Z.rem safeTick safeDayLengthTicks in
          let minuteOfDay :=
            Z.min (MINUTES_PER_DAY - 1) ((dayTick * MINUTES_PER_DAY) / safeDayLengthTicks) in
          Some (mkTime safeTick day minuteOfDay)
      end
  end.

(** [isSimulationTime]; [Number.isInteger] is false on non-numbers. *)
Definition isSimulationTime (value : JsValue) : bool :=
  if negb (js_truthy value) || negb (typeof_is value "object"%string) then false else
  Number_isInteger (js_get value "tick"%string) && js_ge (js_get value "tick"%string) 0 &&
  Number_isInteger (js_get value "day"%string) && js_ge (js_get value "day"%string) 1 &&
  Number_isInteger (js_get value "minuteOfDay"%string) &&
  js_ge (js_get value "minuteOfDay"%string) 0 &&
  js_lt (js_get value "minuteOfDay"%string) 1440.

(** A [SimulationTime] as a JavaScript object. *)
Definition time_value (t : SimulationTime) : JsValue :=
  JsObj [("tick"%string, js_int (Schedule.tick t)); ("day"%string, js_int (Schedule.day t));
         ("minuteOfDay"%string, js_int (Schedule.minuteOfDay t))].

End SimTime.

(* ------------------------------------------------------------------ *)
(** ** src/unnamed/part_005: action execution *)

Module ActionExecution.
Import Schedule.

Definition ACTION_DURATION_TICKS (a : VillagerActionType) : Z :=
  match a with
  | walk => 0
  | observe => 0
  | farm => 6
  | chat => 4
  | shop => 5
  | rest => 8
  end.

Inductive NpcState := idle | planning | moving | acting | resting.

Record VillagerActionExecution := mkExecution {
  exec_action : VillagerActionType;
  taskSignature : string;
  startedAtTick : Z;
  completesAtTick : Z;
  completedAtTick : option Z
}.

Record VillagerActionExecutionProgress := mkProgress {
  execution : VillagerActionExecution;
  completed : bool;
  npcState : NpcState
}.

Definition beginVillagerActionExecution (task : ActiveVillagerTask) (tick : Z)
  (taskSignature : string) : option VillagerActionExecution :=
  let duration := ACTION_DURATION_TICKS (task_action task) in
  if duration <=? 0 then None
  else Some (mkExecution (task_action task) taskSignature tick (tick + duration) None).

Definition advanceVillagerActionExecution (e : VillagerActionExecution) (tick : Z)
  : VillagerActionExecutionProgress :=
  if Movement.isSome (completedAtTick e) || (tick <? completesAtTick e) then
    mkProgress e false (match exec_action e with rest => resting | _ => acting end)
  else
    mkProgress (mkExecution (exec_action e) (taskSignature e) (startedAtTick e)
                  (completesAtTick e) (Some tick))
      true planning.

Definition shouldStartVillagerActionExecution (e : option VillagerActionExecution)
  (sig : string) : bool :=
  match e with
  | None => true
  | Some e => negb (String.eqb (taskSignature e) sig)
  end.

(** Successive [advanceVillagerActionExecution] calls, each on the
    execution the previous one returned; the [completed] flags in order. *)
Fixpoint advance_execution_all (e : VillagerActionExecution) (ticks : list Z)
  : VillagerActionExecution * list bool :=
  match ticks with
  | [] => (e, [])
  | t :: ts' =>
      let p := advanceVillagerActionExecution e t in
      let (e', flags) := advance_execution_all (execution p) ts' in
      (e', completed p :: flags)
  end.

End ActionExecution.

(* ------------------------------------------------------------------ *)
(** ** src/simulation/schedule.ts: the schedule index *)

Module ScheduleIndex.
Import Js Schedule.

(** [new Map(villagers.map(...))]: the [map] throws at the first villager
    whose schedule throws; the [Map] constructor then [set]s each pair in
    order. *)
Definition buildVillagerDailyScheduleIndex (villagers : list Villager)
  : option (list (VillagerId * VillagerDailySchedule)) :=
  match map_option (fun v => match createVillagerDailySchedule v with
                             | Some s => Some (id v, s)
                             | None => None
                             end) villagers with
  | None => None
  | Some pairs => Some (fold_left (fun m p => map_set String.eqb m (fst p) (snd p)) pairs [])
  end.

End ScheduleIndex.

(* ------------------------------------------------------------------ *)
(** ** e2e/game-smoke.spec.ts: [normalizeDecisionIntent] *)

Module DecisionIntent.
Import Schedule Guardrail.

(** The fields of [NpcPromptInput] that [normalizeDecisionIntent] reads. *)
Record GoalContext := mkGoalContext {
  currentGoal_targetTileId : option TileId;
  location_targetTileId : option TileId
}.

Definition action_name (a : VillagerActionType) : string :=
  match a with
  | walk => "walk" | farm => "farm" | chat => "chat" | shop => "shop" | rest => "rest"
  | observe => "observe"
  end%string.

(** [a ?? b] *)
Definition coalesce {A} (a b : option A) : option A :=
  match a with Some _ => a | None => b end.

(** [!target]: [undefined] and the empty string are falsy. *)
Definition falsy_target (t : option TileId) : bool :=
  match t with None => true | Some s => String.eqb s "" end.

Definition normalizeDecisionIntent (action : VillagerActionType) (targetTileId : option TileId)
  (context : GoalContext) : LlmAdapterApiError + (VillagerActionType * option TileId) :=
  let fallbackTargetTileId :=
    coalesce (currentGoal_targetTileId context) (location_targetTileId context) in
  let mappedTargetTileId := coalesce targetTileId fallbackTargetTileId in
  if actionRequiresTarget action && falsy_target mappedTargetTileId then
    inl (mkApiError ("Decision JSON must include targetTileId for action " ++ action_name action)%string
           502)
  else inr (action, mappedTargetTileId).

End DecisionIntent.

(* ------------------------------------------------------------------ *)
(** ** src/unnamed/part_002: [toVillagerPairKey] *)

Module PairKey.
Import Js.

(** The default order of [Array.prototype.sort()] on strings: code-unit
    order, which on ASCII strings is [String.compare]. *)
Definition default_compare (a b : string) : Z :=
  match String.compare a b with Lt => -1 | Eq => 0 | Gt => 1 end.

Definition toVillagerPairKey (firstVillagerId secondVillagerId : string) : string :=
  join "|"%string (sort_by default_compare [firstVillagerId; secondVillagerId]).

End PairKey.

Module ReplanIntent.
Import Schedule Replan.

(** [applyNpcIntentToTask]: no intent keeps the task; otherwise the
    intent's action, and its target when defined ([??]). *)
Definition applyNpcIntentToTask (task : ActiveVillagerTask) (intent : option PersistedNpcIntent)
  : ActiveVillagerTask :=
  match intent with
  | None => task
  | Some i =>
      mkTask (task_villagerId task) (intent_action i)
        (match intent_targetTileId i with Some t => Some t | None => task_targetTileId task end)
        (task_source task)
  end.

End ReplanIntent.

(* ================================================================== *)
(** * Proofs *)

Module DomainProofs.
Import Domain.

Lemma span_digits_spec l d r :
  span_digits l = (d, r) -> l = d ++ r /\ forallb is_digit d = true.
Proof.
  revert d r. induction l as [|c l IH]; intros d r E; cbn in E.
  - injection E as <- <-. auto.
  - destruct (is_digit c) eqn:Ec.
    + destruct (span_digits l) as [d' r'] eqn:E'. injection E as <- <-.
      destruct (IH _ _ eq_refl) as [-> Hd]. cbn. rewrite Ec, Hd. auto.
    + injection E as <- <-. auto.
Qed.

Lemma substring_all s : substring 0 (String.length s) s = s.
Proof. induction s as [|c s IH]; [reflexivity|]. cbn. rewrite IH. reflexivity. Qed.

(** A tile id is [tile_] followed by digits and underscores. *)
Lemma isTileId_chars s : isTileId s = true ->
  exists rest, list_ascii_of_string s = ["t"; "i"; "l"; "e"; "_"]%char ++ rest /\
               forall c, In c rest -> is_digit c = true \/ c = "_"%char.
Proof.
  unfold isTileId. intros H. apply andb_prop in H as [Hp H].
  do 5 (destruct s as [|?c s]; [discriminate Hp|]; cbn [String.prefix] in Hp;
        match type of Hp with
        | context [ascii_dec ?a ?b] => destruct (ascii_dec a b) as [<-|_]; [|discriminate Hp]
        end).
  cbn in H. rewrite Nat.sub_0_r, substring_all in H.
  exists (list_ascii_of_string s). split; [reflexivity|].
  destruct (span_digits (list_ascii_of_string s)) as [d1 r1] eqn:E1.
  destruct r1 as [|c r2]; [discriminate H|].
  destruct (span_digits r2) as [d2 r3] eqn:E2.
  apply andb_prop in H as [H H3]. apply andb_prop in H as [_ Hc].
  apply andb_prop in H3 as [_ H3].
  apply Ascii.eqb_eq in Hc. subst c.
  destruct r3; [|discriminate H3].
  destruct (span_digits_spec _ _ _ E1) as [-> Hd1].
  destruct (span_digits_spec _ _ _ E2) as [-> Hd2].
  rewrite app_nil_r. intros c Hin.
  apply in_app_or in Hin as [Hin|[<-|Hin]]; auto.
  - left. exact (proj1 (forallb_forall _ _) Hd1 c Hin).
  - left. exact (proj1 (forallb_forall _ _) Hd2 c Hin).
Qed.

(** A tile id is non-empty and has no [>], [|] or comma. *)
Lemma isTileId_format s : isTileId s = true ->
  s <> ""%string /\ ~ In ">"%char (list_ascii_of_string s) /\
  ~ In "|"%char (list_ascii_of_string s) /\ ~ In ","%char (list_ascii_of_string s).
Proof.
  intros H. destruct (isTileId_chars s H) as (rest & E & Hr).
  split; [intros ->; discriminate E|].
  rewrite E.
  split; [|split]; intros Hin; cbn in Hin;
    (destruct Hin as [Hc|[Hc|[Hc|[Hc|[Hc|Hin]]]]]; [discriminate Hc..|]);
    destruct (Hr _ Hin) as [Hd|Hd]; try discriminate Hd; vm_compute in Hd; discriminate Hd.
Qed.

End DomainProofs.

Module MovementProofs.
Import Movement.

Definition pre_arrival (p : list TileId) (c : VillagerMovementComponent) : Prop :=
  path c = p /\ arrivedAtTick c = None /\ 0 <= pathIndex c < len p - 1.

Definition post_arrival (p : list TileId) (c : VillagerMovementComponent) : Prop :=
  path c = p /\ arrivedAtTick c <> None /\ pathIndex c = len p - 1.

Lemma advance_post (p : list TileId) c t r :
  post_arrival p c -> advanceVillagerMovement c t = Some r ->
  post_arrival p (component r) /\ events r = [].
Proof.
  intros (Hp & Ha & Hi) Hr. unfold advanceVillagerMovement, assertNonNegativeInteger in Hr.
  destruct (t <? 0); [discriminate|].
  destruct ((t <=? lastProcessedTick c) || (len (path c) <=? 1)) eqn:Hb.
  - injection Hr as <-. unfold post_arrival; simpl. auto.
  - apply orb_false_iff in Hb as [H1 H2]. apply Z.leb_gt in H1.
    destruct (arrivedAtTick c) as [a|] eqn:E; [|congruence].
    rewrite Hp, Hi in Hr. simpl in Hr.
    rewrite !orb_true_r in Hr. injection Hr as <-.
    unfold post_arrival; simpl. repeat split; try congruence.
    + destruct ((Z.min (len p - 1) (len p - 1 + (t - lastProcessedTick c)) =? len p - 1));
        simpl; congruence.
    + lia.
Qed.

Lemma advance_pre (p : list TileId) c t r :
  pre_arrival p c -> advanceVillagerMovement c t = Some r ->
  (pre_arrival p (component r) /\ events r = []) \/
  (post_arrival p (component r) /\
   exists e, events r = [e] /\
             ev_tick e = lastProcessedTick c + (len p - 1 - pathIndex c)).
Proof.
  intros (Hp & Ha & Hi) Hr. unfold advanceVillagerMovement, assertNonNegativeInteger in Hr.
  destruct (t <? 0); [discriminate|].
  rewrite Hp, Ha in Hr.
  destruct ((t <=? lastProcessedTick c) || (len p <=? 1)) eqn:Hb.
  - injection Hr as <-. left. unfold pre_arrival; simpl. auto.
  - apply orb_false_iff in Hb as [H1 H2]. apply Z.leb_gt in H1.
    destruct (Z.min (len p - 1) (pathIndex c + (t - lastProcessedTick c)) =? len p - 1)
      eqn:Hreach; simpl in Hr.
    + injection Hr as <-. right. split.
      * unfold post_arrival; simpl. apply Z.eqb_eq in Hreach. repeat split; congruence.
      * eexists; split; [reflexivity|]. simpl. reflexivity.
    + injection Hr as <-. left. split; [|reflexivity].
      unfold pre_arrival; simpl. apply Z.eqb_neq in Hreach. repeat split; try lia.
Qed.

Lemma advance_all_post (p : list TileId) c ts cf evs :
  post_arrival p c -> advance_all c ts = Some (cf, evs) ->
  evs = [] /\ post_arrival p cf.
Proof.
  revert c cf evs. induction ts as [|t ts IH]; intros c cf evs Hc Hrun; simpl in Hrun.
  - inversion Hrun; subst; auto.
  - destruct (advanceVillagerMovement c t) as [r|] eqn:Hr; [|discriminate].
    destruct (advance_all (component r) ts) as [[c' evs']|] eqn:Hrest; [|discriminate].
    inversion Hrun; subst; clear Hrun.
    destruct (advance_post p c t r Hc Hr) as [Hpost Hev].
    destruct (IH _ _ _ Hpost Hrest) as [-> Hf]. rewrite Hev. auto.
Qed.

Lemma advance_all_pre (p : list TileId) c ts cf evs :
  pre_arrival p c -> advance_all c ts = Some (cf, evs) ->
  (evs = [] /\ pre_arrival p cf) \/
  (exists pre t post c1 c2 e,
      ts = pre ++ t :: post /\
      advance_all c pre = Some (c1, []) /\ pre_arrival p c1 /\
      advanceVillagerMovement c1 t = Some (mkAdvance c2 [e]) /\
      post_arrival p c2 /\
      ev_tick e = lastProcessedTick c1 + (len p - 1 - pathIndex c1) /\
      advance_all c2 post = Some (cf, []) /\ evs = [e]).
Proof.
  revert c cf evs. induction ts as [|t ts IH]; intros c cf evs Hc Hrun; simpl in Hrun.
  - inversion Hrun; subst; auto.
  - destruct (advanceVillagerMovement c t) as [r|] eqn:Hr; [|discriminate].
    destruct (advance_all (component r) ts) as [[c' evs']|] eqn:Hrest; [|discriminate].
    inversion Hrun; subst; clear Hrun.
    destruct (advance_pre p c t r Hc Hr) as [[Hpre Hev] | [Hpost [e [Hev Htick]]]].
    + rewrite Hev. simpl.
      destruct (IH _ _ _ Hpre Hrest) as [[-> Hf] | (pre & t' & post & c1 & c2 & e & Hts & H1 & H2 & H3 & H4 & H5 & H6 & ->)].
      * left; auto.
      * right. exists (t :: pre), t', post, c1, c2, e. simpl. rewrite Hr, H1.
        subst ts. rewrite Hev. simpl. split; [reflexivity|]. split; [reflexivity|]. tauto.
    + destruct (advance_all_post p _ _ _ _ Hpost Hrest) as [-> Hf].
      right. exists [], t, ts, c, (component r), e. simpl.
      split; [reflexivity|]. split; [reflexivity|]. split; [assumption|].
      split; [destruct r; simpl in *; subst; assumption|].
      split; [assumption|]. split; [assumption|]. split; [assumption|].
      rewrite Hev; reflexivity.
Qed.

Lemma advance_index_forward c k :
  0 <= lastProcessedTick c -> 1 <= k -> 0 <= pathIndex c <= len (path c) - 1 ->
  exists r, advanceVillagerMovement c (lastProcessedTick c + k) = Some r /\
            pathIndex (component r) = pathIndex c + Z.min k (len (path c) - 1 - pathIndex c).
Proof.
  intros Ht Hk Hi. unfold advanceVillagerMovement, assertNonNegativeInteger.
  destruct (Z.ltb_spec (lastProcessedTick c + k) 0); [lia|].
  destruct (Z.leb_spec (lastProcessedTick c + k) (lastProcessedTick c)); [lia|].
  destruct (Z.leb_spec (len (path c)) 1); simpl.
  - eexists; split; [reflexivity|]. simpl. lia.
  - destruct (arrivedAtTick c) as [a|]; destruct (_ =? _); simpl;
      (eexists; split; [reflexivity|]); simpl; lia.
Qed.

(** The single-tile counterexample value used by the C2 and C9 lemmas. *)
Definition single_tile_component : VillagerMovementComponent :=
  mkComponent "villager_ada"%string "tile_0_0"%string ["tile_0_0"%string] 0 0 (Some 0).

(** ** Claim C2 (counterexample): after assigning a single-tile path, a
    sequence of advance calls emits no arrival event at all, although the
    component sits at its path end; the claim's "exactly one arrival event"
    fails. *)
Lemma C2_single_tile_path_emits_no_arrival :
  exists c0 cf evs,
    assignVillagerMovementPath single_tile_component ["tile_3_4"%string] 7 = Some c0 /\
    advance_all c0 [8; 9; 20] = Some (cf, evs) /\
    pathIndex cf = len (path cf) - 1 /\ List.length evs = 0%nat.
Proof. do 3 eexists. split; [reflexivity|]. split; [reflexivity|]. split; reflexivity. Qed.

(** ** Claim C2 (amended).  (a) Advancing a component whose index lies in
    the path from its last-processed tick [t0] to [t0 + k], [k >= 1], moves
    the index forward by exactly [min k (n - 1 - i)].  (b) After
    [assignVillagerMovementPath] with a path of [n] tiles, across any
    sequence of advance calls: a single-tile path ([n = 1]) emits no arrival
    event; for [n >= 2] either the end is never reached and no event is
    emitted, or exactly one event is emitted, on the first call that reaches
    the end, carrying tick (last-processed tick + remaining distance) at
    that call, and no event before or after it. *)
Theorem C2_movement_advance_and_single_arrival :
  (forall c k,
      0 <= lastProcessedTick c -> 1 <= k -> 0 <= pathIndex c <= len (path c) - 1 ->
      exists r, advanceVillagerMovement c (lastProcessedTick c + k) = Some r /\
        pathIndex (component r) = pathIndex c + Z.min k (len (path c) - 1 - pathIndex c)) /\
  (forall c p t0 c0 ticks cf evs,
      assignVillagerMovementPath c p t0 = Some c0 ->
      advance_all c0 ticks = Some (cf, evs) ->
      (List.length p = 1%nat -> evs = []) /\
      ((2 <= List.length p)%nat ->
      (evs = [] /\ pathIndex cf < len p - 1) \/
      (exists pre t post c1 c2 e,
          ticks = pre ++ t :: post /\
          advance_all c0 pre = Some (c1, []) /\ pathIndex c1 < len p - 1 /\
          advanceVillagerMovement c1 t = Some (mkAdvance c2 [e]) /\
          pathIndex c2 = len p - 1 /\
          ev_tick e = lastProcessedTick c1 + (len p - 1 - pathIndex c1) /\
          advance_all c2 post = Some (cf, []) /\ evs = [e]))).
Proof.
  split; [exact advance_index_forward|].
  intros c p t0 c0 ticks cf evs Ha Hrun.
  unfold assignVillagerMovementPath, assertNonNegativeInteger in Ha.
  destruct (t0 <? 0); [discriminate|].
  destruct p as [|first rest]; [discriminate|]. injection Ha as <-.
  destruct rest as [|second rest].
  - split.
    + intros _. assert (Hpost : post_arrival [first]
                (mkComponent (villagerId c) first [first] 0 t0 (Some t0))).
      { unfold post_arrival, len; simpl. repeat split; congruence. }
      exact (proj1 (advance_all_post _ _ _ _ _ Hpost Hrun)).
    + simpl. lia.
  - split; [simpl; lia|]. intros _.
    assert (Hpre : pre_arrival (first :: second :: rest)
              (mkComponent (villagerId c) first (first :: second :: rest) 0 t0 None)).
    { unfold pre_arrival, len; cbn [path pathIndex arrivedAtTick List.length]. repeat split; try reflexivity; lia. }
    simpl in Hrun.
    destruct (advance_all_pre _ _ _ _ _ Hpre Hrun) as
      [[-> (_ & _ & Hi)] | (pre & t & post & c1 & c2 & e & H1 & H2 & (_ & _ & H3) & H4 &
                            (_ & _ & H5) & H6 & H7 & H8)].
    + left. split; [reflexivity|lia].
    + right. exists pre, t, post, c1, c2, e. repeat split; auto; lia.
Qed.

Definition three_tile_path : list TileId :=
  ["tile_0_0"%string; "tile_1_0"%string; "tile_2_0"%string].

Lemma C2_movement_advance_and_single_arrival_witness :
  (exists r,
      advanceVillagerMovement
        (mkComponent "villager_ada"%string "tile_0_0"%string three_tile_path 0 3 None) (3 + 1)
      = Some r /\ pathIndex (component r) = 0 + Z.min 1 (len three_tile_path - 1 - 0)) /\
  (exists c0 cf evs,
      assignVillagerMovementPath single_tile_component three_tile_path 4 = Some c0 /\
      advance_all c0 [5; 9; 12] = Some (cf, evs) /\
      (List.length three_tile_path = 1%nat -> evs = []) /\
      ((2 <= List.length three_tile_path)%nat ->
       (evs = [] /\ pathIndex cf < len three_tile_path - 1) \/
       (exists pre t post c1 c2 e,
           [5; 9; 12] = pre ++ t :: post /\
           advance_all c0 pre = Some (c1, []) /\ pathIndex c1 < len three_tile_path - 1 /\
           advanceVillagerMovement c1 t = Some (mkAdvance c2 [e]) /\
           pathIndex c2 = len three_tile_path - 1 /\
           ev_tick e = lastProcessedTick c1 + (len three_tile_path - 1 - pathIndex c1) /\
           advance_all c2 post = Some (cf, []) /\ evs = [e]))).
Proof.
  split.
  - apply (proj1 C2_movement_advance_and_single_arrival); simpl; unfold len; simpl; lia.
  - do 3 eexists. split; [reflexivity|]. split; [reflexivity|].
    apply (proj2 C2_movement_advance_and_single_arrival single_tile_component three_tile_path 4);
      reflexivity.
Defined.

(** ** Claim C9 (counterexample): a single-tile component advanced to a
    later tick is not returned unchanged: its last-processed tick moves. *)
Lemma C9_single_tile_advance_updates_tick :
  len (path single_tile_component) <= 1 /\
  advanceVillagerMovement single_tile_component 5 <> Some (mkAdvance single_tile_component []).
Proof. split; [reflexivity|]. simpl. intro H. injection H. discriminate. Qed.

(** ** Claim C9 (amended): a negative tick throws; for a non-negative tick
    with [tick <= lastProcessedTick] or a path of at most one tile,
    [advanceVillagerMovement] emits no event and returns the component with
    every field unchanged except [lastProcessedTick], which becomes
    [max lastProcessedTick tick]; when [tick <= lastProcessedTick] the
    returned component therefore equals the input. *)
Theorem C9_advance_noop_except_last_tick c tick :
  (tick < 0 -> advanceVillagerMovement c tick = None) /\
  (0 <= tick -> (tick <= lastProcessedTick c \/ len (path c) <= 1) ->
   advanceVillagerMovement c tick =
   Some (mkAdvance (mkComponent (villagerId c) (currentTileId c) (path c) (pathIndex c)
                      (Z.max (lastProcessedTick c) tick) (arrivedAtTick c)) [])) /\
  (0 <= tick -> tick <= lastProcessedTick c ->
   advanceVillagerMovement c tick = Some (mkAdvance c [])).
Proof.
  unfold advanceVillagerMovement, assertNonNegativeInteger.
  split; [intros H; destruct (Z.ltb_spec tick 0); [reflexivity|lia]|].
  split.
  - intros H0 H1. destruct (Z.ltb_spec tick 0); [lia|].
    destruct H1 as [H1|H1].
    + apply Z.leb_le in H1. rewrite H1. reflexivity.
    + apply Z.leb_le in H1. rewrite H1, orb_true_r. reflexivity.
  - intros H0 H1. destruct (Z.ltb_spec tick 0); [lia|].
    apply Z.leb_le in H1 as H2. rewrite H2. simpl.
    rewrite Z.max_l by lia. destruct c; reflexivity.
Qed.

Lemma C9_advance_noop_except_last_tick_witness :
  advanceVillagerMovement single_tile_component 5 =
  Some (mkAdvance (mkComponent "villager_ada"%string "tile_0_0"%string
                     ["tile_0_0"%string] 0 (Z.max 0 5) (Some 0)) []) /\
  advanceVillagerMovement
    (mkComponent "villager_ada"%string "tile_0_0"%string three_tile_path 1 9 None) 4 =
  Some (mkAdvance
    (mkComponent "villager_ada"%string "tile_0_0"%string three_tile_path 1 9 None) []).
Proof.
  split.
  - apply (proj1 (proj2 (C9_advance_noop_except_last_tick single_tile_component 5))).
    + lia.
    + right. reflexivity.
  - apply (proj2 (proj2 (C9_advance_noop_except_last_tick
      (mkComponent "villager_ada"%string "tile_0_0"%string three_tile_path 1 9 None) 4))).
    + lia.
    + simpl. lia.
Defined.

End MovementProofs.

Module ScheduleProofs.
Import Schedule.

Definition start_le (a b : VillagerScheduleEntry) : Prop := startMinute a <= startMinute b.
Definition start_lt (a b : VillagerScheduleEntry) : Prop := startMinute a < startMinute b.

Lemma insert_by_start_perm e l : Permutation (insert_by_start e l) (e :: l).
Proof.
  induction l as [|x xs IH]; simpl; [reflexivity|].
  destruct (startMinute x <=? startMinute e); [|reflexivity].
  rewrite IH. apply perm_swap.
Qed.

Lemma insert_by_start_sorted e l : Sorted start_le l -> Sorted start_le (insert_by_start e l).
Proof.
  induction l as [|x xs IH]; simpl; intros Hs.
  - repeat constructor.
  - destruct (Z.leb_spec (startMinute x) (startMinute e)) as [Hle|Hgt].
    + apply Sorted_inv in Hs as [Hxs Hhd]. constructor; [auto|].
      destruct xs as [|y ys]; simpl.
      * constructor. exact Hle.
      * apply HdRel_inv in Hhd.
        destruct (startMinute y <=? startMinute e); constructor; unfold start_le in *; lia.
    + constructor; [exact Hs|]. constructor. unfold start_le; lia.
Qed.

Lemma sort_by_start_spec l :
  Permutation (sort_by_start l) l /\ Sorted start_le (sort_by_start l).
Proof.
  unfold sort_by_start.
  assert (H : forall acc, Sorted start_le acc ->
            Permutation (fold_left (fun acc e => insert_by_start e acc) l acc) (acc ++ l) /\
            Sorted start_le (fold_left (fun acc e => insert_by_start e acc) l acc)).
  { induction l as [|x xs IH]; intros acc Hacc; simpl.
    - rewrite app_nil_r. auto.
    - destruct (IH (insert_by_start x acc) (insert_by_start_sorted x acc Hacc)) as [Hp Hs].
      split; [|exact Hs]. rewrite Hp, insert_by_start_perm.
      simpl. apply Permutation_middle. }
  exact (H [] (Sorted_nil _)).
Qed.

Lemma sorted_no_dup_strict l :
  Sorted start_le l -> has_adjacent_duplicate l = false -> Sorted start_lt l.
Proof.
  induction l as [|x xs IH]; intros Hs Hd; [constructor|].
  apply Sorted_inv in Hs as [Hxs Hhd].
  destruct xs as [|y ys].
  - repeat constructor.
  - simpl in Hd. apply orb_false_iff in Hd as [Hxy Hd].
    apply Z.eqb_neq in Hxy. apply HdRel_inv in Hhd.
    constructor; [exact (IH Hxs Hd)|]. constructor. unfold start_le, start_lt in *; lia.
Qed.

Lemma strictly_sorted_length_bound l lo hi :
  StronglySorted start_lt l -> Forall (fun e => lo <= startMinute e <= hi) l ->
  Z.of_nat (List.length l) <= Z.max 0 (hi - lo + 1).
Proof.
  revert lo. induction l as [|x xs IH]; intros lo Hs Hr; simpl; [lia|].
  apply StronglySorted_inv in Hs as [Hxs Hall]. inversion Hr as [|? ? Hx Hrs]; subst.
  assert (Hrs' : Forall (fun e => startMinute x + 1 <= startMinute e <= hi) xs).
  { rewrite Forall_forall in *. intros e He. specialize (Hall e He). specialize (Hrs e He).
    unfold start_lt in Hall. lia. }
  specialize (IH _ Hxs Hrs'). lia.
Qed.

Lemma toInt32_small z : 0 <= z < 2 ^ 31 -> toInt32 z = z.
Proof.
  intros H. unfold toInt32. rewrite Z.mod_small by lia.
  destruct (Z.geb_spec z (2 ^ 31)); lia.
Qed.

Section Search.
Variable es : list VillagerScheduleEntry.
Variable m : Z.

Hypothesis Hsorted : forall i j ei ej, (i <= j)%nat ->
  nth_error es i = Some ei -> nth_error es j = Some ej -> startMinute ei <= startMinute ej.
Hypothesis Hshort : Z.of_nat (List.length es) <= 2 ^ 29.

Definition search_inv (low high : Z) (active : option VillagerScheduleEntry) : Prop :=
  0 <= low /\ low <= high + 1 /\ high <= Z.of_nat (List.length es) - 1 /\
  (forall j e, Z.of_nat j < low -> nth_error es j = Some e -> startMinute e <= m) /\
  (forall j e, high < Z.of_nat j -> nth_error es j = Some e -> m < startMinute e) /\
  ((low = 0 /\ active = None) \/ (0 < low /\ active = nth_error es (Z.to_nat (low - 1)))).

Definition search_result (res : option VillagerScheduleEntry) : Prop :=
  (res = None /\ forall e, In e es -> m < startMinute e) \/
  (exists e, res = Some e /\ In e es /\ startMinute e <= m /\
             forall e', In e' es -> startMinute e' <= m -> startMinute e' <= startMinute e).

Lemma binary_search_correct fuel low high active :
  search_inv low high active -> high - low + 1 <= Z.of_nat fuel ->
  exists res, binary_search fuel es m low high active = Some res /\ search_result res.
Proof.
  revert low high active.
  induction fuel as [|fuel IH]; intros low high active (H0 & H1 & H2 & Hlow & Hhigh & Hact) Hf.
  - assert (low > high) by lia. simpl. destruct (Z.leb_spec low high); [lia|].
    eexists; split; [reflexivity|].
    destruct Hact as [[-> ->] | [Hpos ->]].
    + left. split; [reflexivity|]. intros e He. apply In_nth_error in He as [j Hj].
      apply (Hhigh j); [lia|exact Hj].
    + assert (Hlen : (Z.to_nat (low - 1) < List.length es)%nat) by lia.
      destruct (nth_error es (Z.to_nat (low - 1))) as [e|] eqn:He;
        [|apply nth_error_None in He; lia].
      right. exists e. repeat split.
      * eapply nth_error_In; eauto.
      * apply (Hlow (Z.to_nat (low - 1))); [lia|exact He].
      * intros e' He' Hle. apply In_nth_error in He' as [j Hj].
        destruct (Z.leb_spec (Z.of_nat j) high).
        -- apply (Hsorted j (Z.to_nat (low - 1))); [lia|exact Hj|exact He].
        -- specialize (Hhigh j e' ltac:(lia) Hj). lia.
  - simpl. destruct (Z.leb_spec low high) as [Hlh|Hlh].
    + set (mid := Z.shiftr (toInt32 (low + high)) 1).
      assert (Hmid : mid = (low + high) / 2).
      { unfold mid. rewrite toInt32_small by lia. rewrite Z.shiftr_div_pow2 by lia.
        reflexivity. }
      assert (Hmr : low <= mid <= high)
        by (rewrite Hmid; split; [apply Z.div_le_lower_bound|apply Z.div_le_upper_bound]; lia).
      destruct (Z.ltb_spec mid 0); [lia|].
      destruct (nth_error es (Z.to_nat mid)) as [e|] eqn:He;
        [|apply nth_error_None in He; lia].
      destruct (Z.leb_spec (startMinute e) m) as [Hle|Hgt].
      * apply IH; [|lia]. repeat split; try lia.
        -- intros j e' Hj He'. destruct (Z.ltb_spec (Z.of_nat j) low).
           ++ apply (Hlow j); auto.
           ++ assert (startMinute e' <= startMinute e)
                by (apply (Hsorted j (Z.to_nat mid)); [lia|exact He'|exact He]). lia.
        -- exact Hhigh.
        -- right. split; [lia|]. replace (Z.to_nat (mid + 1 - 1)) with (Z.to_nat mid) by lia.
           symmetry; exact He.
      * apply IH; [|lia]. repeat split; try lia.
        -- exact Hlow.
        -- intros j e' Hj He'. destruct (Z.ltb_spec high (Z.of_nat j)).
           ++ apply (Hhigh j); auto.
           ++ assert (startMinute e <= startMinute e')
                by (apply (Hsorted (Z.to_nat mid) j); [lia|exact He|exact He']). lia.
        -- destruct Hact as [[-> ->]|[Hp Ha]]; [left; split; reflexivity|right; split; assumption].
    + eexists; split; [reflexivity|].
      destruct Hact as [[-> ->] | [Hpos ->]].
      * left. split; [reflexivity|]. intros e He. apply In_nth_error in He as [j Hj].
        apply (Hhigh j); [lia|exact Hj].
      * assert (Hlen : (Z.to_nat (low - 1) < List.length es)%nat) by lia.
        destruct (nth_error es (Z.to_nat (low - 1))) as [e|] eqn:He;
          [|apply nth_error_None in He; lia].
        right. exists e. repeat split.
        -- eapply nth_error_In; eauto.
        -- apply (Hlow (Z.to_nat (low - 1))); [lia|exact He].
        -- intros e' He' Hle. apply In_nth_error in He' as [j Hj].
           destruct (Z.leb_spec (Z.of_nat j) high).
           ++ apply (Hsorted j (Z.to_nat (low - 1))); [lia|exact Hj|exact He].
           ++ specialize (Hhigh j e' ltac:(lia) Hj). lia.
Qed.

End Search.

Lemma strongly_sorted_nth l : StronglySorted start_le l ->
  forall i j ei ej, (i <= j)%nat -> nth_error l i = Some ei -> nth_error l j = Some ej ->
  startMinute ei <= startMinute ej.
Proof.
  induction l as [|x xs IH]; intros Hs i j ei ej Hij Hi Hj.
  - destruct i; discriminate.
  - apply StronglySorted_inv in Hs as [Hxs Hall]. rewrite Forall_forall in Hall.
    destruct i as [|i]; destruct j as [|j]; simpl in Hi, Hj.
    + injection Hi as <-. injection Hj as <-. lia.
    + injection Hi as <-. apply Hall. eapply nth_error_In; eauto.
    + lia.
    + apply (IH Hxs i j); auto. lia.
Qed.

Lemma map_option_range l mapped :
  map_option (fun slot =>
      match normalizeHourToMinute (hour slot) with
      | Some m => Some (mkEntry m (slot_action slot) (slot_targetTileId slot))
      | None => None
      end) l = Some mapped ->
  Forall (fun e => 0 <= startMinute e <= 1380) mapped.
Proof.
  revert mapped. induction l as [|x xs IH]; intros mapped H; simpl in H.
  - injection H as <-. constructor.
  - unfold normalizeHourToMinute in H.
    destruct ((hour x <? 0) || (hour x >=? MINUTES_PER_DAY / MINUTES_PER_HOUR)) eqn:Hb;
      [discriminate|].
    destruct (map_option _ xs) as [ys|] eqn:Hys; [|discriminate].
    injection H as <-. constructor; [|exact (IH ys eq_refl)].
    simpl. apply orb_false_iff in Hb as [Hb1 Hb2].
    apply Z.ltb_ge in Hb1. rewrite Z.geb_leb in Hb2. apply Z.leb_gt in Hb2.
    change (MINUTES_PER_DAY / MINUTES_PER_HOUR) with 24 in Hb2. unfold MINUTES_PER_HOUR. lia.
Qed.

Example resolve_example_farm :
  let sched := mkSchedule "villager_ava"%string
                 [mkEntry 360 farm "tile_3_7"%string; mkEntry 720 rest "tile_1_1"%string] in
  resolveActiveVillagerTask sched (mkTime 0 1 500) =
    Some (mkTask "villager_ava"%string farm (Some "tile_3_7"%string) source_schedule) /\
  resolveActiveVillagerTask sched (mkTime 0 1 100) =
    Some (mkTask "villager_ava"%string observe None source_idle).
Proof. split; reflexivity. Qed.

(** ** Claim C5: for a schedule built by [createVillagerDailySchedule]
    (which succeeds only when the hours are valid and distinct) and any
    time, [resolveActiveVillagerTask] returns the entry with the greatest
    start minute at most the minute of day, with source "schedule", that
    entry's action and target; when no entry starts at or before that
    minute (in particular when it precedes the first entry) it returns the
    idle fallback: action "observe", no target, source "idle". *)
Theorem C5_resolve_greatest_start_at_most_minute v sched time :
  createVillagerDailySchedule v = Some sched ->
  exists task, resolveActiveVillagerTask sched time = Some task /\
    ((exists e, In e (entries sched) /\ startMinute e <= minuteOfDay time /\
        (forall e', In e' (entries sched) -> startMinute e' <= minuteOfDay time ->
                    startMinute e' <= startMinute e) /\
        task = mkTask (sched_villagerId sched) (action e) (Some (targetTileId e)) source_schedule)
     \/ ((forall e, In e (entries sched) -> minuteOfDay time < startMinute e) /\
         task = mkTask (sched_villagerId sched) observe None source_idle)).
Proof.
  intros Hc. unfold createVillagerDailySchedule in Hc.
  destruct (map_option _ (baseSchedule v)) as [mapped|] eqn:Hm; [|discriminate].
  destruct (has_adjacent_duplicate (sort_by_start mapped)) eqn:Hd; [discriminate|].
  injection Hc as <-. simpl.
  destruct (sort_by_start_spec mapped) as [Hperm Hsort].
  set (es := sort_by_start mapped) in *.
  assert (Hrange : Forall (fun e => 0 <= startMinute e <= 1380) es).
  { eapply Permutation_Forall; [symmetry; exact Hperm|]. exact (map_option_range _ _ Hm). }
  assert (Hstrict : StronglySorted start_lt es).
  { apply Sorted_StronglySorted; [intros a b c; unfold start_lt; lia|].
    apply sorted_no_dup_strict; assumption. }
  assert (Hle : StronglySorted start_le es).
  { apply Sorted_StronglySorted; [intros a b c; unfold start_le; lia|]. exact Hsort. }
  pose proof (strictly_sorted_length_bound es 0 1380 Hstrict Hrange) as Hlen.
  unfold resolveActiveVillagerTask. cbv zeta. cbn [entries sched_villagerId].
  destruct (binary_search_correct es (minuteOfDay time) (strongly_sorted_nth es Hle)
              ltac:(lia) (S (List.length es)) 0 (Z.of_nat (List.length es) - 1) None)
    as [res [Hres Hspec]].
  { unfold search_inv. repeat split; try lia.
    - intros j e Hj He. assert (Hn : nth_error es j = None) by (apply nth_error_None; lia).
      congruence.
    - left; split; reflexivity. }
  { lia. }
  rewrite Hres.
  destruct Hspec as [[-> Hall] | (e & -> & Hin & Hle' & Hmax)].
  - eexists; split; [reflexivity|]. right. split; [exact Hall|reflexivity].
  - eexists; split; [reflexivity|]. left. exists e. repeat split; auto.
Qed.

Lemma C5_resolve_greatest_start_at_most_minute_witness :
  exists task,
    resolveActiveVillagerTask
      (mkSchedule "villager_ava"%string
         [mkEntry 360 walk "tile_2_7"%string; mkEntry 720 farm "tile_3_7"%string])
      (mkTime 0 1 500) = Some task /\
    ((exists e, In e [mkEntry 360 walk "tile_2_7"%string; mkEntry 720 farm "tile_3_7"%string] /\
        startMinute e <= 500 /\
        (forall e', In e' [mkEntry 360 walk "tile_2_7"%string;
                            mkEntry 720 farm "tile_3_7"%string] ->
                    startMinute e' <= 500 -> startMinute e' <= startMinute e) /\
        task = mkTask "villager_ava"%string (action e) (Some (targetTileId e)) source_schedule)
     \/ ((forall e, In e [mkEntry 360 walk "tile_2_7"%string;
                          mkEntry 720 farm "tile_3_7"%string] -> 500 < startMinute e) /\
         task = mkTask "villager_ava"%string observe None source_idle)).
Proof.
  exact (C5_resolve_greatest_start_at_most_minute
           (mkVillager "villager_ava"%string
              [mkSlot 12 farm "tile_3_7"%string; mkSlot 6 walk "tile_2_7"%string])
           _ (mkTime 0 1 500) eq_refl).
Defined.

End ScheduleProofs.

Module GuardrailProofs.
Import Schedule Guardrail.

Definition farm_violation : NpcDecisionPolicyViolation :=
  mkViolation "role-restriction-farm"%string "Non-farmer villagers cannot execute farm actions."%string
    farm observe violation_rewrite.

(** ** Claim C6: a non-merchant proposing "shop" aborts the whole decision
    with the fatal policy error (status 422), and this is the only way the
    guardrail blocks; a non-farmer proposing "farm" gets the decision
    rewritten to "observe" with its target cleared, one violation recorded,
    and the remaining rule evaluated against "observe"; every accepted
    result is "accepted" exactly when its violation list is empty (the
    decision is then returned unchanged) and "rewritten" otherwise. *)
Theorem C6_guardrail_block_and_rewrite d context :
  ((decision_action d = shop /\ role context <> merchant) <->
   exists err, applyDecisionGuardrails d context = inl err /\ status err = 422) /\
  (decision_action d = farm -> role context <> farmer ->
   applyDecisionGuardrails d context =
   inr (mkModeration (mkDecision observe (reasoning d) None) rewritten [farm_violation])) /\
  (forall r, applyDecisionGuardrails d context = inr r ->
   (decisionValidity r = accepted <-> policyViolations r = []) /\
   (decisionValidity r = rewritten <-> policyViolations r <> []) /\
   (policyViolations r = [] -> decision r = d)).
Proof.
  destruct d as [a reason target], context as [ro minute].
  unfold applyDecisionGuardrails, DECISION_POLICY_RULES.
  destruct (minute <? 360) eqn:E1, (minute >=? 1320) eqn:E2;
    destruct a, ro; cbn -[Z.ltb Z.geb guard_step];
    unfold guard_step; cbn -[Z.ltb Z.geb]; rewrite ?E1, ?E2; cbn.
  all: split; [split; [intros [H1 H2] | intros [err [H1 H2]]] | split].
  all: try solve [discriminate | congruence | (eexists; split; reflexivity)
                 | (split; [reflexivity | discriminate])].
  all: try (intros H1 H2; solve [discriminate | congruence | reflexivity]).
  all: intros r H; injection H as <-; cbn.
  all: repeat split; congruence.
Qed.

Lemma C6_guardrail_block_and_rewrite_witness :
  let d := mkDecision farm "tend crops"%string (Some "tile_3_7"%string) in
  let ctx := mkContext merchant 600 in
  applyDecisionGuardrails d ctx =
  inr (mkModeration (mkDecision observe (reasoning d) None) rewritten [farm_violation]) /\
  ~ (exists err, applyDecisionGuardrails d ctx = inl err /\ status err = 422).
Proof.
  cbv zeta. split.
  - apply (proj1 (proj2 (C6_guardrail_block_and_rewrite
             (mkDecision farm "tend crops"%string (Some "tile_3_7"%string))
             (mkContext merchant 600)))); [reflexivity | discriminate].
  - intros Hx.
    apply (proj2 (proj1 (C6_guardrail_block_and_rewrite
             (mkDecision farm "tend crops"%string (Some "tile_3_7"%string))
             (mkContext merchant 600)))) in Hx.
    destruct Hx as [Hx _]; discriminate Hx.
Defined.

End GuardrailProofs.

Module ReplanProofs.
Import Schedule Replan.

Lemma opt_string_eqb_refl s : opt_string_eqb (Some s) s = true.
Proof. apply String.eqb_refl. Qed.

Lemma should_request_same_signature input :
  input_lastPlanSignature input = Some (promptSignature input) ->
  shouldRequestNpcReplan input = None.
Proof.
  intros Hs. unfold shouldRequestNpcReplan. rewrite Hs, opt_string_eqb_refl.
  destruct (negb _ && negb _); reflexivity.
Qed.

(** After a due evaluation with signature [sig], the agent either still
    has that request in flight or has recorded [sig] as its last plan
    signature. *)
Definition settled_on (sig : string) (a : AgentReplanRuntime) : Prop :=
  (exists tick, inflight a = Some (tick, sig)) \/
  (inflight a = None /\ lastPlanSignature (replan a) = Some sig).

Lemma agent_event_settled sig a e :
  settled_on sig a -> settled_on sig (agent_event a e).
Proof.
  unfold settled_on.
  intros [[tick Hin] | [Hin Hs]]; destruct e; cbn; rewrite ?Hin; cbn;
    first [left; exists tick; reflexivity | right; split; first [reflexivity | assumption]].
Qed.

Lemma agent_events_settled sig evs a :
  settled_on sig a -> settled_on sig (fold_left agent_event evs a).
Proof.
  revert a; induction evs as [|e evs IH]; intros a H; cbn.
  - exact H.
  - apply IH, agent_event_settled, H.
Qed.

Lemma agent_evaluate_due_settled a tick interval sig a' reason :
  agent_evaluate a tick interval sig = (a', Some reason) -> settled_on sig a'.
Proof.
  unfold agent_evaluate. destruct (inflight a); [discriminate|].
  destruct (shouldRequestNpcReplan _); [|discriminate].
  intros H; injection H as <- _. left. exists tick. reflexivity.
Qed.

Lemma agent_evaluate_settled_not_due sig a tick interval :
  settled_on sig a -> snd (agent_evaluate a tick interval sig) = None.
Proof.
  unfold agent_evaluate. intros [[t Hin] | [Hin Hs]]; rewrite Hin; [reflexivity|].
  rewrite should_request_same_signature by exact Hs. reflexivity.
Qed.

(** ** Claim C7: [shouldRequestNpcReplan] reports nothing whenever the last
    plan signature equals the prompt signature, whatever the ticks; both
    completions of a request ([.then] and [.catch]) record the signature
    the request was issued with; hence, for one agent, after an
    evaluation that reports a replan as due, the next evaluation with the
    same prompt signature reports nothing, whatever tick it happens at
    and whatever completions and major-event updates come in between.
    (The model covers the effect's evaluations, the completion handlers
    and the two major-event updates; an evaluation reads the replan state
    written by the completions before it.) *)
Theorem C7_unchanged_signature_never_due_twice :
  (forall input, input_lastPlanSignature input = Some (promptSignature input) ->
     shouldRequestNpcReplan input = None) /\
  (forall r d tick sig,
     lastPlanSignature (replan_after_success r d tick sig) = Some sig /\
     lastPlanSignature (replan_after_failure r tick sig) = Some sig) /\
  (forall a a' tick1 tick2 interval1 interval2 sig reason evs,
     agent_evaluate a tick1 interval1 sig = (a', Some reason) ->
     snd (agent_evaluate (fold_left agent_event evs a') tick2 interval2 sig) = None).
Proof.
  split; [exact should_request_same_signature|split].
  - intros r d tick sig. split; reflexivity.
  - intros a a' tick1 tick2 interval1 interval2 sig reason evs H.
    apply agent_evaluate_settled_not_due, agent_events_settled.
    exact (agent_evaluate_due_settled _ _ _ _ _ _ H).
Qed.

Definition fresh_agent : AgentReplanRuntime :=
  mkAgent (mkReplan (Some 10) (Some "old"%string) (Some 40) None None) None.

Lemma C7_unchanged_signature_never_due_twice_witness :
  shouldRequestNpcReplan (mkReplanInput 500 30 "sig"%string (Some 10) (Some "sig"%string) (Some 40))
    = None /\
  agent_evaluate fresh_agent 50 30 "sig"%string
    = (mkAgent (replan fresh_agent) (Some (50, "sig"%string)), Some major_event) /\
  snd (agent_evaluate
         (fold_left agent_event [arrivals (Some 90); request_failed; interactions (Some 95)]
            (mkAgent (replan fresh_agent) (Some (50, "sig"%string))))
         1000 30 "sig"%string) = None.
Proof.
  split; [|split].
  - apply (proj1 C7_unchanged_signature_never_due_twice). reflexivity.
  - reflexivity.
  - apply (proj2 (proj2 C7_unchanged_signature_never_due_twice)
             fresh_agent _ 50 1000 30 30 "sig"%string major_event).
    reflexivity.
Defined.

End ReplanProofs.

(* ================================================================== *)
(** * Lemmas on the JavaScript collections *)

Module JsProofs.
Import Js.

Section MapLemmas.
Context {K V : Type} (eqb : K -> K -> bool).
Hypothesis eqb_spec : forall a b, eqb a b = true <-> a = b.

Lemma eqb_refl' a : eqb a a = true.
Proof. apply eqb_spec. reflexivity. Qed.

Lemma eqb_sym' a b : eqb a b = eqb b a.
Proof.
  destruct (eqb a b) eqn:E1, (eqb b a) eqn:E2; try reflexivity.
  - apply eqb_spec in E1. subst. rewrite eqb_refl' in E2. discriminate.
  - apply eqb_spec in E2. subst. rewrite eqb_refl' in E1. discriminate.
Qed.

Lemma map_has_spec (m : list (K * V)) k :
  map_has eqb m k = true <-> exists v, In (k, v) m.
Proof.
  unfold map_has. rewrite existsb_exists. split.
  - intros [[k' v] [Hin Hk]]. apply eqb_spec in Hk. subst. eauto.
  - intros [v Hin]. exists (k, v). split; [exact Hin | apply eqb_refl'].
Qed.

Lemma map_get_In (m : list (K * V)) k v : map_get eqb m k = Some v -> In (k, v) m.
Proof.
  unfold map_get. destruct (find _ m) as [[k' v']|] eqn:Hf; [|discriminate].
  intros H; injection H as <-.
  pose proof (find_some _ _ Hf) as [Hin Hk]. apply eqb_spec in Hk. subst. exact Hin.
Qed.

Lemma map_get_None (m : list (K * V)) k :
  map_get eqb m k = None <-> forall v, ~ In (k, v) m.
Proof.
  unfold map_get. split.
  - destruct (find _ m) as [[k' v']|] eqn:Hf; [discriminate|].
    intros _ v Hin. pose proof (find_none _ _ Hf (k, v) Hin) as Hk.
    cbn in Hk. rewrite eqb_refl' in Hk. discriminate.
  - intros H. destruct (find _ m) as [[k' v']|] eqn:Hf; [|reflexivity].
    pose proof (find_some _ _ Hf) as [Hin Hk]. apply eqb_spec in Hk. subst.
    exfalso. exact (H _ Hin).
Qed.

Lemma map_has_get (m : list (K * V)) k :
  map_has eqb m k = match map_get eqb m k with Some _ => true | None => false end.
Proof.
  destruct (map_get eqb m k) eqn:Hg.
  - apply map_has_spec. exists v. apply map_get_In, Hg.
  - pose proof (proj1 (map_get_None m k) Hg) as Hn.
    destruct (map_has eqb m k) eqn:Hh; [|reflexivity].
    apply map_has_spec in Hh as [v Hin]. exfalso. exact (Hn v Hin).
Qed.

Lemma find_map_keys (f : K * V -> K * V) (q : K) (m : list (K * V)) :
  (forall e, fst (f e) = fst e) ->
  find (fun '(k', _) => eqb k' q) (map f m) =
  option_map f (find (fun '(k', _) => eqb k' q) m).
Proof.
  intros Hf. induction m as [|[k v] m IH]; [reflexivity|].
  cbn. specialize (Hf (k, v)) as Hkv. destruct (f (k, v)) as [k2 v2] eqn:E.
  cbn in Hkv. subst k2. destruct (eqb k q); [cbn; rewrite E; reflexivity|exact IH].
Qed.

Lemma find_app' {A} (p : A -> bool) (l1 l2 : list A) :
  find p (l1 ++ l2) = match find p l1 with Some a => Some a | None => find p l2 end.
Proof.
  induction l1 as [|a l1 IH]; cbn; [reflexivity|]. destruct (p a); [reflexivity|exact IH].
Qed.

Lemma map_get_set (m : list (K * V)) k v k' :
  map_get eqb (map_set eqb m k v) k' = if eqb k' k then Some v else map_get eqb m k'.
Proof.
  unfold map_set. destruct (map_has eqb m k) eqn:Hh.
  - unfold map_get. rewrite find_map_keys
      by (intros [a b]; cbn; destruct (eqb a k); reflexivity).
    destruct (eqb k' k) eqn:Ek.
    + apply eqb_spec in Ek. subst k'.
      destruct (find (fun '(k', _) => eqb k' k) m) as [[a b]|] eqn:Hf.
      * pose proof (find_some _ _ Hf) as [_ Ha]. cbn. rewrite Ha. reflexivity.
      * apply map_has_spec in Hh as [w Hin].
        pose proof (find_none _ _ Hf (k, w) Hin) as Hk. cbn in Hk.
        rewrite eqb_refl' in Hk. discriminate.
    + destruct (find (fun '(k'0, _) => eqb k'0 k') m) as [[a b]|] eqn:Hf; [|reflexivity].
      pose proof (find_some _ _ Hf) as [_ Ha]. apply eqb_spec in Ha. subst a.
      cbn. rewrite Ek. reflexivity.
  - unfold map_get. rewrite find_app'.
    destruct (find (fun '(k'0, _) => eqb k'0 k') m) as [[a b]|] eqn:Hf.
    + destruct (eqb k' k) eqn:Ek; [|reflexivity].
      apply eqb_spec in Ek. subst k'.
      pose proof (find_some _ _ Hf) as [Hin Ha]. apply eqb_spec in Ha. subst a.
      assert (Hc : map_has eqb m k = true) by (apply map_has_spec; eauto).
      congruence.
    + cbn. rewrite (eqb_sym' k k'). destruct (eqb k' k); reflexivity.
Qed.

Lemma map_get_delete (m : list (K * V)) k k' :
  map_get eqb (map_delete eqb m k) k' = if eqb k' k then None else map_get eqb m k'.
Proof.
  unfold map_get, map_delete. induction m as [|[a b] m IH]; cbn.
  - destruct (eqb k' k); reflexivity.
  - destruct (eqb a k) eqn:Eak; cbn.
    + rewrite IH. apply eqb_spec in Eak. subst a.
      destruct (eqb k' k) eqn:E; [reflexivity|].
      rewrite eqb_sym', E. reflexivity.
    + destruct (eqb a k') eqn:Eak'.
      * apply eqb_spec in Eak'. subst a. rewrite Eak. reflexivity.
      * exact IH.
Qed.

Lemma map_set_keys (m : list (K * V)) k v :
  map fst (map_set eqb m k v) =
  if map_has eqb m k then map fst m else map fst m ++ [k].
Proof.
  unfold map_set. destruct (map_has eqb m k).
  - rewrite map_map. apply map_ext. intros [a b]. destruct (eqb a k); reflexivity.
  - rewrite map_app. reflexivity.
Qed.

Lemma map_set_length (m : list (K * V)) k v :
  List.length (map_set eqb m k v) =
  (if map_has eqb m k then List.length m else S (List.length m)).
Proof.
  rewrite <- (length_map fst), map_set_keys.
  destruct (map_has eqb m k); rewrite ?length_app, length_map; cbn; lia.
Qed.

Lemma map_has_In_keys (m : list (K * V)) k :
  map_has eqb m k = true <-> In k (map fst m).
Proof.
  rewrite map_has_spec, in_map_iff. split.
  - intros [v Hin]. exists (k, v). auto.
  - intros [[a b] [Ha Hin]]. cbn in Ha. subst. eauto.
Qed.

Lemma map_set_nodup (m : list (K * V)) k v :
  NoDup (map fst m) -> NoDup (map fst (map_set eqb m k v)).
Proof.
  intros Hnd. rewrite map_set_keys. destruct (map_has eqb m k) eqn:Hh; [exact Hnd|].
  apply NoDup_app; [exact Hnd | constructor; [intros []|constructor] |].
  intros a Ha [<- | []]. apply map_has_In_keys in Ha. congruence.
Qed.

Lemma map_delete_keys (m : list (K * V)) k :
  map fst (map_delete eqb m k) = filter (fun a => negb (eqb a k)) (map fst m).
Proof.
  unfold map_delete. induction m as [|[a b] m IH]; [reflexivity|].
  cbn. destruct (eqb a k); cbn; rewrite IH; reflexivity.
Qed.

End MapLemmas.

Lemma string_eqb_spec a b : String.eqb a b = true <-> a = b.
Proof. apply String.eqb_eq. Qed.

Lemma set_has_spec s v : set_has s v = true <-> In v s.
Proof.
  unfold set_has. rewrite existsb_exists. split.
  - intros [w [Hin Hw]]. apply String.eqb_eq in Hw. subst. exact Hin.
  - intros Hin. exists v. split; [exact Hin | apply String.eqb_refl].
Qed.

Lemma set_has_false s v : set_has s v = false <-> ~ In v s.
Proof.
  rewrite <- set_has_spec. destruct (set_has s v); split; congruence || (intros; congruence) || auto.
Qed.

Lemma set_add_In s v w : In w (set_add s v) <-> In w s \/ w = v.
Proof.
  unfold set_add. destruct (set_has s v) eqn:Hh.
  - apply set_has_spec in Hh. split; [auto|]. intros [H | ->]; assumption.
  - rewrite in_app_iff. cbn. split; intros [H | H]; auto; destruct H; auto.
    destruct H.
Qed.


Lemma set_add_nodup s v : NoDup s -> NoDup (set_add s v).
Proof.
  unfold set_add. destruct (set_has s v) eqn:Hh; [auto|]. intros Hnd.
  apply set_has_false in Hh. apply NoDup_app; [exact Hnd | repeat constructor; intros [] |].
  intros a Ha [<- | []]. exact (Hh Ha).
Qed.

Lemma set_of_list_In l w : In w (set_of_list l) <-> In w l.
Proof.
  unfold set_of_list.
  assert (H : forall acc, In w (fold_left set_add l acc) <-> In w acc \/ In w l).
  { induction l as [|a l IH]; intros acc; cbn.
    - tauto.
    - rewrite IH, set_add_In. intuition (subst; auto). }
  rewrite H. cbn. tauto.
Qed.

Lemma set_of_list_nodup l : NoDup (set_of_list l).
Proof.
  unfold set_of_list.
  assert (H : forall acc, NoDup acc -> NoDup (fold_left set_add l acc)).
  { induction l as [|a l IH]; intros acc Hacc; cbn; [exact Hacc|].
    apply IH, set_add_nodup, Hacc. }
  apply H. constructor.
Qed.

(** The order on [num]. *)
Lemma num_leb_refl a : num_leb a a = true.
Proof. destruct a; cbn; [apply Z.leb_refl | reflexivity]. Qed.

Lemma num_leb_trans a b c : num_leb a b = true -> num_leb b c = true -> num_leb a c = true.
Proof.
  destruct a, b, c; cbn; try discriminate; try reflexivity.
  rewrite !Z.leb_le. lia.
Qed.

Lemma num_leb_total a b : num_leb a b = true \/ num_leb b a = true.
Proof.
  destruct a, b; cbn; auto. rewrite !Z.leb_le. lia.
Qed.

Lemma num_ltb_leb a b : num_ltb a b = negb (num_leb b a).
Proof.
  destruct a, b; cbn; try reflexivity. rewrite Z.leb_antisym, negb_involutive. reflexivity.
Qed.

End JsProofs.

(* ================================================================== *)
(** * The binary heap: [pop] returns an entry of least score *)

Module HeapProofs.
Import Js JsProofs Pathfinding.
Local Open Scope nat_scope.

Definition parent (i : nat) : nat := Nat.div2 (i - 1).
Definition sc (h : list HeapEntry) (i : nat) : num := score (heap_at h i).
Definition le (a b : num) : Prop := num_leb a b = true.

Definition heap_ordered (h : list HeapEntry) : Prop :=
  forall i, 0 < i < List.length h -> le (sc h (parent i)) (sc h i).

Lemma parent_lt i : 0 < i -> parent i < i.
Proof.
  intros Hi. unfold parent. pose proof (Nat.div2_odd (i - 1)) as E.
  destruct (Nat.odd (i - 1)); cbn in E; lia.
Qed.

Lemma parent_child c : 0 < c -> c = 2 * parent c + 1 \/ c = 2 * parent c + 2.
Proof.
  intros Hc. unfold parent. pose proof (Nat.div2_odd (c - 1)) as E.
  destruct (Nat.odd (c - 1)); cbn in E; lia.
Qed.

Lemma parent_left j : parent (2 * j + 1) = j.
Proof.
  unfold parent. replace (2 * j + 1 - 1) with (2 * j) by lia. apply Nat.div2_double.
Qed.

Lemma parent_right j : parent (2 * j + 2) = j.
Proof.
  unfold parent. replace (2 * j + 2 - 1) with (S (2 * j)) by lia. apply Nat.div2_succ_double.
Qed.

Lemma le_refl a : le a a.
Proof. apply num_leb_refl. Qed.

Lemma le_trans a b c : le a b -> le b c -> le a c.
Proof. apply num_leb_trans. Qed.

Lemma not_le_le a b : num_leb a b = false -> le b a.
Proof.
  intros H. destruct (num_leb_total a b) as [H'|H']; [congruence | exact H'].
Qed.

Lemma ltb_le a b : num_ltb a b = true -> le a b.
Proof.
  rewrite num_ltb_leb. intros H. apply negb_true_iff in H. apply not_le_le, H.
Qed.

Lemma not_ltb_le a b : num_ltb a b = false -> le b a.
Proof.
  rewrite num_ltb_leb. intros H. apply negb_false_iff in H. exact H.
Qed.

(** ** Updates by index *)

Lemma replace_nth_length {A} (l : list A) i v : List.length (replace_nth l i v) = List.length l.
Proof.
  revert i; induction l as [|a l IH]; intros [|i]; cbn; auto.
Qed.

Lemma nth_replace_nth {A} (l : list A) i v j d :
  i < List.length l ->
  List.nth j (replace_nth l i v) d = if Nat.eqb j i then v else List.nth j l d.
Proof.
  revert i j; induction l as [|a l IH]; intros [|i] [|j] Hi; cbn in *;
    try lia; try reflexivity; apply IH; lia.
Qed.

Lemma swap_length h i j : List.length (swap h i j) = List.length h.
Proof. unfold swap. rewrite !replace_nth_length. reflexivity. Qed.

Lemma swap_at h i j k :
  i < List.length h -> j < List.length h ->
  heap_at (swap h i j) k =
  if Nat.eqb k j then heap_at h i else if Nat.eqb k i then heap_at h j else heap_at h k.
Proof.
  intros Hi Hj. unfold swap, heap_at.
  rewrite nth_replace_nth by (rewrite replace_nth_length; exact Hj).
  destruct (Nat.eqb k j); [reflexivity|].
  rewrite nth_replace_nth by exact Hi. reflexivity.
Qed.

Definition entry_eq_dec (a b : HeapEntry) : {a = b} + {a <> b}.
Proof.
  decide equality.
  - decide equality. apply Z.eq_dec.
  - apply string_dec.
Defined.

Lemma count_occ_replace_nth (l : list HeapEntry) i v x d :
  i < List.length l ->
  (count_occ entry_eq_dec (replace_nth l i v) x +
   (if entry_eq_dec (List.nth i l d) x then 1 else 0) =
   count_occ entry_eq_dec l x + (if entry_eq_dec v x then 1 else 0))%nat.
Proof.
  revert i; induction l as [|a l IH]; intros [|i] Hi; cbn in *; try lia.
  - destruct (entry_eq_dec v x), (entry_eq_dec a x); lia.
  - specialize (IH i ltac:(lia)). destruct (entry_eq_dec a x); lia.
Qed.

Lemma swap_perm h i j :
  i < List.length h -> j < List.length h -> Permutation (swap h i j) h.
Proof.
  intros Hi Hj. apply (Permutation_count_occ entry_eq_dec). intros x.
  unfold swap.
  pose proof (count_occ_replace_nth (replace_nth h i (heap_at h j)) j (heap_at h i) x
                (mkEntry ""%string Inf)) as E1.
  rewrite replace_nth_length in E1. specialize (E1 Hj).
  pose proof (count_occ_replace_nth h i (heap_at h j) x (mkEntry ""%string Inf) Hi) as E2.
  rewrite nth_replace_nth in E1 by exact Hi.
  unfold heap_at in *.
  destruct (Nat.eqb j i) eqn:Eji.
  - apply Nat.eqb_eq in Eji. subst j.
    destruct (entry_eq_dec (List.nth i h (mkEntry ""%string Inf)) x); lia.
  - destruct (entry_eq_dec (List.nth j h (mkEntry ""%string Inf)) x),
             (entry_eq_dec (List.nth i h (mkEntry ""%string Inf)) x); lia.
Qed.

(** ** [bubbleUp] *)

(** Heap order everywhere except between [j] and its parent, with the
    parent of [j] below the children of [j]. *)
Definition bu_inv (h : list HeapEntry) (j : nat) : Prop :=
  (forall i, 0 < i < List.length h -> i <> j -> le (sc h (parent i)) (sc h i)) /\
  (forall c, 0 < c < List.length h -> parent c = j -> 0 < j -> le (sc h (parent j)) (sc h c)).

Ltac swap_at_rw :=
  unfold sc; repeat rewrite swap_at by lia;
  repeat match goal with
  | |- context [Nat.eqb ?a ?b] =>
      let E := fresh "E" in destruct (Nat.eqb a b) eqn:E;
      [apply Nat.eqb_eq in E | apply Nat.eqb_neq in E]
  end; try (exfalso; lia).

Lemma bu_inv_step h j :
  0 < j < List.length h -> bu_inv h j ->
  num_leb (sc h (parent j)) (sc h j) = false ->
  bu_inv (swap h (parent j) j) (parent j).
Proof.
  intros Hj [H1 H2] Hlt. pose proof (parent_lt j ltac:(lia)) as Hp.
  apply not_le_le in Hlt.
  split; rewrite swap_length.
  - intros i Hi Hne.
    destruct (Nat.eq_dec i j) as [->|Hij].
    + swap_at_rw. exact Hlt.
    + pose proof (parent_lt i ltac:(lia)) as Hpi.
      destruct (Nat.eq_dec (parent i) j) as [Epj|Epj].
      * rewrite Epj. swap_at_rw. apply (H2 i); lia.
      * destruct (Nat.eq_dec (parent i) (parent j)) as [Epp|Epp].
        -- rewrite Epp. swap_at_rw. subst.
           apply (le_trans _ (sc h (parent j))); [exact Hlt|].
           rewrite <- Epp. apply H1; lia.
        -- swap_at_rw. apply H1; lia.
  - intros c Hc Hpc Hpos.
    pose proof (parent_lt (parent j) Hpos) as Hpp.
    destruct (Nat.eq_dec c j) as [->|Hcj].
    + swap_at_rw. apply H1; lia.
    + pose proof (parent_lt c ltac:(lia)). swap_at_rw. apply (le_trans _ (sc h (parent j))).
      * apply H1; lia.
      * rewrite <- Hpc. apply H1; lia.
Qed.

Lemma bubbleUp_spec fuel h j :
  j <= fuel -> j < List.length h -> bu_inv h j ->
  heap_ordered (bubbleUp fuel h j) /\ Permutation (bubbleUp fuel h j) h.
Proof.
  revert h j; induction fuel as [|fuel IH]; intros h j Hf Hj Hinv.
  - assert (j = 0) by lia. subst. cbn. split; [|reflexivity].
    intros i Hi. apply (proj1 Hinv); lia.
  - cbn. destruct (Nat.eqb j 0) eqn:Ej.
    + apply Nat.eqb_eq in Ej. subst. split; [|reflexivity].
      intros i Hi. apply (proj1 Hinv); lia.
    + apply Nat.eqb_neq in Ej.
      destruct (num_leb (score (heap_at h (Nat.div2 (j - 1)))) (score (heap_at h j))) eqn:Hle.
      * split; [|reflexivity]. intros i Hi.
        destruct (Nat.eq_dec i j) as [->|Hij]; [exact Hle|].
        apply (proj1 Hinv); lia.
      * pose proof (parent_lt j ltac:(lia)) as Hp.
        destruct (IH (swap h (parent j) j) (parent j)) as [Ho Hperm].
        -- lia.
        -- rewrite swap_length. lia.
        -- apply bu_inv_step; [lia | exact Hinv | exact Hle].
        -- split; [exact Ho|].
           eapply perm_trans; [exact Hperm | apply swap_perm; lia].
Qed.

Lemma heap_push_spec h id s :
  heap_ordered h ->
  heap_ordered (heap_push h id s) /\ Permutation (heap_push h id s) (h ++ [mkEntry id s]).
Proof.
  intros Ho. unfold heap_push. apply bubbleUp_spec.
  - lia.
  - rewrite length_app. cbn. lia.
  - assert (Hat : forall i, i < List.length h -> sc (h ++ [mkEntry id s]) i = sc h i).
    { intros i Hi. unfold sc, heap_at. rewrite app_nth1 by exact Hi. reflexivity. }
    unfold bu_inv. rewrite length_app. cbn. split.
    + intros i Hi Hne. pose proof (parent_lt i ltac:(lia)).
      rewrite !Hat by lia. apply Ho. lia.
    + intros c Hc Hpc Hpos. pose proof (parent_lt c ltac:(lia)). lia.
Qed.

(** ** [sinkDown] *)

(** The index [smallest] that one round of [sinkDown] computes. *)
Definition smallest_of (h : list HeapEntry) (j : nat) : nat :=
  let left := 2 * j + 1 in
  let right := 2 * j + 2 in
  let smallest :=
    if Nat.ltb left (List.length h) && num_ltb (score (heap_at h left)) (score (heap_at h j))
    then left else j in
  if Nat.ltb right (List.length h) && num_ltb (score (heap_at h right)) (score (heap_at h smallest))
  then right else smallest.

Lemma sinkDown_S fuel h j :
  sinkDown (S fuel) h j =
  if Nat.eqb (smallest_of h j) j then h
  else sinkDown fuel (swap h (smallest_of h j) j) (smallest_of h j).
Proof. reflexivity. Qed.

Lemma smallest_spec h j :
  let m := smallest_of h j in
  (m = j ->
   (2 * j + 1 < List.length h -> le (sc h j) (sc h (2 * j + 1))) /\
   (2 * j + 2 < List.length h -> le (sc h j) (sc h (2 * j + 2)))) /\
  (m <> j ->
   (m = 2 * j + 1 \/ m = 2 * j + 2) /\ m < List.length h /\ le (sc h m) (sc h j) /\
   (2 * j + 1 < List.length h -> le (sc h m) (sc h (2 * j + 1))) /\
   (2 * j + 2 < List.length h -> le (sc h m) (sc h (2 * j + 2)))).
Proof.
  cbv zeta. unfold smallest_of, sc.
  destruct (Nat.ltb (2 * j + 1) (List.length h)) eqn:L1;
  [apply Nat.ltb_lt in L1 | apply Nat.ltb_ge in L1];
  destruct (Nat.ltb (2 * j + 2) (List.length h)) eqn:L2;
  [apply Nat.ltb_lt in L2 | apply Nat.ltb_ge in L2 | apply Nat.ltb_lt in L2 | apply Nat.ltb_ge in L2];
  cbn [andb].
  - destruct (num_ltb (score (heap_at h (2 * j + 1))) (score (heap_at h j))) eqn:C1.
    + apply ltb_le in C1 as C1'.
      destruct (num_ltb (score (heap_at h (2 * j + 2))) (score (heap_at h (2 * j + 1)))) eqn:C2.
      * apply ltb_le in C2 as C2'. split; [intros; lia|]. intros _.
        repeat split; try lia; intros; eauto using le_trans, le_refl.
      * apply not_ltb_le in C2. split; [intros; lia|]. intros _.
        repeat split; try lia; intros; eauto using le_refl.
    + apply not_ltb_le in C1.
      destruct (num_ltb (score (heap_at h (2 * j + 2))) (score (heap_at h j))) eqn:C2.
      * apply ltb_le in C2 as C2'. split; [intros; lia|]. intros _.
        repeat split; try lia; intros; eauto using le_trans, le_refl.
      * apply not_ltb_le in C2. split; [|intros; congruence]. intros _. auto.
  - destruct (num_ltb (score (heap_at h (2 * j + 1))) (score (heap_at h j))) eqn:C1.
    + apply ltb_le in C1 as C1'. split; [intros; lia|]. intros _.
      repeat split; try lia; intros; eauto using le_refl.
    + apply not_ltb_le in C1. split; [|intros; congruence]. intros _. split; auto; lia.
  - lia.
  - split; [|intros; congruence]. intros _. split; intros; lia.
Qed.

Definition sd_inv (h : list HeapEntry) (j : nat) : Prop :=
  (forall i, 0 < i < List.length h -> parent i <> j -> le (sc h (parent i)) (sc h i)) /\
  (forall c, 0 < c < List.length h -> parent c = j -> 0 < j -> le (sc h (parent j)) (sc h c)).

Lemma sd_inv_done h j :
  j < List.length h -> sd_inv h j -> smallest_of h j = j -> heap_ordered h.
Proof.
  intros Hj [H1 _] Hm. destruct (proj1 (smallest_spec h j) Hm) as [Hl Hr].
  intros i Hi. destruct (Nat.eq_dec (parent i) j) as [Ep|Ep]; [|apply H1; lia].
  rewrite Ep. destruct (parent_child i ltac:(lia)) as [Ec|Ec]; rewrite Ep in Ec; subst i.
  - apply Hl; lia.
  - apply Hr; lia.
Qed.

Lemma sd_inv_step h j :
  j < List.length h -> sd_inv h j -> smallest_of h j <> j ->
  sd_inv (swap h (smallest_of h j) j) (smallest_of h j).
Proof.
  intros Hj [H1 H2] Hm.
  destruct (proj2 (smallest_spec h j) Hm) as (Hmc & Hml & Hmj & Hl & Hr).
  set (m := smallest_of h j) in *.
  assert (Hpm : parent m = j) by (destruct Hmc as [-> | ->]; auto using parent_left, parent_right).
  split; rewrite swap_length.
  - intros i Hi Hne.
    pose proof (parent_lt i ltac:(lia)) as Hpi.
    destruct (Nat.eq_dec i m) as [->|Him].
    + rewrite Hpm. swap_at_rw. exact Hmj.
    + destruct (Nat.eq_dec i j) as [->|Hij].
      * swap_at_rw. apply (H2 m); lia.
      * destruct (Nat.eq_dec (parent i) j) as [Ep|Ep].
        -- rewrite Ep. swap_at_rw.
           destruct (parent_child i ltac:(lia)) as [Ec|Ec]; rewrite Ep in Ec; subst i.
           ++ apply Hl; lia.
           ++ apply Hr; lia.
        -- swap_at_rw. apply H1; lia.
  - intros c Hc Hpc Hpos. rewrite Hpm.
    pose proof (parent_lt c ltac:(lia)) as Hpcl.
    swap_at_rw. rewrite <- Hpc. apply H1; lia.
Qed.

Lemma sinkDown_spec fuel h j :
  List.length h <= fuel + j -> j < List.length h -> sd_inv h j ->
  heap_ordered (sinkDown fuel h j) /\ Permutation (sinkDown fuel h j) h.
Proof.
  revert h j; induction fuel as [|fuel IH]; intros h j Hf Hj Hinv; [lia|].
  rewrite sinkDown_S. destruct (Nat.eqb (smallest_of h j) j) eqn:Em.
  - apply Nat.eqb_eq in Em. split; [|reflexivity]. eapply sd_inv_done; eauto.
  - apply Nat.eqb_neq in Em.
    destruct (proj2 (smallest_spec h j) Em) as (Hmc & Hml & _).
    destruct (IH (swap h (smallest_of h j) j) (smallest_of h j)) as [Ho Hp].
    + rewrite swap_length. destruct Hmc as [-> | ->]; lia.
    + rewrite swap_length. exact Hml.
    + apply sd_inv_step; assumption.
    + split; [exact Ho|]. eapply perm_trans; [exact Hp | apply swap_perm; lia].
Qed.

(** ** [push] and [pop] *)

Lemma heap_root_min h :
  heap_ordered h -> forall i, i < List.length h -> le (sc h 0) (sc h i).
Proof.
  intros Ho i. induction i as [i IH] using (well_founded_induction lt_wf). intros Hi.
  destruct (Nat.eq_dec i 0) as [->|Hi0]; [apply le_refl|].
  pose proof (parent_lt i ltac:(lia)).
  apply (le_trans _ (sc h (parent i))); [apply IH; lia | apply Ho; lia].
Qed.

Lemma heap_pop_spec h top t :
  heap_ordered h -> h = top :: t ->
  heap_ordered (fst (heap_pop h)) /\ snd (heap_pop h) = Some (entry_id top) /\
  Permutation h (top :: fst (heap_pop h)) /\
  (forall e, In e h -> le (score top) (score e)).
Proof.
  intros Ho Eh.
  assert (Hmin : forall e, In e h -> le (score top) (score e)).
  { intros e He. apply (In_nth _ _ (mkEntry ""%string Inf)) in He as [i [Hi <-]].
    pose proof (heap_root_min h Ho i Hi) as Hr. unfold sc, heap_at in Hr.
    rewrite Eh in Hr at 1. exact Hr. }
  subst h. destruct t as [|a t].
  - cbn. split; [intros i Hi; cbn in Hi; lia|]. split; [reflexivity|]. split; [reflexivity|].
    exact Hmin.
  - destruct (exists_last (l := a :: t) ltac:(discriminate)) as [t' [last Et]].
    rewrite Et in *.
    assert (Hpop : heap_pop (top :: t' ++ [last]) =
                   (sinkDown (S (List.length t')) (last :: t') 0, Some (entry_id top))).
    { unfold heap_pop. rewrite app_comm_cons, removelast_last, last_last. reflexivity. }
    rewrite Hpop. cbn [fst snd].
    assert (Hsd : heap_ordered (sinkDown (S (List.length t')) (last :: t') 0) /\
                  Permutation (sinkDown (S (List.length t')) (last :: t') 0) (last :: t')).
    { apply sinkDown_spec; [cbn; lia | cbn; lia |]. split.
      - intros i Hi Hne. cbn [List.length] in Hi.
        assert (Hat : forall k, 0 < k -> k < S (List.length t') ->
                        sc (last :: t') k = sc (top :: t' ++ [last]) k).
        { intros [|k] Hk Hk'; [lia|]. unfold sc, heap_at. cbn.
          rewrite app_nth1 by lia. reflexivity. }
        pose proof (parent_lt i ltac:(lia)).
        rewrite !Hat by lia. apply Ho. cbn [List.length]. rewrite length_app. cbn. lia.
      - intros c _ _ Hpos. lia. }
    destruct Hsd as [Hso Hsp]. split; [exact Hso|]. split; [reflexivity|]. split; [|exact Hmin].
    apply perm_skip. eapply perm_trans; [|symmetry; exact Hsp].
    symmetry. apply Permutation_cons_append.
Qed.

End HeapProofs.

(* ================================================================== *)
(** * Correctness of the two A* searches *)

Module SearchProofs.
Import Js JsProofs Pathfinding.

(** ** Lists read as routes *)

(** [chain_ok R l]: every two consecutive elements of [l] are related by [R]. *)
Fixpoint chain_ok {A} (R : A -> A -> Prop) (l : list A) : Prop :=
  match l with
  | a :: ((b :: _) as l') => R a b /\ chain_ok R l'
  | _ => True
  end.

(** A route from [s] to [d] whose steps satisfy [R]. *)
Definition route_ok {A} (R : A -> A -> Prop) (s d : A) (p : list A) : Prop :=
  (exists mid, p = s :: mid) /\ (exists mid, p = mid ++ [d]) /\ chain_ok R p.

Lemma chain_ok_app {A} (R : A -> A -> Prop) l1 a l2 :
  chain_ok R (l1 ++ a :: l2) <-> chain_ok R (l1 ++ [a]) /\ chain_ok R (a :: l2).
Proof.
  induction l1 as [|x l1 IH]; cbn; [tauto|].
  destruct l1 as [|y l1]; cbn in *; [tauto|]. rewrite IH. tauto.
Qed.

Lemma chain_ok_rev {A} (R : A -> A -> Prop) l :
  chain_ok R (rev l) <-> chain_ok (fun a b => R b a) l.
Proof.
  induction l as [|x l IH]; cbn; [tauto|].
  destruct l as [|y l]; cbn; [tauto|].
  cbn in IH. rewrite <- app_assoc. cbn. rewrite chain_ok_app. rewrite IH. cbn. tauto.
Qed.

Lemma chain_ok_impl {A} (R R' : A -> A -> Prop) l :
  (forall a b, R a b -> R' a b) -> chain_ok R l -> chain_ok R' l.
Proof.
  intros HR. induction l as [|a l IH]; cbn; [auto|].
  destruct l as [|b l]; [auto|]. intros [H1 H2]. split; auto.
Qed.

Section Graph.
Variable G : NodesById.
Variable B : list TileId.
Variable start dest : TileId.

(** [v] can be entered: a walkable node that is not blocked. *)
Definition usable (v : TileId) : Prop :=
  exists n, node_get G v = Some n /\ node_walkable n = true /\ set_has B v = false.

(** [v] is listed among the neighbours of [u]'s node. *)
Definition edge (u v : TileId) : Prop :=
  exists n, node_get G u = Some n /\ In v (neighbors n).

Definition gstep (u v : TileId) : Prop := edge u v /\ usable v.

(** [walk v k]: a walk of [k] steps from [start] to [v]. *)
Inductive walk : TileId -> nat -> Prop :=
| walk_start : walk start 0
| walk_step u v k : walk u k -> gstep u v -> walk v (S k).

(** A route in reverse order, from [v] back to [start]. *)
Definition rpath (v : TileId) (k : nat) (l : list TileId) : Prop :=
  (exists l', l = v :: l' /\ List.length l' = k) /\ (exists l'', l = l'' ++ [start]) /\
  chain_ok (fun a b => gstep b a) l.

Lemma walk_rpath v k : walk v k -> exists l, rpath v k l.
Proof.
  induction 1 as [|u v k Hw [l [[l' [-> Hl]] [[l'' El] Hc]]] Hs].
  - exists [start]. split; [exists []; auto|]. split; [exists []; reflexivity|]. cbn; auto.
  - exists (v :: u :: l'). split; [exists (u :: l'); cbn; auto|]. split.
    + exists (v :: l''). rewrite El. reflexivity.
    + cbn. split; [exact Hs|]. exact Hc.
Qed.

Lemma rpath_walk l' : forall v k, rpath v k (v :: l') -> walk v k.
Proof.
  induction l' as [|u l' IH]; intros v k [[l0 [E Hl]] [[l'' El] Hc]]; injection E as <-.
  - cbn in Hl. subst k. destruct l'' as [|x [|y l'']]; cbn in El; injection El; intros; subst;
      try discriminate. constructor.
  - cbn in Hl. destruct k as [|k]; [discriminate|]. injection Hl as Hl.
    destruct Hc as [Hs Hc]. apply walk_step with u; [|exact Hs].
    apply IH. split; [exists l'; auto|]. split; [|exact Hc].
    destruct l'' as [|x l'']; cbn in El; injection El as _ El.
    + destruct l'; discriminate.
    + exists l''. exact El.
Qed.

Lemma walk_route v k : walk v k ->
  exists p, route_ok gstep start v p /\ List.length p = S k.
Proof.
  intros Hw. destruct (walk_rpath v k Hw) as [l [[l' [-> Hl]] [[l'' El] Hc]]].
  exists (rev (v :: l')). split; [split; [|split]|].
  - rewrite El, rev_app_distr. cbn. eexists; reflexivity.
  - cbn. eexists; reflexivity.
  - apply chain_ok_rev. exact Hc.
  - rewrite length_rev. cbn. lia.
Qed.

Lemma route_walk v p : route_ok gstep start v p -> walk v (List.length p - 1).
Proof.
  intros [[m1 E1] [[m2 E2] Hc]].
  apply (rpath_walk (rev m2)). split; [|split].
  - exists (rev m2). split; [reflexivity|].
    rewrite length_rev, E2, length_app. cbn. lia.
  - exists (rev m1).
    replace (v :: rev m2) with (rev p) by (rewrite E2, rev_app_distr; reflexivity).
    rewrite E1. reflexivity.
  - replace (v :: rev m2) with (rev p) by (rewrite E2, rev_app_distr; reflexivity).
    apply chain_ok_rev. exact Hc.
Qed.


Lemma walk_usable v k : walk v k -> v = start \/ usable v.
Proof. destruct 1 as [|u v k _ [_ Hu]]; auto. Qed.

(** ** The searches' hypotheses on the graph *)
Section Consistent.
Hypothesis G_nonempty : forall v n, node_get G v = Some n -> v <> ""%string.
Hypothesis G_unit : forall u v nu nv,
  node_get G u = Some nu -> In v (neighbors nu) -> node_get G v = Some nv ->
  Z.abs (node_x nu - node_x nv) + Z.abs (node_y nu - node_y nv) <= 1.
Hypothesis start_node : node_get G start <> None.
Hypothesis dest_node : node_get G dest <> None.

Definition h (v : TileId) : num := heuristicDistance G v dest.

Lemma h_fin v : node_get G v <> None -> exists z, h v = Fin z /\ 0 <= z.
Proof.
  unfold h, heuristicDistance. destruct (node_get G v) as [nv|]; [|congruence].
  destruct (node_get G dest) as [nd|]; [|congruence].
  intros _. eexists; split; [reflexivity|]. lia.
Qed.

Lemma h_consistent u v : edge u v -> node_get G v <> None ->
  exists a b, h u = Fin a /\ h v = Fin b /\ a <= b + 1.
Proof.
  intros [nu [Hu Hin]] Hv. unfold h, heuristicDistance. rewrite Hu.
  destruct (node_get G v) as [nv|] eqn:Ev; [|congruence].
  destruct (node_get G dest) as [nd|]; [|congruence].
  pose proof (G_unit u v nu nv Hu Hin Ev). do 2 eexists; split; [reflexivity|]. split; [reflexivity|].
  lia.
Qed.

Lemma usable_node v : usable v -> node_get G v <> None.
Proof. intros [n [E _]]. congruence. Qed.

Lemma walk_node v k : walk v k -> node_get G v <> None.
Proof.
  intros Hw. destruct (walk_usable v k Hw) as [->|Hu]; [exact start_node|].
  apply usable_node, Hu.
Qed.

Lemma walk_nonempty v k : walk v k -> v <> ""%string.
Proof.
  intros Hw. pose proof (walk_node v k Hw) as Hn.
  destruct (node_get G v) eqn:E; [|congruence]. eapply G_nonempty, E.
Qed.

(** ** The invariant shared by both searches

    [C] is the closed set, [P] the [cameFrom] map and [g] the [gScore] map. *)
Record core_inv (C : list TileId) (P : list (TileId * TileId)) (g : list (TileId * num))
  : Prop := {
  ci_start : score_get g start = Fin 0;
  ci_walk : forall v z, score_get g v = Fin z -> 0 <= z /\ walk v (Z.to_nat z);
  ci_closed : forall u, In u C ->
    exists z, score_get g u = Fin z /\ forall k, walk u k -> z <= Z.of_nat k;
  ci_pred : forall v p, map_get String.eqb P v = Some p ->
    In p C /\ edge p v /\ score_get g v = num_add (score_get g p) (Fin 1);
  ci_pred_def : forall v z, score_get g v = Fin z ->
    v = start \/ map_get String.eqb P v <> None;
  ci_dest : ~ In dest C;
  ci_nodup : NoDup C
}.

(** After the expansion of [u], each neighbour [w] is closed, not
    enterable, or has a score at most [g u + 1]. *)
Definition nbr_ok (C : list TileId) (g : list (TileId * num)) (u w : TileId) : Prop :=
  In w C \/ ~ usable w \/ num_leb (score_get g w) (num_add (score_get g u) (Fin 1)) = true.

Definition closed_ok (C : list TileId) (g : list (TileId * num)) : Prop :=
  forall u w, In u C -> edge u w -> nbr_ok C g u w.

Lemma sget_set {V} (m : list (TileId * V)) k v k' :
  map_get String.eqb (map_set String.eqb m k v) k' =
  if String.eqb k' k then Some v else map_get String.eqb m k'.
Proof. first [apply (map_get_set String.eqb string_eqb_spec) | apply (map_get_set String.eqb)]. Qed.

Lemma score_get_set g k v k' :
  score_get (map_set String.eqb g k v) k' = if String.eqb k' k then v else score_get g k'.
Proof. unfold score_get. rewrite sget_set. destruct (String.eqb k' k); reflexivity. Qed.

Lemma num_leb_fin_inv a z : num_leb a (Fin z) = true -> exists x, a = Fin x /\ x <= z.
Proof. destruct a as [x|]; cbn; [|discriminate]. intros H. apply Z.leb_le in H. eauto. Qed.

(** The frontier: a walk to a node that is not closed passes through an
    open node whose [g + h] is at most the walk's length plus [h]. *)
Lemma frontier C P g : core_inv C P g -> closed_ok C g ->
  forall w k, walk w k -> ~ In w C ->
  exists x zx hx hw, score_get g x = Fin zx /\ ~ In x C /\ h x = Fin hx /\ h w = Fin hw /\
    zx + hx <= Z.of_nat k + hw.
Proof.
  intros Hi Hc w k Hw. induction Hw as [|u w k Hw IH [He Hu]]; intros Hnc.
  - destruct (h_fin start start_node) as [a [Ha _]].
    exists start, 0, a, a. split; [exact (ci_start _ _ _ Hi)|]. repeat split; auto. lia.
  - destruct (h_fin w (usable_node w Hu)) as [b [Hb _]].
    destruct (in_dec string_dec u C) as [Huc|Huc].
    + destruct (ci_closed _ _ _ Hi u Huc) as [zu [Hzu Hmin]].
      specialize (Hmin k Hw).
      destruct (Hc u w Huc He) as [Hwc|[Hwu|Hle]]; [contradiction|contradiction|].
      rewrite Hzu in Hle. cbn in Hle. apply num_leb_fin_inv in Hle as [zw [Hzw Hle]].
      exists w, zw, b, b. repeat split; auto. lia.
    + destruct (IH Huc) as [x [zx [hx [hu [Hx [Hxc [Hhx [Hhu Hle]]]]]]]].
      destruct (h_consistent u w He (usable_node w Hu)) as [a [b' [Ha [Hb' Hab]]]].
      rewrite Hb in Hb'. injection Hb' as <-. rewrite Ha in Hhu. injection Hhu as <-.
      exists x, zx, hx, b. repeat split; auto. lia.
Qed.

(** ** One relaxation, on the shared part of the state *)

(** The effect of the neighbour loop's body on [cameFrom] and [gScore]:
    nothing, or the update of [w] through [c]. *)
Definition relax_core (C : list TileId) (P : list (TileId * TileId)) (g : list (TileId * num))
  (c w : TileId) (P' : list (TileId * TileId)) (g' : list (TileId * num)) : Prop :=
  (P' = P /\ g' = g /\ nbr_ok C g c w) \/
  (~ In w C /\ usable w /\
   num_leb (score_get g w) (num_add (score_get g c) (Fin 1)) = false /\
   P' = map_set String.eqb P w c /\
   g' = map_set String.eqb g w (num_add (score_get g c) (Fin 1))).

Lemma sget_pred_set (P : list (TileId * TileId)) w c v :
  map_get String.eqb (map_set String.eqb P w c) v =
  if String.eqb v w then Some c else map_get String.eqb P v.
Proof. apply sget_set. Qed.

Lemma relax_core_inv C P g c w P' g' :
  core_inv C P g -> In c C -> edge c w -> relax_core C P g c w P' g' ->
  core_inv C P' g' /\ nbr_ok C g' c w /\
  (forall v, In v C -> score_get g' v = score_get g v) /\
  (forall v, num_leb (score_get g' v) (score_get g v) = true).
Proof.
  intros Hi Hcc He [[-> [-> Hok]] | [Hwc [Hwu [Hlt [-> ->]]]]].
  - split; [exact Hi|]. split; [exact Hok|]. split; [reflexivity|]. intros; apply num_leb_refl.
  - destruct (ci_closed _ _ _ Hi c Hcc) as [zc [Hzc _]].
    destruct (ci_walk _ _ _ Hi c zc Hzc) as [Hzc0 Hwc'].
    rewrite Hzc in Hlt |- *. cbn in Hlt.
    change (num_add (Fin zc) (Fin 1)) with (Fin (zc + 1)).
    assert (Hcw : c <> w) by (intros ->; contradiction).
    assert (Hclosed : forall v, In v C -> score_get (map_set String.eqb g w (Fin (zc + 1))) v =
                                         score_get g v).
    { intros v Hv. rewrite score_get_set. destruct (String.eqb_spec v w); [subst; contradiction|].
      reflexivity. }
    assert (Hsw : start <> w).
    { intros <-. rewrite (ci_start _ _ _ Hi) in Hlt. cbn in Hlt.
      apply Z.leb_gt in Hlt. lia. }
    split; [constructor|].
    + rewrite score_get_set. destruct (String.eqb_spec start w); [congruence|].
      exact (ci_start _ _ _ Hi).
    + intros v z. rewrite score_get_set. destruct (String.eqb_spec v w) as [->|Hvw].
      * intros E; injection E as <-. split; [lia|].
        replace (Z.to_nat (zc + 1)) with (S (Z.to_nat zc)) by lia.
        apply walk_step with c; [exact Hwc'|split; assumption].
      * apply (ci_walk _ _ _ Hi).
    + intros u Hu. rewrite (Hclosed u Hu). apply (ci_closed _ _ _ Hi u Hu).
    + intros v p. rewrite sget_pred_set. destruct (String.eqb_spec v w) as [->|Hvw].
      * intros E; injection E as <-. split; [exact Hcc|]. split; [exact He|].
        rewrite (Hclosed c Hcc), Hzc, score_get_set, String.eqb_refl. reflexivity.
      * intros Hp. destruct (ci_pred _ _ _ Hi v p Hp) as [Hpc [Hpe Hpg]].
        split; [exact Hpc|]. split; [exact Hpe|].
        rewrite (Hclosed p Hpc), score_get_set. destruct (String.eqb_spec v w); [contradiction|].
        exact Hpg.
    + intros v z. rewrite score_get_set, sget_pred_set.
      destruct (String.eqb_spec v w) as [->|Hvw]; [right; discriminate|].
      apply (ci_pred_def _ _ _ Hi).
    + exact (ci_dest _ _ _ Hi).
    + exact (ci_nodup _ _ _ Hi).
    + split; [|split].
      * right; right. rewrite (Hclosed c Hcc), Hzc, score_get_set, String.eqb_refl. cbn.
        apply Z.leb_refl.
      * exact Hclosed.
      * intros v. rewrite score_get_set. destruct (String.eqb_spec v w) as [->|_];
          [|apply num_leb_refl].
        destruct (score_get g w) as [x|]; cbn in *; [|reflexivity].
        apply Z.leb_gt in Hlt. apply Z.leb_le. lia.
Qed.

Lemma nbr_ok_mono C g g' u w :
  nbr_ok C g u w -> score_get g' u = score_get g u ->
  (forall v, num_leb (score_get g' v) (score_get g v) = true) -> nbr_ok C g' u w.
Proof.
  intros [H|[H|H]] Hu Hm; [left; exact H|right; left; exact H|right; right].
  rewrite Hu. exact (num_leb_trans _ _ _ (Hm w) H).
Qed.

(** ** Following [cameFrom] back to the start *)

Definition pred (P : list (TileId * TileId)) (v : TileId) : TileId :=
  match map_get String.eqb P v with Some p => p | None => ""%string end.

(** The ids met from [v] back through [n] predecessors. *)
Fixpoint pred_chain (P : list (TileId * TileId)) (n : nat) (v : TileId) : list TileId :=
  match n with O => [v] | S n' => v :: pred_chain P n' (pred P v) end.

(** The same without its last element (the start). *)
Fixpoint pred_list (P : list (TileId * TileId)) (n : nat) (v : TileId) : list TileId :=
  match n with O => [] | S n' => v :: pred_list P n' (pred P v) end.

Section Chain.
Variables (C : list TileId) (P : list (TileId * TileId)) (g : list (TileId * num)).
Hypothesis Hi : core_inv C P g.

Lemma g_nonneg v z : score_get g v = Fin z -> 0 <= z.
Proof. intros E. exact (proj1 (ci_walk _ _ _ Hi v z E)). Qed.

Lemma chain_zero v : score_get g v = Fin 0 -> v = start /\ map_get String.eqb P v = None.
Proof.
  intros Hv.
  assert (Hnp : map_get String.eqb P v = None).
  { destruct (map_get String.eqb P v) as [p|] eqn:Ep; [|reflexivity].
    destruct (ci_pred _ _ _ Hi v p Ep) as [Hpc [_ Hg]].
    destruct (ci_closed _ _ _ Hi p Hpc) as [zp [Hzp _]].
    pose proof (g_nonneg p zp Hzp). rewrite Hv, Hzp in Hg. cbn in Hg.
    injection Hg. lia. }
  destruct (ci_pred_def _ _ _ Hi v 0 Hv) as [H|H]; [auto|congruence].
Qed.

Lemma chain_step v n : score_get g v = Fin (Z.of_nat (S n)) ->
  exists p, map_get String.eqb P v = Some p /\ score_get g p = Fin (Z.of_nat n) /\
            In p C /\ gstep p v.
Proof.
  intros Hv. destruct (ci_pred_def _ _ _ Hi v _ Hv) as [->|H].
  - rewrite (ci_start _ _ _ Hi) in Hv. injection Hv. lia.
  - destruct (map_get String.eqb P v) as [p|] eqn:Ep; [|congruence].
    destruct (ci_pred _ _ _ Hi v p Ep) as [Hpc [He Hg]].
    destruct (ci_closed _ _ _ Hi p Hpc) as [zp [Hzp _]].
    rewrite Hv, Hzp in Hg. cbn [num_add] in Hg. injection Hg as Hg. rewrite ?Zpos_P_of_succ_nat in Hg.
    exists p. split; [reflexivity|]. split; [rewrite Hzp; f_equal; lia|]. split; [exact Hpc|].
    split; [exact He|].
    destruct (ci_walk _ _ _ Hi v _ Hv) as [_ Hw].
    destruct (walk_usable _ _ Hw) as [->|Hu]; [|exact Hu].
    rewrite (ci_start _ _ _ Hi) in Hv. injection Hv. lia.
Qed.

Lemma pred_chain_rpath n : forall v, score_get g v = Fin (Z.of_nat n) ->
  rpath v n (pred_chain P n v).
Proof.
  induction n as [|n IH]; intros v Hv.
  - destruct (chain_zero v Hv) as [-> _]. cbn.
    split; [exists []; auto|]. split; [exists []; reflexivity|]. cbn. auto.
  - destruct (chain_step v n Hv) as [p [Ep [Hp [_ Hs]]]].
    cbn [pred_chain]. replace (pred P v) with p by (unfold pred; rewrite Ep; reflexivity).
    destruct (IH p Hp) as [[l' [El Hl]] [[l'' El'] Hc]].
    split; [|split].
    + exists (pred_chain P n p). split; [reflexivity|]. rewrite El. cbn. lia.
    + exists (v :: l''). rewrite El'. reflexivity.
    + rewrite El in Hc |- *. cbn. split; [exact Hs|]. exact Hc.
Qed.

Lemma pred_list_props n : forall v, score_get g v = Fin (Z.of_nat n) ->
  NoDup (pred_list P n v) /\
  forall w, In w (pred_list P n v) ->
    map_get String.eqb P w <> None /\ exists m, (1 <= m <= n)%nat /\ score_get g w = Fin (Z.of_nat m).
Proof.
  induction n as [|n IH]; intros v Hv; cbn [pred_list].
  - split; [constructor|]. intros w [].
  - destruct (chain_step v n Hv) as [p [Ep [Hp _]]]. replace (pred P v) with p by (unfold pred; rewrite Ep; reflexivity).
    destruct (IH p Hp) as [Hnd Hall]. split.
    + constructor; [|exact Hnd]. intros Hin. destruct (Hall v Hin) as [_ [m [Hm Hg]]].
      rewrite Hv in Hg. injection Hg. lia.
    + intros w [<-|Hin].
      * split; [congruence|]. exists (S n). split; [lia|exact Hv].
      * destruct (Hall w Hin) as [Hd [m [Hm Hg]]]. split; [exact Hd|].
        exists m. split; [lia|exact Hg].
Qed.

Lemma pred_list_length n v : List.length (pred_list P n v) = n.
Proof. revert v; induction n; intros; cbn; auto. Qed.

Lemma chain_fuel n v : score_get g v = Fin (Z.of_nat n) -> (n <= List.length P)%nat.
Proof.
  intros Hv. destruct (pred_list_props n v Hv) as [Hnd Hall].
  rewrite <- (pred_list_length n v), <- (length_map fst P).
  apply NoDup_incl_length; [exact Hnd|]. intros w Hw.
  destruct (Hall w Hw) as [Hd _]. destruct (map_get String.eqb P w) as [p|] eqn:Ep; [|congruence].
  apply (map_get_In _ string_eqb_spec) in Ep. apply in_map_iff. exists (w, p). auto.
Qed.

Lemma reconstruct_heap n : forall v rp fuel, score_get g v = Fin (Z.of_nat n) -> (n < fuel)%nat ->
  Pathfinding.reconstruct_loop fuel P rp v = Some (rp ++ tl (pred_chain P n v)).
Proof.
  induction n as [|n IH]; intros v rp fuel Hv Hf; destruct fuel as [|fuel]; try lia; cbn.
  - destruct (chain_zero v Hv) as [_ ->]. rewrite app_nil_r.
    destruct (String.eqb v ""); reflexivity.
  - destruct (ci_walk _ _ _ Hi v _ Hv) as [_ Hw].
    destruct (String.eqb_spec v ""%string) as [E|_]; [exfalso; exact (walk_nonempty _ _ Hw E)|].
    destruct (chain_step v n Hv) as [p [Ep [Hp _]]]. rewrite Ep. replace (pred P v) with p by (unfold pred; rewrite Ep; reflexivity).
    destruct (ci_walk _ _ _ Hi p _ Hp) as [_ Hwp].
    destruct (String.eqb_spec p ""%string) as [E|_]; [exfalso; exact (walk_nonempty _ _ Hwp E)|].
    rewrite (IH p (rp ++ [p]) fuel Hp ltac:(lia)), <- app_assoc.
    destruct n; reflexivity.
Qed.


End Chain.

(** ** The heap search *)

Definition tentative (g : list (TileId * num)) (c : TileId) : num :=
  num_add (score_get g c) (Fin 1).

Lemma relax_heap_cases st c w :
  let st' := Pathfinding.relaxNeighbor G dest B c st w in
  Pathfinding.closedSet st' = Pathfinding.closedSet st /\
  ((Pathfinding.cameFrom st' = Pathfinding.cameFrom st /\
    Pathfinding.gScore st' = Pathfinding.gScore st /\ heap st' = heap st /\
    nbr_ok (Pathfinding.closedSet st) (Pathfinding.gScore st) c w) \/
   (~ In w (Pathfinding.closedSet st) /\ usable w /\
    num_leb (score_get (Pathfinding.gScore st) w) (tentative (Pathfinding.gScore st) c) = false /\
    Pathfinding.cameFrom st' = map_set String.eqb (Pathfinding.cameFrom st) w c /\
    Pathfinding.gScore st' =
      map_set String.eqb (Pathfinding.gScore st) w (tentative (Pathfinding.gScore st) c) /\
    heap st' = heap_push (heap st) w (num_add (tentative (Pathfinding.gScore st) c) (h w)))).
Proof.
  cbn zeta. unfold Pathfinding.relaxNeighbor, tentative, h.
  destruct st as [C P g hp]; cbn [Pathfinding.closedSet Pathfinding.cameFrom Pathfinding.gScore heap].
  destruct (set_has C w) eqn:Hc; cbn.
  { split; [reflexivity|]. left. repeat split. left. apply set_has_spec, Hc. }
  destruct (set_has B w) eqn:Hb; cbn.
  { split; [reflexivity|]. left. repeat split. right; left. intros [n [_ [_ Hb']]]. congruence. }
  destruct (node_get G w) as [nw|] eqn:En.
  2:{ split; [reflexivity|]. left. repeat split. right; left. intros [n [E _]]. congruence. }
  destruct (node_walkable nw) eqn:Ew; cbn.
  2:{ split; [reflexivity|]. left. repeat split. right; left. intros [n [E [Ew' _]]]. congruence. }
  destruct (num_leb (score_get g w) (num_add (score_get g c) (Fin 1))) eqn:Hl; cbn.
  { split; [reflexivity|]. left. repeat split. right; right. exact Hl. }
  split; [reflexivity|]. right. split; [apply set_has_false, Hc|]. split; [exists nw; auto|].
  repeat split; auto.
Qed.

Lemma num_add_mono z z' x y : z' <= z ->
  num_leb (num_add (Fin z) x) y = true -> num_leb (num_add (Fin z') x) y = true.
Proof.
  intros Hz. destruct x as [x|], y as [y|]; cbn; try discriminate; try reflexivity.
  rewrite !Z.leb_le. lia.
Qed.

Hypothesis G_nodup : NoDup (map fst G).

Definition heap_inv_core (st : SearchState) : Prop :=
  core_inv (Pathfinding.closedSet st) (Pathfinding.cameFrom st) (Pathfinding.gScore st) /\
  HeapProofs.heap_ordered (heap st) /\
  (forall v z, score_get (Pathfinding.gScore st) v = Fin z -> ~ In v (Pathfinding.closedSet st) ->
     In (mkEntry v (num_add (Fin z) (h v))) (heap st)) /\
  (forall e, In e (heap st) -> exists z, score_get (Pathfinding.gScore st) (entry_id e) = Fin z /\
     num_leb (num_add (Fin z) (h (entry_id e))) (score e) = true).

Definition closed_ok_except (C : list TileId) (g : list (TileId * num)) (c : TileId) : Prop :=
  forall u w, In u C -> u <> c -> edge u w -> nbr_ok C g u w.

Lemma relax_heap_inv st c w :
  heap_inv_core st -> In c (Pathfinding.closedSet st) -> edge c w ->
  closed_ok_except (Pathfinding.closedSet st) (Pathfinding.gScore st) c ->
  let st' := Pathfinding.relaxNeighbor G dest B c st w in
  heap_inv_core st' /\ Pathfinding.closedSet st' = Pathfinding.closedSet st /\
  closed_ok_except (Pathfinding.closedSet st') (Pathfinding.gScore st') c /\
  nbr_ok (Pathfinding.closedSet st') (Pathfinding.gScore st') c w /\
  (forall v, In v (Pathfinding.closedSet st) ->
     score_get (Pathfinding.gScore st') v = score_get (Pathfinding.gScore st) v) /\
  (forall v, num_leb (score_get (Pathfinding.gScore st') v)
                     (score_get (Pathfinding.gScore st) v) = true) /\
  (List.length (heap st') <= S (List.length (heap st)))%nat.
Proof.
  intros [Hi [Ho [E1 E2]]] Hc He Hex st'.
  destruct (relax_heap_cases st c w) as [HC Hcases]. fold st' in HC, Hcases.
  assert (Hrc : relax_core (Pathfinding.closedSet st) (Pathfinding.cameFrom st)
                  (Pathfinding.gScore st) c w (Pathfinding.cameFrom st') (Pathfinding.gScore st')).
  { destruct Hcases as [[H1 [H2 [_ H4]]] | [H1 [H2 [H3 [H4 [H5 _]]]]]]; [left|right]; auto. }
  destruct (relax_core_inv _ _ _ c w _ _ Hi Hc He Hrc) as [Hi' [Hok [Hcl Hmono]]].
  rewrite HC. split; [|split; [reflexivity|]].
  - split; [rewrite HC; exact Hi'|].
    destruct Hcases as [[_ [Hg [Hh _]]] | [Hwc [Hwu [Hlt [_ [Hg Hh]]]]]].
    + rewrite Hh, Hg, HC. auto.
    + destruct (HeapProofs.heap_push_spec (heap st) w
                  (num_add (tentative (Pathfinding.gScore st) c) (h w)) Ho) as [Ho' Hp].
      rewrite Hh, HC. split; [exact Ho'|]. split.
      * intros v z Hv Hvc. apply (Permutation_in _ (Permutation_sym Hp)). apply in_or_app.
        rewrite Hg, score_get_set in Hv. destruct (String.eqb_spec v w) as [->|Hvw].
        -- right; left. rewrite <- Hv. reflexivity.
        -- left. apply E1; assumption.
      * intros e He'. apply (Permutation_in _ Hp), in_app_or in He' as [He'|[<-|[]]].
        -- destruct (E2 e He') as [z [Hz Hle]].
           pose proof (Hmono (entry_id e)) as Hm. rewrite Hz in Hm.
           apply num_leb_fin_inv in Hm as [z' [Hz' Hzz]].
           exists z'. split; [exact Hz'|]. exact (num_add_mono z z' _ _ Hzz Hle).
        -- cbn. rewrite Hg, score_get_set, String.eqb_refl.
           destruct (ci_closed _ _ _ Hi c Hc) as [zc [Hzc _]].
           unfold tentative. rewrite Hzc. eexists; split; [reflexivity|]. apply num_leb_refl.
  - split; [|split; [exact Hok|split; [exact Hcl|split; [exact Hmono|]]]].
    + intros u v Hu Huc Hev. apply nbr_ok_mono with (Pathfinding.gScore st).
      * exact (Hex u v Hu Huc Hev).
      * exact (Hcl u Hu).
      * exact Hmono.
    + destruct Hcases as [[_ [_ [Hh _]]] | [_ [_ [_ [_ [_ Hh]]]]]]; rewrite Hh; [lia|].
      destruct (HeapProofs.heap_push_spec (heap st) w
                  (num_add (tentative (Pathfinding.gScore st) c) (h w)) Ho) as [_ Hp].
      rewrite (Permutation_length Hp), length_app. cbn. lia.
Qed.

Lemma relax_fold_heap c nc l : forall st,
  heap_inv_core st -> In c (Pathfinding.closedSet st) -> node_get G c = Some nc ->
  incl l (neighbors nc) ->
  closed_ok_except (Pathfinding.closedSet st) (Pathfinding.gScore st) c ->
  let st' := fold_left (Pathfinding.relaxNeighbor G dest B c) l st in
  heap_inv_core st' /\ Pathfinding.closedSet st' = Pathfinding.closedSet st /\
  closed_ok_except (Pathfinding.closedSet st') (Pathfinding.gScore st') c /\
  (forall w, In w l -> nbr_ok (Pathfinding.closedSet st') (Pathfinding.gScore st') c w) /\
  (forall v, In v (Pathfinding.closedSet st) ->
     score_get (Pathfinding.gScore st') v = score_get (Pathfinding.gScore st) v) /\
  (forall v, num_leb (score_get (Pathfinding.gScore st') v)
                     (score_get (Pathfinding.gScore st) v) = true) /\
  (List.length (heap st') <= List.length (heap st) + List.length l)%nat.
Proof.
  induction l as [|w l IH]; intros st Hi Hc Hn Hl Hex; cbn.
  - split; [exact Hi|]. split; [reflexivity|]. split; [exact Hex|]. split; [intros _ []|].
    split; [reflexivity|]. split; [intros; apply num_leb_refl|lia].
  - assert (He : edge c w) by (exists nc; split; [exact Hn|apply Hl; left; reflexivity]).
    destruct (relax_heap_inv st c w Hi Hc He Hex)
      as [Hi1 [HC1 [Hex1 [Hok1 [Hcl1 [Hm1 Hlen1]]]]]].
    set (st1 := Pathfinding.relaxNeighbor G dest B c st w) in *.
    assert (Hc1 : In c (Pathfinding.closedSet st1)) by (rewrite HC1; exact Hc).
    destruct (IH st1 Hi1 Hc1 Hn (fun x Hx => Hl x (or_intror Hx)) Hex1)
      as [Hi2 [HC2 [Hex2 [Hok2 [Hcl2 [Hm2 Hlen2]]]]]].
    set (st2 := fold_left (Pathfinding.relaxNeighbor G dest B c) l st1) in *.
    split; [exact Hi2|]. split; [congruence|]. split; [exact Hex2|]. split; [|split; [|split]].
    + intros x [<-|Hx]; [|exact (Hok2 x Hx)].
      rewrite HC2. apply nbr_ok_mono with (Pathfinding.gScore st1).
      * exact Hok1.
      * apply Hcl2. exact Hc1.
      * exact Hm2.
    + intros v Hv. rewrite Hcl2 by (rewrite HC1; exact Hv). apply Hcl1, Hv.
    + intros v. exact (num_leb_trans _ _ _ (Hm2 v) (Hm1 v)).
    + cbn [List.length]. lia.
Qed.

(** The neighbour links of the nodes of [m] not yet closed. *)
Definition links (C : list TileId) (m : NodesById) : nat :=
  fold_right (fun '(k, n) acc =>
                if set_has C k then acc else (List.length (neighbors n) + acc)%nat) 0%nat m.

Definition open_links (C : list TileId) : nat := links C G.

Lemma open_links_nil :
  S (S (open_links [])) = search_fuel G.
Proof.
  unfold open_links, links, search_fuel. reflexivity.
Qed.

Lemma map_get_cons {V} (m : list (TileId * V)) k n u :
  map_get String.eqb ((k, n) :: m) u = if String.eqb k u then Some n else map_get String.eqb m u.
Proof. unfold map_get. cbn. destruct (String.eqb k u); reflexivity. Qed.

Lemma set_has_snoc C u k : set_has (C ++ [u]) k = set_has C k || String.eqb k u.
Proof.
  unfold set_has. rewrite existsb_app. cbn. rewrite orb_false_r. reflexivity.
Qed.

Lemma set_add_fresh (C : list TileId) (u : TileId) : ~ In u C -> set_add C u = C ++ [u].
Proof. intros Hu. unfold set_add. apply set_has_false in Hu. rewrite Hu. reflexivity. Qed.

Lemma links_notin C u m : ~ In u (map fst m) -> links (C ++ [u]) m = links C m.
Proof.
  unfold links. induction m as [|[k n] m IH]; cbn; intros Hu; [reflexivity|].
  rewrite set_has_snoc. destruct (String.eqb_spec k u) as [->|_]; [exfalso; auto|].
  rewrite orb_false_r, IH by auto. reflexivity.
Qed.

Lemma links_close C u m : NoDup (map fst m) -> ~ In u C ->
  (links (C ++ [u]) m +
   match map_get String.eqb m u with Some n => List.length (neighbors n) | None => 0 end)%nat
  = links C m.
Proof.
  intros Hnd Hu. induction m as [|[k n] m IH]; [reflexivity|].
  inversion Hnd as [|? ? Hk Hnd']; subst. rewrite map_get_cons.
  unfold links at 1 2. cbn [fold_right]. fold (links (C ++ [u]) m) (links C m).
  rewrite set_has_snoc. destruct (String.eqb_spec k u) as [->|Hku].
  - rewrite orb_true_r, links_notin by exact Hk.
    apply set_has_false in Hu. rewrite Hu. lia.
  - rewrite orb_false_r. rewrite <- (IH Hnd'). destruct (set_has C k); lia.
Qed.

(** ** What the searches return *)

Definition result_ok (r : option (list TileId)) : Prop :=
  match r with
  | Some p => route_ok gstep start dest p /\
              forall q, route_ok gstep start dest q -> (List.length p <= List.length q)%nat
  | None => forall k, ~ walk dest k
  end.

Lemma rpath_route v k l : rpath v k l -> route_ok gstep start v (rev l) /\ List.length (rev l) = S k.
Proof.
  intros [[l' [-> Hl]] [[l'' El] Hc]]. split; [split; [|split]|].
  - rewrite El, rev_app_distr. cbn. eexists; reflexivity.
  - cbn. eexists; reflexivity.
  - apply chain_ok_rev. exact Hc.
  - rewrite length_rev. cbn. lia.
Qed.

Lemma route_length_pos {A} (R : A -> A -> Prop) s d q : route_ok R s d q -> (1 <= List.length q)%nat.
Proof. intros [[m ->] _]. cbn. lia. Qed.

Lemma found_dest_ok C P g n : core_inv C P g -> score_get g dest = Fin (Z.of_nat n) ->
  (forall k, walk dest k -> Z.of_nat n <= Z.of_nat k) ->
  result_ok (Some (rev (pred_chain P n dest))).
Proof.
  intros Hi Hn Hmin. destruct (rpath_route _ _ _ (pred_chain_rpath C P g Hi n dest Hn)) as [Hr Hl].
  split; [exact Hr|]. intros q Hq. rewrite Hl.
  pose proof (Hmin _ (route_walk dest q Hq)). pose proof (route_length_pos _ _ _ _ Hq). lia.
Qed.

Lemma reconstruct_heap_ok C P g n : core_inv C P g -> score_get g dest = Fin (Z.of_nat n) ->
  Pathfinding.reconstructPath P dest = Some (rev (pred_chain P n dest)).
Proof.
  intros Hi Hn. unfold Pathfinding.reconstructPath.
  rewrite (reconstruct_heap C P g Hi n dest [dest] _ Hn) by (pose proof (chain_fuel C P g Hi n dest Hn); lia).
  cbn. destruct n; reflexivity.
Qed.


(** A node of least [g + h] among the open ones has an optimal [g]. *)
Lemma pick_min C P g u zu : core_inv C P g -> closed_ok C g -> score_get g u = Fin zu ->
  (forall x zx, score_get g x = Fin zx -> ~ In x C ->
     num_leb (num_add (Fin zu) (h u)) (num_add (Fin zx) (h x)) = true) ->
  forall k, walk u k -> ~ In u C -> zu <= Z.of_nat k.
Proof.
  intros Hi Hcl Hu Hmin k Hw Huc.
  destruct (frontier _ _ _ Hi Hcl u k Hw Huc) as [x [zx [hx [hu [Hx [Hxc [Hhx [Hhu Hle]]]]]]]].
  specialize (Hmin x zx Hx Hxc). rewrite Hhx, Hhu in Hmin. cbn in Hmin.
  apply Z.leb_le in Hmin. lia.
Qed.

Lemma core_close C P g u zu : core_inv C P g -> ~ In u C -> u <> dest ->
  score_get g u = Fin zu -> (forall k, walk u k -> zu <= Z.of_nat k) ->
  core_inv (C ++ [u]) P g.
Proof.
  intros Hi Huc Hud Hu Hmin. constructor.
  - exact (ci_start _ _ _ Hi).
  - exact (ci_walk _ _ _ Hi).
  - intros v Hv. apply in_app_or in Hv as [Hv|[<-|[]]]; [exact (ci_closed _ _ _ Hi v Hv)|].
    exists zu. auto.
  - intros v p Hp. destruct (ci_pred _ _ _ Hi v p Hp) as [H1 H2]. split; [apply in_or_app; auto|].
    exact H2.
  - exact (ci_pred_def _ _ _ Hi).
  - intros Hd. apply in_app_or in Hd as [Hd|[Hd|[]]]; [exact (ci_dest _ _ _ Hi Hd)|congruence].
  - apply NoDup_app; [exact (ci_nodup _ _ _ Hi)|repeat constructor; intros []|].
    intros x Hx [<-|[]]. contradiction.
Qed.

Lemma nbr_ok_grow C g u w x : nbr_ok C g u w -> nbr_ok (C ++ [x]) g u w.
Proof. intros [H|H]; [left; apply in_or_app; auto|right; exact H]. Qed.

Definition heap_inv (st : SearchState) : Prop :=
  heap_inv_core st /\ closed_ok (Pathfinding.closedSet st) (Pathfinding.gScore st).

Lemma search_loop_heap fuel : forall st,
  heap_inv st -> (List.length (heap st) + open_links (Pathfinding.closedSet st) < fuel)%nat ->
  exists r, Pathfinding.search_loop fuel G dest B st = Done r /\ result_ok r.
Proof.
  induction fuel as [|fuel IH]; intros [C P g hp] [[Hi [Ho [E1 E2]]] Hcl] Hm; [lia|].
  cbn [Pathfinding.search_loop Pathfinding.closedSet Pathfinding.cameFrom Pathfinding.gScore heap]
    in *.
  destruct hp as [|top t].
  - exists None. split; [reflexivity|]. intros k Hw.
    destruct (frontier _ _ _ Hi Hcl dest k Hw (ci_dest _ _ _ Hi)) as [x [zx [hx [hw [Hx [Hxc _]]]]]].
    exact (E1 x zx Hx Hxc).
  - destruct (HeapProofs.heap_pop_spec (top :: t) top t Ho eq_refl) as [Ho' [Hr [Hp Hmin]]].
    destruct (heap_pop (top :: t)) as [h' r] eqn:Ep. cbn [fst snd] in Ho', Hr, Hp. subst r.
    apply Permutation_cons_inv in Hp as Hpt.
    destruct (E2 top (or_introl eq_refl)) as [zu [Hzu Hfu]].
    set (u := entry_id top) in *.
    destruct (ci_walk _ _ _ Hi u zu Hzu) as [Hzu0 Hwu].
    assert (Hopt : forall k, walk u k -> ~ In u C -> zu <= Z.of_nat k).
    { apply (pick_min C P g u zu Hi Hcl Hzu). intros x zx Hx Hxc.
      eapply num_leb_trans; [exact Hfu|].
      apply (Hmin (mkEntry x (num_add (Fin zx) (h x)))), E1; assumption. }
    destruct (String.eqb_spec u ""%string) as [E|_]; [exfalso; exact (walk_nonempty _ _ Hwu E)|].
    destruct (String.eqb_spec u dest) as [Hud|Hud].
    + assert (Hn : score_get g dest = Fin (Z.of_nat (Z.to_nat zu))).
      { rewrite <- Hud, Hzu. f_equal. lia. }
      rewrite Hud, (reconstruct_heap_ok C P g _ Hi Hn).
      eexists; split; [reflexivity|]. apply (found_dest_ok C P g _ Hi Hn).
      intros k Hk. rewrite Z2Nat.id by lia. apply Hopt; [rewrite Hud; exact Hk|].
      rewrite Hud. exact (ci_dest _ _ _ Hi).
    + assert (Hh' : forall e, In e h' -> In e (top :: t)).
      { intros e He. apply (Permutation_in _ (Permutation_sym Hp)). right; exact He. }
      destruct (set_has C u) eqn:Hcu.
      * apply IH.
        -- split; [split; [exact Hi|split; [exact Ho'|split]]|exact Hcl].
           ++ intros v z Hv Hvc. apply (Permutation_in _ Hpt).
              destruct (E1 v z Hv Hvc) as [He|He]; [|exact He].
              exfalso. apply set_has_spec in Hcu. apply Hvc. replace v with u; [exact Hcu|].
              unfold u. rewrite He. reflexivity.
           ++ intros e He. apply E2, Hh', He.
        -- cbn. rewrite <- (Permutation_length Hpt). cbn in Hm. lia.
      * apply set_has_false in Hcu as Hnu. rewrite (set_add_fresh C u Hnu).
        assert (Hi1 : core_inv (C ++ [u]) P g).
        { apply (core_close C P g u zu Hi Hnu Hud Hzu). intros k Hk. apply Hopt; assumption. }
        assert (Hcore1 : heap_inv_core (mkSearch (C ++ [u]) P g h')).
        { split; [exact Hi1|split; [exact Ho'|split]]; cbn.
          - intros v z Hv Hvc. apply (Permutation_in _ Hpt).
            destruct (E1 v z Hv (fun H => Hvc (in_or_app _ _ _ (or_introl H)))) as [He|He];
              [|exact He].
            exfalso. apply Hvc. apply in_or_app. right. left. unfold u. rewrite He. reflexivity.
          - intros e He. apply E2, Hh', He. }
        assert (Hex1 : closed_ok_except (C ++ [u]) g u).
        { intros u' w Hu' Hne Hew. apply in_app_or in Hu' as [Hu'|[<-|[]]]; [|congruence].
          apply nbr_ok_grow, Hcl; assumption. }
        pose proof (links_close C u G G_nodup Hnu) as Hlinks. fold (open_links C) in Hlinks.
        unfold open_links in Hm. 
        destruct (node_get G u) as [nc|] eqn:Enc; unfold node_get in Enc; rewrite Enc in Hlinks.
        -- destruct (relax_fold_heap u nc (neighbors nc) (mkSearch (C ++ [u]) P g h') Hcore1
                       (in_or_app _ _ _ (or_intror (in_eq u []))) Enc (incl_refl _) Hex1)
             as [Hi2 [HC2 [Hex2 [Hok2 [_ [_ Hlen2]]]]]].
           apply IH.
           ++ split; [exact Hi2|]. intros u' w Hu' Hew.
              destruct (String.eqb_spec u' u) as [->|Hne]; [|exact (Hex2 u' w Hu' Hne Hew)].
              destruct Hew as [n' [En' Hin]]. unfold node_get in En'; rewrite Enc in En'. injection En' as <-.
              apply Hok2, Hin.
           ++ match goal with |- (_ + open_links ?X < _)%nat =>
                assert (Hol : open_links X = links (C ++ [u]) G)
                  by (unfold open_links; f_equal; exact HC2) end.
              rewrite Hol. cbn in Hlen2. rewrite <- (Permutation_length Hpt) in Hlen2.
              match goal with |- (List.length (heap ?X) + _ < _)%nat =>
                assert (Hl2 : (List.length (heap X) <= List.length t + List.length (neighbors nc))%nat)
                  by exact Hlen2 end.
              unfold open_links in Hlinks. cbn in Hm. lia.
        -- apply IH.
           ++ split; [exact Hcore1|]. intros u' w Hu' Hew.
              destruct (String.eqb_spec u' u) as [->|Hne]; [|exact (Hex1 u' w Hu' Hne Hew)].
              destruct Hew as [n' [En' _]]. unfold node_get in En'. congruence.
           ++ cbn. rewrite <- (Permutation_length Hpt). unfold open_links in Hlinks |- *. cbn in Hm. lia.
Qed.

Lemma score_get_single v z : score_get [(start, Fin 0)] v = Fin z -> v = start /\ z = 0.
Proof.
  unfold score_get, map_get. cbn. destruct (String.eqb_spec start v) as [->|_]; [|discriminate].
  intros E; injection E as <-. auto.
Qed.

Lemma core_init : core_inv [] [] [(start, Fin 0)].
Proof.
  constructor.
  - unfold score_get, map_get. cbn. rewrite String.eqb_refl. reflexivity.
  - intros v z Hv. apply score_get_single in Hv as [-> ->]. split; [lia|constructor].
  - intros u [].
  - intros v p Hp. discriminate.
  - intros v z Hv. apply score_get_single in Hv as [-> _]. auto.
  - intros [].
  - constructor.
Qed.

Lemma num_add_zero x : num_add (Fin 0) x = x.
Proof. destruct x; reflexivity. Qed.

(** The heap search returns a shortest route when there is one, and
    [None] only when there is none. *)
Lemma findShortestPath_heap_ok : result_ok (Pathfinding.findShortestPath G start dest B).
Proof.
  unfold Pathfinding.findShortestPath.
  set (st0 := mkSearch [] [] [(start, Fin 0)] (heap_push [] start (heuristicDistance G start dest))).
  assert (Hinv : heap_inv st0).
  { split; [split; [exact core_init|split; [|split]]|intros u w []]; cbn.
    - intros i Hi. cbn in Hi. lia.
    - intros v z Hv _. apply score_get_single in Hv as [-> ->]. left.
      unfold h. destruct (heuristicDistance G start dest); reflexivity.
    - intros e [<-|[]]. exists 0. cbn. split; [exact (ci_start _ _ _ core_init)|].
      unfold h. destruct (heuristicDistance G start dest); cbn; [apply Z.leb_refl|reflexivity]. }
  destruct (search_loop_heap (search_fuel G) st0 Hinv) as [r [Er Hr]].
  - rewrite <- open_links_nil. cbn. lia.
  - rewrite Er. exact Hr.
Qed.

(** ** The linear-scan search *)














End Consistent.
End Graph.

(** ** The graph built by [createNodesById] *)

Lemma fold_map_set_get {K V A} (eqb : K -> K -> bool) (eqb_spec : forall a b, eqb a b = true <-> a = b)
  (k : A -> K) (f : A -> V) l : forall m0 q,
  map_get eqb (fold_left (fun m a => map_set eqb m (k a) (f a)) l m0) q =
  match find (fun a => eqb (k a) q) (rev l) with Some a => Some (f a) | None => map_get eqb m0 q end.
Proof.
  induction l as [|a l IH]; intros m0 q; cbn; [reflexivity|].
  rewrite IH, find_app'. cbn. destruct (find _ (rev l)) as [a'|]; [reflexivity|].
  rewrite (map_get_set eqb eqb_spec), (eqb_sym' eqb eqb_spec q (k a)).
  destruct (eqb (k a) q); reflexivity.
Qed.

Lemma fold_map_set_nodup {K V A} (eqb : K -> K -> bool) (eqb_spec : forall a b, eqb a b = true <-> a = b)
  (k : A -> K) (f : A -> V) l : forall m0, NoDup (map fst m0) ->
  NoDup (map fst (fold_left (fun m a => map_set eqb m (k a) (f a)) l m0)).
Proof.
  induction l as [|a l IH]; intros m0 Hm; cbn; [exact Hm|].
  apply IH, (map_set_nodup eqb eqb_spec), Hm.
Qed.

Lemma coord_eqb_spec a b : coord_eqb a b = true <-> a = b.
Proof.
  destruct a as [x y], b as [x' y']. unfold coord_eqb. cbn.
  rewrite andb_true_iff, !Z.eqb_eq. split; [intros [-> ->]; reflexivity|].
  intros E; injection E as -> ->. auto.
Qed.

Definition tile_key (tile : Tile) : Z * Z :=
  toCoordinateKey (coord_x (coordinate tile)) (coord_y (coordinate tile)).

(** The [coordinatesToId] map of [createNodesById]. *)
Definition coordinatesToId (tiles : list Tile) : list ((Z * Z) * TileId) :=
  fold_left (fun m tile => map_set coord_eqb m (tile_key tile) (tile_id tile)) tiles [].

(** The node [createNodesById] makes for a tile. *)
Definition node_of (tiles : list Tile) (tile : Tile) : PathfindingNode :=
  let cx := coord_x (coordinate tile) in
  let cy := coord_y (coordinate tile) in
  let m := coordinatesToId tiles in
  mkNode (tile_id tile) cx cy (walkable tile)
    (filter_defined
       [map_get coord_eqb m (toCoordinateKey (cx + 1) cy);
        map_get coord_eqb m (toCoordinateKey (cx - 1) cy);
        map_get coord_eqb m (toCoordinateKey cx (cy + 1));
        map_get coord_eqb m (toCoordinateKey cx (cy - 1))]).

Lemma createNodesById_fold tiles :
  createNodesById tiles =
  fold_left (fun m tile => map_set String.eqb m (tile_id tile) (node_of tiles tile)) tiles [].
Proof. reflexivity. Qed.

Lemma node_get_create tiles v :
  node_get (createNodesById tiles) v =
  match find (fun t => String.eqb (tile_id t) v) (rev tiles) with
  | Some t => Some (node_of tiles t) | None => None end.
Proof.
  unfold node_get. rewrite createNodesById_fold.
  rewrite (fold_map_set_get String.eqb string_eqb_spec tile_id (node_of tiles)). reflexivity.
Qed.

Lemma coordinatesToId_get tiles c :
  map_get coord_eqb (coordinatesToId tiles) c =
  match find (fun t => coord_eqb (tile_key t) c) (rev tiles) with
  | Some t => Some (tile_id t) | None => None end.
Proof.
  unfold coordinatesToId.
  rewrite (fold_map_set_get coord_eqb coord_eqb_spec tile_key tile_id). reflexivity.
Qed.

Lemma createNodesById_nodup tiles : NoDup (map fst (createNodesById tiles)).
Proof.
  rewrite createNodesById_fold. apply (fold_map_set_nodup String.eqb string_eqb_spec).
  constructor.
Qed.

Lemma In_filter_defined {A} (l : list (option A)) v : In v (filter_defined l) <-> In (Some v) l.
Proof. induction l as [|[a|] l IH]; cbn; [tauto| |]; rewrite IH; intuition congruence. Qed.

Lemma nodup_map_inj {A C} (f : A -> C) l a b :
  NoDup (map f l) -> In a l -> In b l -> f a = f b -> a = b.
Proof.
  induction l as [|x l IH]; cbn; [tauto|]. intros Hnd Ha Hb E.
  inversion Hnd as [|? ? Hx Hnd']; subst.
  destruct Ha as [<-|Ha], Hb as [<-|Hb]; auto.
  - exfalso. apply Hx. rewrite E. apply in_map, Hb.
  - exfalso. apply Hx. rewrite <- E. apply in_map, Ha.
Qed.

Lemma find_rev_some {A} (f : A -> bool) l a : find f (rev l) = Some a -> In a l /\ f a = true.
Proof. intros E. apply find_some in E as [Hin Hf]. rewrite <- in_rev in Hin. auto. Qed.

Lemma find_rev_in {A} (f : A -> bool) l a :
  In a l -> f a = true -> exists b, find f (rev l) = Some b.
Proof.
  intros Hin Hf. destruct (find f (rev l)) eqn:E; [eauto|]. exfalso.
  rewrite (find_none _ _ E a (proj1 (in_rev l a) Hin)) in Hf. discriminate.
Qed.

Lemma tile_key_eq t : tile_key t = (coord_x (coordinate t), coord_y (coordinate t)).
Proof. reflexivity. Qed.

(** Tile-level notions: the grid as the tiles describe it. *)
Definition manhattan (a b : Tile) : Z :=
  Z.abs (coord_x (coordinate a) - coord_x (coordinate b)) +
  Z.abs (coord_y (coordinate a) - coord_y (coordinate b)).

(** [u] and [v] are ids of 4-adjacent tiles. *)
Definition adjacent (tiles : list Tile) (u v : TileId) : Prop :=
  exists tu tv, In tu tiles /\ In tv tiles /\ tile_id tu = u /\ tile_id tv = v /\
                manhattan tu tv = 1.

(** [v] is the id of a walkable tile that is not blocked. *)
Definition open_tile (tiles : list Tile) (blocked : list TileId) (v : TileId) : Prop :=
  exists t, In t tiles /\ tile_id t = v /\ walkable t = true /\ ~ In v blocked.

(** A move between 4-adjacent walkable unblocked tiles. *)
Definition tile_step (tiles : list Tile) (blocked : list TileId) (u v : TileId) : Prop :=
  adjacent tiles u v /\ open_tile tiles blocked u /\ open_tile tiles blocked v.

Section Tiles.
Variable tiles : list Tile.

Lemma node_get_tile v n : node_get (createNodesById tiles) v = Some n ->
  exists t, In t tiles /\ tile_id t = v /\ n = node_of tiles t.
Proof.
  rewrite node_get_create. destruct (find _ (rev tiles)) as [t|] eqn:E; [|discriminate].
  intros Hn; injection Hn as <-. apply find_rev_some in E as [Hin Hf].
  apply String.eqb_eq in Hf. eauto.
Qed.

Lemma coord_tile c v : map_get coord_eqb (coordinatesToId tiles) c = Some v ->
  exists t, In t tiles /\ tile_key t = c /\ tile_id t = v.
Proof.
  rewrite coordinatesToId_get. destruct (find _ (rev tiles)) as [t|] eqn:E; [|discriminate].
  intros Hn; injection Hn as <-. apply find_rev_some in E as [Hin Hf].
  apply coord_eqb_spec in Hf. eauto.
Qed.

Lemma neighbor_tile u v nu : node_get (createNodesById tiles) u = Some nu -> In v (neighbors nu) ->
  exists tu tv, In tu tiles /\ In tv tiles /\ tile_id tu = u /\ tile_id tv = v /\
    nu = node_of tiles tu /\ manhattan tu tv = 1.
Proof.
  intros Hu Hv. apply node_get_tile in Hu as [tu [Htu [Eu ->]]].
  unfold node_of in Hv. cbn [neighbors] in Hv. apply In_filter_defined in Hv.
  assert (Hc : exists c, map_get coord_eqb (coordinatesToId tiles) c = Some v /\
    Z.abs (coord_x (coordinate tu) - fst c) + Z.abs (coord_y (coordinate tu) - snd c) = 1).
  { destruct Hv as [Hv|[Hv|[Hv|[Hv|[]]]]]; eexists; (split; [exact Hv|]);
      cbn; lia. }
  destruct Hc as [c [Hc Hd]]. apply coord_tile in Hc as [tv [Htv [Ec Ev]]].
  exists tu, tv. repeat split; auto. unfold manhattan.
  rewrite tile_key_eq in Ec. subst c. exact Hd.
Qed.

Hypothesis ids_nodup : NoDup (map tile_id tiles).

Lemma tile_node t : In t tiles ->
  node_get (createNodesById tiles) (tile_id t) = Some (node_of tiles t).
Proof.
  intros Hin. rewrite node_get_create.
  destruct (find_rev_in (fun t' => String.eqb (tile_id t') (tile_id t)) tiles t Hin
              (String.eqb_refl _)) as [t' E].
  rewrite E. apply find_rev_some in E as [Hin' Hf]. apply String.eqb_eq in Hf.
  rewrite (nodup_map_inj tile_id tiles t' t ids_nodup Hin' Hin Hf). reflexivity.
Qed.

Lemma create_unit u v nu nv :
  node_get (createNodesById tiles) u = Some nu -> In v (neighbors nu) ->
  node_get (createNodesById tiles) v = Some nv ->
  Z.abs (node_x nu - node_x nv) + Z.abs (node_y nu - node_y nv) <= 1.
Proof.
  intros Hu Hv Hnv.
  destruct (neighbor_tile u v nu Hu Hv) as (tu & tv & Htu & Htv & Eu & Ev & -> & Hd).
  apply node_get_tile in Hnv as [tv' [Htv' [Ev' ->]]].
  rewrite <- Ev' in Ev. rewrite (nodup_map_inj tile_id tiles tv tv' ids_nodup Htv Htv' Ev) in Hd.
  unfold manhattan in Hd. cbn. lia.
Qed.

Lemma usable_open_tile (bl : list TileId) v :
  usable (createNodesById tiles) (set_of_list bl) v <-> open_tile tiles bl v.
Proof.
  split.
  - intros [n [Hn [Hw Hb]]]. apply node_get_tile in Hn as [t [Ht [Ev ->]]].
    exists t. repeat split; auto.
    intros Hin. apply set_has_false in Hb. apply Hb, set_of_list_In, Hin.
  - intros [t [Ht [<- [Hw Hb]]]]. exists (node_of tiles t). repeat split.
    + apply tile_node, Ht.
    + exact Hw.
    + apply set_has_false. rewrite set_of_list_In. exact Hb.
Qed.

Lemma edge_adjacent u v : edge (createNodesById tiles) u v -> adjacent tiles u v.
Proof.
  intros [nu [Hu Hv]].
  destruct (neighbor_tile u v nu Hu Hv) as (tu & tv & Htu & Htv & Eu & Ev & _ & Hd).
  exists tu, tv. auto.
Qed.

Hypothesis keys_nodup : NoDup (map tile_key tiles).

Lemma tile_coord t : In t tiles ->
  map_get coord_eqb (coordinatesToId tiles) (tile_key t) = Some (tile_id t).
Proof.
  intros Hin. rewrite coordinatesToId_get.
  destruct (find_rev_in (fun t' => coord_eqb (tile_key t') (tile_key t)) tiles t Hin
              (proj2 (coord_eqb_spec _ _) eq_refl)) as [t' E].
  rewrite E. apply find_rev_some in E as [Hin' Hf]. apply coord_eqb_spec in Hf.
  rewrite (nodup_map_inj tile_key tiles t' t keys_nodup Hin' Hin Hf). reflexivity.
Qed.

Lemma adjacent_edge u v : adjacent tiles u v -> edge (createNodesById tiles) u v.
Proof.
  intros (tu & tv & Htu & Htv & <- & <- & Hd).
  exists (node_of tiles tu). split; [apply tile_node, Htu|].
  unfold node_of. cbn [neighbors]. apply In_filter_defined.
  rewrite <- (tile_coord tv Htv), tile_key_eq.
  unfold manhattan in Hd.
  destruct (coordinate tv) as [xv yv] eqn:Ecv. cbn [coord_x coord_y] in *.
  unfold toCoordinateKey.
  destruct (Z.eq_dec xv (coord_x (coordinate tu) + 1)) as [->|];
    [assert (yv = coord_y (coordinate tu)) as -> by lia; cbn [In]; auto 6|].
  destruct (Z.eq_dec xv (coord_x (coordinate tu) - 1)) as [->|];
    [assert (yv = coord_y (coordinate tu)) as -> by lia; cbn [In]; auto 6|].
  assert (xv = coord_x (coordinate tu)) as -> by lia.
  destruct (Z.eq_dec yv (coord_y (coordinate tu) + 1)) as [->|]; [cbn [In]; auto 6|].
  assert (yv = coord_y (coordinate tu) - 1) as -> by lia. cbn [In]; auto 6.
Qed.

Lemma tile_step_gstep (bl : list TileId) u v : open_tile tiles bl u ->
  (tile_step tiles bl u v <-> gstep (createNodesById tiles) (set_of_list bl) u v).
Proof.
  intros Hu. unfold tile_step, gstep. rewrite usable_open_tile. split.
  - intros [Ha [_ Hv]]. split; [apply adjacent_edge, Ha | exact Hv].
  - intros [He Hv]. split; [apply edge_adjacent, He | auto].
Qed.

Lemma chain_tile_gstep (bl : list TileId) l : forall a, open_tile tiles bl a ->
  (chain_ok (tile_step tiles bl) (a :: l) <->
   chain_ok (gstep (createNodesById tiles) (set_of_list bl)) (a :: l)).
Proof.
  induction l as [|b l IH]; intros a Ha; [cbn; tauto|].
  change (chain_ok ?R (a :: b :: l)) with (R a b /\ chain_ok R (b :: l)).
  rewrite (tile_step_gstep bl a b Ha). split.
  - intros [Hs Hc]. split; [exact Hs|]. apply (IH b); [|exact Hc].
    apply usable_open_tile, (proj2 Hs).
  - intros [Hs Hc]. split; [exact Hs|]. apply (IH b); [|exact Hc].
    apply usable_open_tile, (proj2 Hs).
Qed.

Lemma route_tile_gstep (bl : list TileId) s d p : open_tile tiles bl s ->
  (route_ok (tile_step tiles bl) s d p <->
   route_ok (gstep (createNodesById tiles) (set_of_list bl)) s d p).
Proof.
  intros Hs. unfold route_ok. split.
  - intros [[m ->] [Hd Hc]]. split; [eauto|]. split; [exact Hd|].
    apply chain_tile_gstep; assumption.
  - intros [[m ->] [Hd Hc]]. split; [eauto|]. split; [exact Hd|].
    apply chain_tile_gstep; assumption.
Qed.

End Tiles.

(** ** Searches towards or from an id with no node *)











Lemma heap_unknown_start G s d B : node_get G s = None -> s <> d ->
  Pathfinding.findShortestPath G s d B = None.
Proof.
  intros Hs Hsd. unfold Pathfinding.findShortestPath, search_fuel.
  cbn [search_loop heap heap_push bubbleUp List.length app]. cbn [heap_pop removelast List.last fst snd entry_id].
  destruct (String.eqb s "") ; [reflexivity|].
  rewrite (proj2 (String.eqb_neq _ _) Hsd). cbn [set_has existsb closedSet]. rewrite Hs.
  reflexivity.
Qed.

Lemma linear_unknown_start G s d B : node_get G s = None -> s <> d ->
  PathfindingLinear.findShortestPath G s d B = None.
Proof.
  intros Hs Hsd. unfold PathfindingLinear.findShortestPath, PathfindingLinear.search_fuel.
  cbn [PathfindingLinear.search_loop PathfindingLinear.openSet PathfindingLinear.fScore].
  unfold PathfindingLinear.pickLowestScore, heuristicDistance. rewrite Hs.
  assert (E : score_get [(s, Inf)] s = Inf) by (unfold score_get, map_get; cbn; rewrite String.eqb_refl; reflexivity).
  cbn. rewrite E. reflexivity.
Qed.


Lemma create_nonempty tiles : (forall t, In t tiles -> tile_id t <> ""%string) ->
  forall v n, node_get (createNodesById tiles) v = Some n -> v <> ""%string.
Proof. intros Hne v n Hn. apply node_get_tile in Hn as [t [Ht [<- _]]]. exact (Hne t Ht). Qed.

(** A two-tile map. *)
Definition two_tiles : list Tile :=
  [mkTile "tile_0_0"%string (mkCoordinate 0 0) tile_path true;
   mkTile "tile_1_0"%string (mkCoordinate 1 0) tile_path true].



End SearchProofs.

(* ================================================================== *)
(** * The pathfinding service and its route cache *)

Module ServiceProofs.
Import Js JsProofs Pathfinding SearchProofs.

(** [maxCachedRoutes] after normalisation. *)
Definition norm_capacity (maxCachedRoutes : Z) : Z :=
  if 0 <? maxCachedRoutes then maxCachedRoutes else 1.

Definition blocked_list (request : PathfindingRequest) : list TileId :=
  match blockedTileIds request with Some l => l | None => [] end.

Lemma map_set_absent {V} (m : list (string * V)) k v :
  map_get String.eqb m k = None -> map_set String.eqb m k v = m ++ [(k, v)].
Proof.
  intros Hg. unfold map_set. rewrite (map_has_get String.eqb string_eqb_spec), Hg. reflexivity.
Qed.

Lemma map_get_None_keys {V} (m : list (string * V)) k :
  map_get String.eqb m k = None <-> ~ In k (map fst m).
Proof.
  rewrite (map_get_None String.eqb string_eqb_spec), in_map_iff. split.
  - intros H [[k' v] [Ek Hin]]. cbn in Ek. subst k'. exact (H v Hin).
  - intros H v Hin. apply H. exists (k, v). auto.
Qed.

Lemma map_delete_absent {V} (m : list (string * V)) k :
  ~ In k (map fst m) -> map_delete String.eqb m k = m.
Proof.
  unfold map_delete. induction m as [|[k' v] m IH]; cbn; [reflexivity|]. intros Hk.
  destruct (String.eqb k' k) eqn:E.
  - apply String.eqb_eq in E. subst. tauto.
  - cbn. rewrite IH; [reflexivity|tauto].
Qed.

Lemma map_delete_In {V} (m : list (string * V)) k e :
  In e (map_delete String.eqb m k) -> In e m /\ fst e <> k.
Proof.
  unfold map_delete. rewrite filter_In. destruct e as [k' v]. intros [Hin Hb].
  split; [exact Hin|]. cbn. intros ->. rewrite String.eqb_refl in Hb. discriminate.
Qed.

Lemma map_delete_length {V} (m : list (string * V)) k :
  In k (map fst m) -> (S (List.length (map_delete String.eqb m k)) <= List.length m)%nat.
Proof.
  unfold map_delete. induction m as [|[k' v] m IH]; cbn; [tauto|]. intros Hk.
  destruct (String.eqb k' k) eqn:E; cbn.
  - pose proof (filter_length_le (fun '(k'0, _) => negb (String.eqb k'0 k)) m). lia.
  - destruct Hk as [Hk|Hk]; [apply String.eqb_neq in E; contradiction|].
    specialize (IH Hk). lia.
Qed.

Lemma map_delete_nodup {V} (m : list (string * V)) k :
  NoDup (map fst m) -> NoDup (map fst (map_delete String.eqb m k)).
Proof.
  intros Hnd. rewrite (map_delete_keys String.eqb). apply NoDup_filter, Hnd.
Qed.

Lemma nodup_snoc {A} (l : list A) a : NoDup l -> ~ In a l -> NoDup (l ++ [a]).
Proof.
  intros Hnd Ha. apply NoDup_app; [exact Hnd|repeat constructor; intros []|].
  intros x Hx [<-|[]]. exact (Ha Hx).
Qed.

Lemma toCacheKey_nonempty cmp s d B : toCacheKey cmp s d B <> ""%string.
Proof. unfold toCacheKey. destruct s; discriminate. Qed.

Lemma node_id_create tiles v n : node_get (createNodesById tiles) v = Some n -> node_id n = v.
Proof. intros Hn. apply node_get_tile in Hn as [t [_ [<- ->]]]. reflexivity. Qed.

Section WithCompare.
Variable cmp : string -> string -> Z.

(** The key [findPath] uses for a request: the start and destination
    node ids are the request's ids. *)
Definition cache_key (request : PathfindingRequest) : string :=
  toCacheKey cmp (startTileId request) (destinationTileId request)
    (set_of_list (blocked_list request)).

(** The request's start and destination are nodes, walkable and not
    blocked. *)
Definition req_open (nodes : NodesById) (request : PathfindingRequest) : Prop :=
  exists ns nd, node_get nodes (startTileId request) = Some ns /\
    node_get nodes (destinationTileId request) = Some nd /\
    node_walkable ns = true /\ node_walkable nd = true /\
    set_has (set_of_list (blocked_list request)) (startTileId request) = false /\
    set_has (set_of_list (blocked_list request)) (destinationTileId request) = false.

(** The ways one call of [findPath] can go. *)
Inductive step_case (svc : PathfindingService) (request : PathfindingRequest)
  : PathfindingService -> PathfindingResult -> Prop :=
| sc_rejected r : ~ req_open (nodesById svc) request ->
    step_case svc request svc (unreachable r [])
| sc_same : req_open (nodesById svc) request ->
    startTileId request = destinationTileId request ->
    step_case svc request svc (found [startTileId request] false)
| sc_hit p : req_open (nodesById svc) request ->
    startTileId request <> destinationTileId request ->
    map_get String.eqb (routeCache svc) (cache_key request) = Some p ->
    step_case svc request
      (mkService (nodesById svc) (normalizedMaxCachedRoutes svc)
         (map_delete String.eqb (routeCache svc) (cache_key request) ++ [(cache_key request, p)]))
      (found p true)
| sc_no_route : req_open (nodesById svc) request ->
    startTileId request <> destinationTileId request ->
    map_get String.eqb (routeCache svc) (cache_key request) = None ->
    findShortestPath (nodesById svc) (startTileId request) (destinationTileId request)
      (set_of_list (blocked_list request)) = None ->
    step_case svc request svc (unreachable no_route [])
| sc_miss p : req_open (nodesById svc) request ->
    startTileId request <> destinationTileId request ->
    map_get String.eqb (routeCache svc) (cache_key request) = None ->
    findShortestPath (nodesById svc) (startTileId request) (destinationTileId request)
      (set_of_list (blocked_list request)) = Some p ->
    step_case svc request
      (mkService (nodesById svc) (normalizedMaxCachedRoutes svc)
         (if normalizedMaxCachedRoutes svc <? Z.of_nat (S (List.length (routeCache svc)))
          then tl (routeCache svc ++ [(cache_key request, p)])
          else routeCache svc ++ [(cache_key request, p)]))
      (found p false).

(** What every service reachable from [createPathfindingService tiles
    maxCachedRoutes] satisfies. *)
Definition svc_inv (tiles : list Tile) (maxCachedRoutes : Z) (svc : PathfindingService) : Prop :=
  nodesById svc = createNodesById tiles /\
  normalizedMaxCachedRoutes svc = norm_capacity maxCachedRoutes /\
  NoDup (map fst (routeCache svc)) /\
  (forall e, In e (routeCache svc) -> fst e <> ""%string) /\
  Z.of_nat (List.length (routeCache svc)) <= norm_capacity maxCachedRoutes.

Lemma norm_capacity_pos c : 1 <= norm_capacity c.
Proof. unfold norm_capacity. destruct (0 <? c) eqn:E; [apply Z.ltb_lt in E|]; lia. Qed.

Lemma evict_tl (cache : list (string * list TileId)) :
  NoDup (map fst cache) -> (forall e, In e cache -> fst e <> ""%string) ->
  evictOldest cache = tl cache.
Proof.
  intros Hnd Hne. destruct cache as [|[k v] rest]; [reflexivity|]. cbn.
  destruct (String.eqb k "") eqn:E.
  - apply String.eqb_eq in E. exfalso. exact (Hne (k, v) (or_introl eq_refl) E).
  - unfold map_delete. cbn. rewrite String.eqb_refl. cbn.
    inversion Hnd as [|? ? Hk _]; subst.
    exact (map_delete_absent rest k Hk).
Qed.

Lemma findPath_step tiles c svc request : svc_inv tiles c svc ->
  step_case svc request (fst (findPath cmp svc request)) (snd (findPath cmp svc request)).
Proof.
  intros (Hn & HN & Hnd & Hne & Hlen). unfold findPath.
  destruct (node_get (nodesById svc) (startTileId request)) as [ns|] eqn:Es.
  2:{ apply sc_rejected. intros (ns & nd & Es' & _). cbn [fst] in Es'. congruence. }
  destruct (node_get (nodesById svc) (destinationTileId request)) as [nd|] eqn:Ed.
  2:{ apply sc_rejected. intros (ns' & nd & _ & Ed' & _). cbn [fst] in Ed'. congruence. }
  assert (Ids : node_id ns = startTileId request /\ node_id nd = destinationTileId request).
  { rewrite Hn in Es, Ed. split; eapply node_id_create; eassumption. }
  destruct Ids as [-> ->].
  change (match blockedTileIds request return list string with Some l => l | None => @nil string end)
    with (blocked_list request).
  destruct (set_has (set_of_list (blocked_list request)) (startTileId request)
            || negb (node_walkable ns)) eqn:Bs.
  { apply sc_rejected. intros (ns' & nd' & Es' & Ed' & Ws & Wd & Xs & Xd).
    cbn [fst] in Es', Ed'. rewrite Es in Es'. injection Es' as <-. rewrite Xs, Ws in Bs. discriminate. }
  destruct (set_has (set_of_list (blocked_list request)) (destinationTileId request)
            || negb (node_walkable nd)) eqn:Bd.
  { apply sc_rejected. intros (ns' & nd' & Es' & Ed' & Ws & Wd & Xs & Xd).
    cbn [fst] in Es', Ed'. rewrite Ed in Ed'. injection Ed' as <-. rewrite Xd, Wd in Bd. discriminate. }
  apply orb_false_iff in Bs as [Xs Ws], Bd as [Xd Wd].
  apply negb_false_iff in Ws, Wd.
  assert (Ho : req_open (nodesById svc) request) by (exists ns, nd; auto 7).
  destruct (String.eqb (startTileId request) (destinationTileId request)) eqn:Esd.
  { apply String.eqb_eq in Esd. cbn [fst snd]. apply sc_same; assumption. }
  apply String.eqb_neq in Esd. fold (cache_key request).
  destruct (map_get String.eqb (routeCache svc) (cache_key request)) as [p|] eqn:Eg.
  - cbn [fst snd].
    rewrite map_set_absent.
    + apply sc_hit; assumption.
    + rewrite (map_get_delete String.eqb string_eqb_spec), String.eqb_refl. reflexivity.
  - destruct (findShortestPath (nodesById svc) (startTileId request) (destinationTileId request)
                (set_of_list (blocked_list request))) as [p|] eqn:Ep.
    2:{ apply sc_no_route; assumption. }
    cbn [fst snd]. rewrite map_set_absent by exact Eg.
    rewrite length_app. cbn [List.length]. rewrite Nat.add_1_r.
    rewrite evict_tl.
    + apply (sc_miss svc request p Ho Esd Eg Ep).
    + rewrite map_app. apply nodup_snoc; [exact Hnd|]. apply map_get_None_keys, Eg.
    + intros e He. apply in_app_or in He as [He|[<-|[]]]; [exact (Hne e He)|].
      apply toCacheKey_nonempty.
Qed.

Lemma map_get_snoc_absent {V} (m : list (string * V)) k v :
  ~ In k (map fst m) -> map_get String.eqb (m ++ [(k, v)]) k = Some v.
Proof.
  intros Hk. rewrite <- map_set_absent by (apply map_get_None_keys, Hk).
  rewrite (map_get_set String.eqb string_eqb_spec), String.eqb_refl. reflexivity.
Qed.

Lemma nodup_tl {A} (l : list A) : NoDup l -> NoDup (tl l).
Proof. destruct l; cbn; [auto|]. intros H; inversion H; assumption. Qed.

Lemma In_tl {A} (l : list A) a : In a (tl l) -> In a l.
Proof. destruct l; cbn; tauto. Qed.

Lemma step_inv tiles c svc request svc' res :
  svc_inv tiles c svc -> step_case svc request svc' res -> svc_inv tiles c svc'.
Proof.
  intros Hi Hs. destruct Hs as [r _|_ _|p Ho Hsd Hg|_ _ _ _|p Ho Hsd Hg Hp];
    try exact Hi; destruct Hi as (Hn & HN & Hnd & Hne & Hlen).
  - assert (Hk : In (cache_key request) (map fst (routeCache svc))).
    { exact (in_map fst _ _ (map_get_In String.eqb string_eqb_spec _ _ _ Hg)). }
    unfold svc_inv. cbn [nodesById normalizedMaxCachedRoutes routeCache]. repeat split; try assumption.
    + rewrite map_app. apply nodup_snoc; [apply map_delete_nodup, Hnd|].
      rewrite (map_delete_keys String.eqb), filter_In, String.eqb_refl. cbn. intros [_ H].
      discriminate.
    + intros e He. apply in_app_or in He as [He|[<-|[]]].
      * exact (Hne e (proj1 (map_delete_In _ _ _ He))).
      * apply toCacheKey_nonempty.
    + rewrite length_app. cbn [List.length].
      pose proof (map_delete_length (routeCache svc) (cache_key request) Hk). lia.
  - assert (Hk : ~ In (cache_key request) (map fst (routeCache svc))) by
      (apply map_get_None_keys, Hg).
    assert (Hnd1 : NoDup (map fst (routeCache svc ++ [(cache_key request, p)])))
      by (rewrite map_app; apply nodup_snoc; assumption).
    assert (Hne1 : forall e, In e (routeCache svc ++ [(cache_key request, p)]) ->
                             fst e <> ""%string).
    { intros e He. apply in_app_or in He as [He|[<-|[]]]; [exact (Hne e He)|].
      apply toCacheKey_nonempty. }
    unfold svc_inv. cbn [nodesById normalizedMaxCachedRoutes routeCache]. rewrite HN.
    destruct (norm_capacity c <? Z.of_nat (S (List.length (routeCache svc)))) eqn:E;
      repeat split; try assumption.
    + destruct (routeCache svc ++ [(cache_key request, p)]) eqn:El; [constructor|].
      cbn. inversion Hnd1; assumption.
    + intros e He. apply Hne1, In_tl, He.
    + destruct (routeCache svc) as [|e0 r0]; cbn [app tl List.length] in *.
      * pose proof (norm_capacity_pos c). lia.
      * rewrite length_app. cbn [List.length]. lia.
    + rewrite length_app. cbn [List.length]. apply Z.ltb_ge in E. lia.
Qed.

Lemma create_inv tiles c : svc_inv tiles c (createPathfindingService tiles c).
Proof.
  repeat split; cbn; [constructor|intros e []|apply Z.le_trans with 1; [lia|apply norm_capacity_pos]].
Qed.

Lemma run_requests_fst svc r rs :
  fst (run_requests cmp svc (r :: rs)) = fst (run_requests cmp (fst (findPath cmp svc r)) rs).
Proof.
  change (run_requests cmp svc (r :: rs)) with
    (let (svc1, res) := findPath cmp svc r in
     let (svc2, results) := run_requests cmp svc1 rs in (svc2, res :: results)).
  destruct (findPath cmp svc r) as [svc1 res]. cbn [fst].
  destruct (run_requests cmp svc1 rs). reflexivity.
Qed.

Lemma run_inv tiles c reqs : forall svc, svc_inv tiles c svc ->
  svc_inv tiles c (fst (run_requests cmp svc reqs)).
Proof.
  induction reqs as [|r reqs IH]; intros svc Hi; [exact Hi|].
  rewrite run_requests_fst. apply IH. eapply step_inv; [exact Hi|].
  apply (findPath_step tiles c svc r Hi).
Qed.

Lemma reachable_inv tiles c history :
  svc_inv tiles c (fst (run_requests cmp (createPathfindingService tiles c) history)).
Proof. apply run_inv, create_inv. Qed.

Lemma map_get_after_store svc request p :
  ~ In (cache_key request) (map fst (routeCache svc)) ->
  1 <= normalizedMaxCachedRoutes svc ->
  map_get String.eqb
    (if normalizedMaxCachedRoutes svc <? Z.of_nat (S (List.length (routeCache svc)))
     then tl (routeCache svc ++ [(cache_key request, p)])
     else routeCache svc ++ [(cache_key request, p)]) (cache_key request) = Some p.
Proof.
  intros Hk HN. destruct (_ <? _) eqn:E.
  - destruct (routeCache svc) as [|e r] eqn:Ec.
    + cbn [List.length] in E. apply Z.ltb_lt in E. lia.
    + cbn [app tl]. apply map_get_snoc_absent. intros H. apply Hk. right. exact H.
  - apply map_get_snoc_absent, Hk.
Qed.

(** ** Claim C3 (amended): let [N] be [maxCachedRoutes] when it is
    positive and 1 otherwise. After any sequence of calls on a service made
    by [createPathfindingService tiles maxCachedRoutes], one more call
    leaves at most [N] cached routes; a hit moves the hit entry to the end
    (most recently used) and changes nothing else; a newly found route for
    distinct start and destination is appended, and, when the cache
    already held [N] routes, exactly its first (least recently used) entry
    is evicted; every other call leaves the cache unchanged. *)
Theorem C3_cache_bounded_lru (tiles : list Tile) (maxCachedRoutes : Z)
  (history : list PathfindingRequest) (request : PathfindingRequest) :
  let svc := fst (run_requests cmp (createPathfindingService tiles maxCachedRoutes) history) in
  let N := norm_capacity maxCachedRoutes in
  let cache := routeCache svc in
  let k := cache_key request in
  let cache' := routeCache (fst (findPath cmp svc request)) in
  Z.of_nat (List.length cache') <= N /\
  match snd (findPath cmp svc request) with
  | found p true =>
      map_get String.eqb cache k = Some p /\ cache' = map_delete String.eqb cache k ++ [(k, p)]
  | found p false =>
      if String.eqb (startTileId request) (destinationTileId request) then cache' = cache
      else map_get String.eqb cache k = None /\
           cache' = (if Z.of_nat (List.length cache) <? N then cache ++ [(k, p)]
                     else tl cache ++ [(k, p)])
  | unreachable _ _ => cache' = cache
  end.
Proof.
  intros svc N cache k cache'.
  pose proof (reachable_inv tiles maxCachedRoutes history) as Hi. fold svc in Hi.
  pose proof (findPath_step tiles maxCachedRoutes svc request Hi) as Hs.
  pose proof (step_inv tiles maxCachedRoutes svc request _ _ Hi Hs) as Hi'.
  subst cache'. split; [apply Hi'|].
  destruct Hi as (Hn & HN & Hnd & Hne & Hlen).
  destruct Hs as [r Ho|Ho Hsd|p Ho Hsd Hg|Ho Hsd Hg Hp|p Ho Hsd Hg Hp]; cbn [routeCache].
  - reflexivity.
  - rewrite Hsd, String.eqb_refl. reflexivity.
  - split; [exact Hg|reflexivity].
  - reflexivity.
  - rewrite (proj2 (String.eqb_neq _ _) Hsd). split; [exact Hg|]. rewrite HN.
    subst N cache k. pose proof (norm_capacity_pos maxCachedRoutes).
    destruct (Z.of_nat (List.length (routeCache svc)) <? norm_capacity maxCachedRoutes) eqn:E1;
      destruct (norm_capacity maxCachedRoutes <? Z.of_nat (S (List.length (routeCache svc)))) eqn:E2;
      try (apply Z.ltb_lt in E1); try (apply Z.ltb_ge in E1);
      try (apply Z.ltb_lt in E2); try (apply Z.ltb_ge in E2); try lia.
    + reflexivity.
    + destruct (routeCache svc) as [|e r]; [cbn [List.length] in E1; lia|reflexivity].
Qed.

(** ** Claim C4 (amended): on a service reachable from
    [createPathfindingService], a call with distinct start and destination
    ids that returns a path makes the immediately following identical call
    return the same path with [fromCache = true]; a call with equal start
    and destination ids neither reads nor changes the cache and returns
    either an unreachable result or the one-tile path with
    [fromCache = false]; an unreachable result leaves the cache unchanged. *)
Theorem C4_found_then_cached (tiles : list Tile) (maxCachedRoutes : Z)
  (history : list PathfindingRequest) (request : PathfindingRequest) :
  let svc := fst (run_requests cmp (createPathfindingService tiles maxCachedRoutes) history) in
  let svc1 := fst (findPath cmp svc request) in
  let res1 := snd (findPath cmp svc request) in
  (startTileId request <> destinationTileId request -> forall p b, res1 = found p b ->
     snd (findPath cmp svc1 request) = found p true) /\
  (startTileId request = destinationTileId request -> svc1 = svc /\
     (res1 = found [startTileId request] false \/ exists r, res1 = unreachable r [])) /\
  (forall r q, res1 = unreachable r q -> svc1 = svc).
Proof.
  intros svc svc1 res1.
  pose proof (reachable_inv tiles maxCachedRoutes history) as Hi. fold svc in Hi.
  pose proof (findPath_step tiles maxCachedRoutes svc request Hi) as Hs.
  pose proof (step_inv tiles maxCachedRoutes svc request _ _ Hi Hs) as Hi1.
  fold svc1 res1 in Hs, Hi1.
  assert (Hopen : req_open (nodesById svc1) request <-> req_open (nodesById svc) request).
  { rewrite (proj1 Hi1), (proj1 Hi). reflexivity. }
  split; [|split].
  - intros Hsd p b Hr.
    assert (Hcached : req_open (nodesById svc) request /\
                      map_get String.eqb (routeCache svc1) (cache_key request) = Some p).
    { destruct Hs as [r Ho|Ho Hsd'|p' Ho _ Hg|Ho _ Hg Hp|p' Ho _ Hg Hp];
        try discriminate; try contradiction; injection Hr as <- _; split; auto; cbn [routeCache].
      - apply map_get_snoc_absent. rewrite (map_delete_keys String.eqb), filter_In,
          String.eqb_refl. intros [_ H]; discriminate.
      - apply map_get_after_store; [apply map_get_None_keys, Hg|].
        rewrite (proj1 (proj2 Hi)). apply norm_capacity_pos. }
    destruct Hcached as [Ho Hg].
    pose proof (findPath_step tiles maxCachedRoutes svc1 request Hi1) as Hs2.
    destruct Hs2 as [r Ho2|Ho2 Hsd2|p2 Ho2 _ Hg2|Ho2 _ Hg2 _|p2 Ho2 _ Hg2 _].
    + exfalso. apply Ho2, Hopen, Ho.
    + contradiction.
    + rewrite Hg in Hg2. injection Hg2 as ->. reflexivity.
    + congruence.
    + congruence.
  - intros Hsd. destruct Hs as [r Ho|Ho _|p Ho Hsd' _|Ho Hsd' _ _|p Ho Hsd' _ _];
      try contradiction; split; eauto.
  - intros r q Hr. destruct Hs; try discriminate; reflexivity.
Qed.

End WithCompare.

(** A code-unit order standing in for [localeCompare]. *)
Definition code_unit_compare (a b : string) : Z :=
  match String.compare a b with Lt => -1 | Eq => 0 | Gt => 1 end.

Definition request_00_10 : PathfindingRequest := mkRequest "tile_0_0"%string "tile_1_0"%string None.
Definition request_10_00 : PathfindingRequest := mkRequest "tile_1_0"%string "tile_0_0"%string None.
Definition request_00_00 : PathfindingRequest := mkRequest "tile_0_0"%string "tile_0_0"%string None.

(** ** Claim C3 (counterexample): a service configured with capacity 0
    holds one route after its first call finds one. *)
Lemma C3_zero_capacity_holds_one_route :
  Z.of_nat (List.length (routeCache (fst (findPath code_unit_compare
    (createPathfindingService two_tiles 0) request_00_10)))) = 1.
Proof. vm_compute. reflexivity. Qed.

Lemma C3_cache_bounded_lru_witness :
  Z.of_nat (List.length (routeCache (fst (findPath code_unit_compare
    (fst (run_requests code_unit_compare (createPathfindingService two_tiles 1) [request_00_10]))
    request_10_00)))) <= 1.
Proof.
  exact (proj1 (C3_cache_bounded_lru code_unit_compare two_tiles 1 [request_00_10] request_10_00)).
Defined.

(** ** Claim C4 (counterexample): with equal start and destination, the
    second identical call is not served from the cache. *)
Lemma C4_equal_endpoints_not_from_cache :
  snd (findPath code_unit_compare (createPathfindingService two_tiles 256) request_00_00) =
    found ["tile_0_0"%string] false /\
  snd (findPath code_unit_compare
         (fst (findPath code_unit_compare (createPathfindingService two_tiles 256) request_00_00))
         request_00_00) = found ["tile_0_0"%string] false.
Proof. vm_compute. split; reflexivity. Qed.

Lemma C4_found_then_cached_witness :
  snd (findPath code_unit_compare
         (fst (findPath code_unit_compare (createPathfindingService two_tiles 256) request_00_10))
         request_00_10) = found ["tile_0_0"%string; "tile_1_0"%string] true.
Proof.
  apply (proj1 (C4_found_then_cached code_unit_compare two_tiles 256 [] request_00_10)
           ltac:(discriminate) ["tile_0_0"%string; "tile_1_0"%string] false).
  vm_compute. reflexivity.
Defined.

(** ** The cache key *)

(** [s] does not contain the character [c]. *)
Definition no_char (c : Ascii.ascii) (s : string) : Prop := ~ In c (list_ascii_of_string s).

(** Every blocked id is non-empty and contains no comma. *)
Definition valid_blocked (blocked : list TileId) : Prop :=
  forall v, In v blocked -> v <> ""%string /\ no_char ","%char v.

Lemma no_char_app c s t : no_char c (s ++ t) <-> no_char c s /\ no_char c t.
Proof.
  unfold no_char.
  assert (E : list_ascii_of_string (s ++ t) = list_ascii_of_string s ++ list_ascii_of_string t)
    by (induction s; cbn; congruence).
  rewrite E, in_app_iff. tauto.
Qed.

Lemma sep1 c s : forall s' r r', no_char c s -> no_char c s' ->
  (s ++ String c r = s' ++ String c r')%string -> s = s' /\ r = r'.
Proof.
  unfold no_char. induction s as [|a s IH]; intros [|b s'] r r' Hs Hs' E; cbn in *.
  - injection E as ->. auto.
  - injection E as -> _. exfalso. apply Hs'. left. reflexivity.
  - injection E as <- _. exfalso. apply Hs. left. reflexivity.
  - injection E as <- E. destruct (IH s' r r' ltac:(tauto) ltac:(tauto) E) as [-> ->]. auto.
Qed.

Lemma sep_arrow s : forall s' r r', no_char ">"%char s -> no_char ">"%char s' ->
  (s ++ "->" ++ r = s' ++ "->" ++ r')%string -> s = s' /\ r = r'.
Proof.
  unfold no_char. induction s as [|a s IH]; intros [|b s'] r r' Hs Hs' E; cbn in *.
  - injection E as ->. auto.
  - injection E as <- E. exfalso. destruct s' as [|x s']; cbn in E; [discriminate|].
    injection E as Ex _. subst x. apply Hs'. right. left. reflexivity.
  - injection E as -> E. exfalso. destruct s as [|x s]; cbn in E; [discriminate|].
    injection E as Ex _. subst x. apply Hs. right. left. reflexivity.
  - injection E as <- E. destruct (IH s' r r' ltac:(tauto) ltac:(tauto) E) as [-> ->]. auto.
Qed.

Lemma join_nonempty a l : a <> ""%string -> join ","%string (a :: l) <> ""%string.
Proof. destruct l; cbn; [auto|]. destruct a; [tauto|discriminate]. Qed.

Lemma join_comma a l : l <> [] -> ~ no_char ","%char (join ","%string (a :: l)).
Proof.
  destruct l as [|b l]; [tauto|]. intros _ H. cbn in H.
  apply no_char_app in H as [_ H]. apply H. left. reflexivity.
Qed.

Lemma join_inj l : forall l',
  (forall v, In v l -> v <> ""%string /\ no_char ","%char v) ->
  (forall v, In v l' -> v <> ""%string /\ no_char ","%char v) ->
  join ","%string l = join ","%string l' -> l = l'.
Proof.
  induction l as [|a l IH]; intros [|a' l'] Hl Hl' E.
  - reflexivity.
  - exfalso. symmetry in E. revert E. apply join_nonempty, Hl'. left. reflexivity.
  - exfalso. revert E. apply join_nonempty, Hl. left. reflexivity.
  - destruct l as [|b l], l' as [|b' l'].
    + cbn in E. subst. reflexivity.
    + exfalso. cbn [join] in E. apply (join_comma a' (b' :: l')); [discriminate|].
      cbn [join]. rewrite <- E. apply Hl. left. reflexivity.
    + exfalso. cbn [join] in E. apply (join_comma a (b :: l)); [discriminate|].
      cbn [join]. rewrite E. apply Hl'. left. reflexivity.
    + cbn [join] in E.
      destruct (sep1 ","%char a a' _ _ (proj2 (Hl a (or_introl eq_refl)))
                  (proj2 (Hl' a' (or_introl eq_refl))) E) as [-> E'].
      f_equal. apply IH.
      * intros v Hv. apply Hl. right. exact Hv.
      * intros v Hv. apply Hl'. right. exact Hv.
      * exact E'.
Qed.

Lemma insert_by_perm cmp v l : Permutation (insert_by cmp v l) (v :: l).
Proof.
  induction l as [|w l IH]; cbn; [reflexivity|].
  destruct (cmp v w <? 0); [reflexivity|].
  eapply perm_trans; [apply perm_skip, IH|apply perm_swap].
Qed.

Lemma sort_by_perm cmp l : Permutation (sort_by cmp l) l.
Proof.
  unfold sort_by.
  assert (H : forall acc, Permutation (fold_left (fun acc v => insert_by cmp v acc) l acc)
                                      (l ++ acc)).
  { induction l as [|a l IH]; intros acc; cbn; [reflexivity|].
    eapply perm_trans; [apply IH|].
    eapply perm_trans; [apply Permutation_app_head, insert_by_perm|].
    apply Permutation_sym, Permutation_middle. }
  rewrite <- (app_nil_r l) at 2. apply H.
Qed.

Lemma blocked_part_inj cmp bl bl' : valid_blocked bl -> valid_blocked bl' ->
  (if Nat.eqb (List.length (set_of_list bl)) 0 then ""%string
   else join ","%string (sort_by cmp (set_of_list bl))) =
  (if Nat.eqb (List.length (set_of_list bl')) 0 then ""%string
   else join ","%string (sort_by cmp (set_of_list bl'))) ->
  forall v, In v bl <-> In v bl'.
Proof.
  intros Hv Hv' E.
  assert (Hs : forall b, valid_blocked b ->
            forall v, In v (sort_by cmp (set_of_list b)) -> v <> ""%string /\ no_char ","%char v).
  { intros b Hb v Hin. apply Hb, set_of_list_In.
    exact (Permutation_in _ (sort_by_perm cmp _) Hin). }
  assert (Hne : forall b, valid_blocked b -> set_of_list b <> [] ->
            join ","%string (sort_by cmp (set_of_list b)) <> ""%string).
  { intros b Hb Hn. destruct (sort_by cmp (set_of_list b)) as [|a l] eqn:Es.
    - exfalso. apply Hn, Permutation_nil. rewrite <- Es. apply sort_by_perm.
    - apply join_nonempty. apply (Hs b Hb a). rewrite Es. left. reflexivity. }
  intros v. rewrite <- (set_of_list_In bl), <- (set_of_list_In bl').
  destruct (set_of_list bl) as [|a l] eqn:E1, (set_of_list bl') as [|a' l'] eqn:E2;
    cbn [List.length Nat.eqb] in E.
  - tauto.
  - exfalso. rewrite <- E2 in E. symmetry in E. revert E. apply Hne; [exact Hv'|].
    rewrite E2. discriminate.
  - exfalso. rewrite <- E1 in E. revert E. apply Hne; [exact Hv|]. rewrite E1. discriminate.
  - rewrite <- E1, <- E2 in E. apply join_inj in E; [|apply Hs, Hv|apply Hs, Hv'].
    rewrite <- E1, <- E2. split; intros Hin.
    + apply (Permutation_in _ (sort_by_perm cmp _)). rewrite <- E.
      apply (Permutation_in _ (Permutation_sym (sort_by_perm cmp _))), Hin.
    + apply (Permutation_in _ (sort_by_perm cmp _)). rewrite E.
      apply (Permutation_in _ (Permutation_sym (sort_by_perm cmp _))), Hin.
Qed.

Lemma toCacheKey_inj cmp s d s' d' bl bl' :
  no_char ">"%char s -> no_char ">"%char s' -> no_char "|"%char d -> no_char "|"%char d' ->
  valid_blocked bl -> valid_blocked bl' ->
  toCacheKey cmp s d (set_of_list bl) = toCacheKey cmp s' d' (set_of_list bl') ->
  s = s' /\ d = d' /\ forall v, In v bl <-> In v bl'.
Proof.
  intros Hs Hs' Hd Hd' Hb Hb' E. unfold toCacheKey in E.
  apply sep_arrow in E as [-> E]; [|assumption|assumption].
  change ("|" ++ ?x)%string with (String "|"%char x) in E.
  apply sep1 in E as [-> E]; [|assumption|assumption].
  split; [reflexivity|split; [reflexivity|]]. eapply blocked_part_inj; eassumption.
Qed.

(** ** Shortest routes through the service *)

(** [p] is a route of moves between 4-adjacent walkable unblocked tiles
    from [s] to [d], and no such route is shorter. *)
Definition route_optimal (tiles : list Tile) (blocked : list TileId) (s d : TileId)
  (p : list TileId) : Prop :=
  route_ok (tile_step tiles blocked) s d p /\
  forall q, route_ok (tile_step tiles blocked) s d q -> (List.length p <= List.length q)%nat.

(** Every cached route is a shortest route for a request with its key. *)
Definition cache_sound (cmp : string -> string -> Z) (tiles : list Tile)
  (svc : PathfindingService) : Prop :=
  forall k p, In (k, p) (routeCache svc) -> exists request,
    k = cache_key cmp request /\ req_open (createNodesById tiles) request /\
    valid_blocked (blocked_list request) /\
    route_optimal tiles (blocked_list request) (startTileId request) (destinationTileId request) p.

Lemma route_ok_iff {A} (R R' : A -> A -> Prop) s d p :
  (forall a b, R a b <-> R' a b) -> route_ok R s d p <-> route_ok R' s d p.
Proof.
  intros HR. unfold route_ok.
  assert (Hc : forall l, chain_ok R l <-> chain_ok R' l)
    by (intros l; split; apply chain_ok_impl; intros a b; apply HR).
  rewrite Hc. reflexivity.
Qed.

Section Shortest.
Variable cmp : string -> string -> Z.
Variable tiles : list Tile.
Hypothesis ids_nodup : NoDup (map tile_id tiles).
Hypothesis keys_nodup : NoDup (map tile_key tiles).
Hypothesis ids_tile : forall t, In t tiles -> Domain.isTileId (tile_id t) = true.

Lemma ids_ok t : In t tiles ->
  tile_id t <> ""%string /\ no_char ">"%char (tile_id t) /\ no_char "|"%char (tile_id t).
Proof.
  intros Ht. destruct (DomainProofs.isTileId_format _ (ids_tile t Ht)) as (? & ? & ? & _). auto.
Qed.

Lemma tile_step_ext bl bl' : (forall v, In v bl <-> In v bl') ->
  forall u v, tile_step tiles bl u v <-> tile_step tiles bl' u v.
Proof.
  intros Hb. assert (Ho : forall v, open_tile tiles bl v <-> open_tile tiles bl' v).
  { intros v. unfold open_tile. split; intros (t & H1 & H2 & H3 & H4); exists t;
      repeat split; try assumption; intros Hin; apply H4, Hb, Hin. }
  intros u v. unfold tile_step. rewrite !Ho. reflexivity.
Qed.

Lemma route_optimal_ext bl bl' s d p : (forall v, In v bl <-> In v bl') ->
  route_optimal tiles bl s d p -> route_optimal tiles bl' s d p.
Proof.
  intros Hb [Hp Hmin]. pose proof (tile_step_ext bl bl' Hb) as He. split.
  - exact (proj1 (route_ok_iff _ _ s d p He) Hp).
  - intros q Hq. apply Hmin. exact (proj2 (route_ok_iff _ _ s d q He) Hq).
Qed.

Lemma req_open_tiles request : req_open (createNodesById tiles) request ->
  open_tile tiles (blocked_list request) (startTileId request) /\
  open_tile tiles (blocked_list request) (destinationTileId request).
Proof.
  intros (ns & nd & Es & Ed & Ws & Wd & Xs & Xd).
  split; apply (usable_open_tile tiles ids_nodup); eexists; eauto.
Qed.

Lemma tiles_req_open request :
  open_tile tiles (blocked_list request) (startTileId request) ->
  open_tile tiles (blocked_list request) (destinationTileId request) ->
  req_open (createNodesById tiles) request.
Proof.
  intros Hs Hd.
  apply (usable_open_tile tiles ids_nodup) in Hs as (ns & Es & Ws & Xs), Hd as (nd & Ed & Wd & Xd).
  exists ns, nd. auto 7.
Qed.

Lemma open_tile_chars bl v : open_tile tiles bl v ->
  no_char ">"%char v /\ no_char "|"%char v.
Proof. intros (t & Ht & <- & _). apply ids_ok, Ht. Qed.

Lemma search_optimal request : req_open (createNodesById tiles) request ->
  let s := startTileId request in
  let d := destinationTileId request in
  let bl := blocked_list request in
  match findShortestPath (createNodesById tiles) s d (set_of_list bl) with
  | Some p => route_optimal tiles bl s d p
  | None => forall q, ~ route_ok (tile_step tiles bl) s d q
  end.
Proof.
  intros Ho s d bl. destruct (req_open_tiles request Ho) as [Hs Hd].
  destruct Ho as (ns & nd & Es & Ed & _).
  assert (Hsn : node_get (createNodesById tiles) s <> None) by (unfold s; congruence).
  assert (Hdn : node_get (createNodesById tiles) d <> None) by (unfold d; congruence).
  pose proof (findShortestPath_heap_ok (createNodesById tiles) (set_of_list bl) s d
                (create_nonempty tiles (fun t Ht => proj1 (ids_ok t Ht)))
                (create_unit tiles ids_nodup) Hsn Hdn
                (createNodesById_nodup tiles)) as Hr.
  unfold result_ok in Hr.
  destruct (findShortestPath (createNodesById tiles) s d (set_of_list bl)) as [p|].
  - destruct Hr as [Hp Hmin]. split.
    + apply (route_tile_gstep tiles ids_nodup keys_nodup bl s d p Hs), Hp.
    + intros q Hq. apply Hmin, (route_tile_gstep tiles ids_nodup keys_nodup bl s d q Hs), Hq.
  - intros q Hq. eapply Hr, route_walk,
      (route_tile_gstep tiles ids_nodup keys_nodup bl s d q Hs), Hq.
Qed.

Lemma step_sound c svc request svc' res :
  svc_inv tiles c svc -> cache_sound cmp tiles svc -> valid_blocked (blocked_list request) ->
  step_case cmp svc request svc' res -> cache_sound cmp tiles svc'.
Proof.
  intros Hi Hc Hv Hs. destruct Hs as [r _|_ _|p0 Ho Hsd Hg|_ _ _ _|p0 Ho Hsd Hg Hp];
    try exact Hc; intros k p Hin; cbn [routeCache] in Hin.
  - apply in_app_or in Hin as [Hin|[E|[]]].
    + exact (Hc k p (proj1 (map_delete_In _ _ _ Hin))).
    + injection E as <- <-. apply Hc, (map_get_In String.eqb string_eqb_spec), Hg.
  - assert (Hin' : In (k, p) (routeCache svc ++ [(cache_key cmp request, p0)])).
    { destruct (_ <? _); [apply In_tl, Hin|exact Hin]. }
    apply in_app_or in Hin' as [Hin'|[E|[]]]; [exact (Hc k p Hin')|].
    injection E as <- <-. exists request. rewrite (proj1 Hi) in Ho, Hp.
    split; [reflexivity|split; [exact Ho|split; [exact Hv|]]].
    pose proof (search_optimal request Ho) as Hso. cbn zeta in Hso. rewrite Hp in Hso.
    exact Hso.
Qed.

Lemma run_sound c history : forall svc,
  svc_inv tiles c svc -> cache_sound cmp tiles svc ->
  (forall r, In r history -> valid_blocked (blocked_list r)) ->
  cache_sound cmp tiles (fst (run_requests cmp svc history)).
Proof.
  induction history as [|r rs IH]; intros svc Hi Hc Hv; [exact Hc|].
  rewrite run_requests_fst.
  pose proof (findPath_step cmp tiles c svc r Hi) as Hs.
  apply IH.
  - exact (step_inv cmp tiles c svc r _ _ Hi Hs).
  - apply (step_sound c svc r _ (snd (findPath cmp svc r)) Hi Hc); [apply Hv; left; reflexivity|exact Hs].
  - intros r' Hr'. apply Hv. right. exact Hr'.
Qed.

(** ** Claim C1: take a grid of tiles, that is, tiles at distinct
    coordinates with distinct ids that are tile ids ([tile_<n>_<m>]), and
    requests whose blocked ids are tile ids. After any earlier calls, a
    call whose start and destination are distinct ids of walkable,
    unblocked tiles returns [found] with a route that begins at the start,
    ends at the destination, steps only between 4-adjacent walkable
    unblocked tiles and is no longer than any such route, whenever such a
    route exists, and returns [unreachable] with reason [no-route] when
    none exists. *)
Theorem C1_findPath_shortest (c : Z) (history : list PathfindingRequest)
  (request : PathfindingRequest) :
  (forall r v, In r (history ++ [request]) -> In v (blocked_list r) -> Domain.isTileId v = true) ->
  open_tile tiles (blocked_list request) (startTileId request) ->
  open_tile tiles (blocked_list request) (destinationTileId request) ->
  startTileId request <> destinationTileId request ->
  let s := startTileId request in
  let d := destinationTileId request in
  let bl := blocked_list request in
  let res := snd (findPath cmp (fst (run_requests cmp (createPathfindingService tiles c) history))
                    request) in
  ((exists q, route_ok (tile_step tiles bl) s d q) ->
     exists p fromCache, res = found p fromCache /\ route_optimal tiles bl s d p) /\
  ((forall q, ~ route_ok (tile_step tiles bl) s d q) -> res = unreachable no_route []).
Proof.
  intros Hb Hs Hd Hsd s d bl res.
  assert (Hv : forall r, In r (history ++ [request]) -> valid_blocked (blocked_list r)).
  { intros r Hr v Hin.
    destruct (DomainProofs.isTileId_format v (Hb r v Hr Hin)) as (? & _ & _ & ?). auto. }
  set (svc := fst (run_requests cmp (createPathfindingService tiles c) history)) in res.
  assert (Hi : svc_inv tiles c svc) by apply reachable_inv.
  assert (Hc : cache_sound cmp tiles svc).
  { apply (run_sound c); [apply create_inv|intros k p []|].
    intros r Hr. apply Hv, in_or_app. left. exact Hr. }
  assert (Hvr : valid_blocked bl) by (apply Hv, in_or_app; right; left; reflexivity).
  assert (Ho : req_open (createNodesById tiles) request) by (apply tiles_req_open; assumption).
  assert (Hres : match res with
                 | found p _ => route_optimal tiles bl s d p
                 | unreachable r q => r = no_route /\ q = [] /\
                                      forall q', ~ route_ok (tile_step tiles bl) s d q'
                 end).
  { pose proof (findPath_step cmp tiles c svc request Hi) as Hst. fold res in Hst.
    destruct Hst as [r Hno|Ho' Hsd'|p Ho' _ Hg|Ho' _ Hg Hp|p Ho' _ Hg Hp].
    - exfalso. apply Hno. rewrite (proj1 Hi). exact Ho.
    - contradiction.
    - apply (map_get_In String.eqb string_eqb_spec), Hc in Hg
        as (r' & Ek & Ho'' & Hv' & Hopt).
      destruct (req_open_tiles r' Ho'') as [Hs' Hd'].
      destruct (toCacheKey_inj cmp s d (startTileId r') (destinationTileId r') bl (blocked_list r')
                  (proj1 (open_tile_chars _ _ Hs)) (proj1 (open_tile_chars _ _ Hs'))
                  (proj2 (open_tile_chars _ _ Hd)) (proj2 (open_tile_chars _ _ Hd'))
                  Hvr Hv' Ek) as (E1 & E2 & Eb).
      subst s d. rewrite E1, E2.
      apply (route_optimal_ext (blocked_list r')); [|exact Hopt].
      intros v. rewrite (Eb v). reflexivity.
    - rewrite (proj1 Hi) in Hp. pose proof (search_optimal request Ho) as Hso.
      cbn zeta in Hso. fold s d bl in Hso, Hp. rewrite Hp in Hso. auto.
    - rewrite (proj1 Hi) in Hp. pose proof (search_optimal request Ho) as Hso.
      cbn zeta in Hso. fold s d bl in Hso, Hp. rewrite Hp in Hso. exact Hso. }
  split.
  - intros [q Hq]. destruct res as [p b|r q'].
    + exists p, b. auto.
    + exfalso. exact (proj2 (proj2 Hres) q Hq).
  - intros Hno. destruct res as [p b|r q'].
    + exfalso. exact (Hno p (proj1 Hres)).
    + destruct Hres as (-> & -> & _). reflexivity.
Qed.

End Shortest.

(** Four tiles whose ids make two cache keys collide:
    [toCacheKey "a->b" "c"] and [toCacheKey "a" "b->c"] are both
    ["a->b->c|"]. *)
Definition arrow_tiles : list Tile :=
  [mkTile "a->b"%string (mkCoordinate 0 0) tile_path true;
   mkTile "c"%string (mkCoordinate 1 0) tile_path true;
   mkTile "a"%string (mkCoordinate 5 5) tile_path true;
   mkTile "b->c"%string (mkCoordinate 6 5) tile_path true].

Definition request_ab_c : PathfindingRequest := mkRequest "a->b"%string "c"%string None.
Definition request_a_bc : PathfindingRequest := mkRequest "a"%string "b->c"%string None.

(** The ids must be tile ids: with ids containing [->], after the route
    from [a->b] to [c] has been cached, the request from [a] to [b->c] has
    the same cache key and is answered with the cached route, which
    neither begins at [a] nor ends at [b->c]; a route [a], [b->c] exists. *)
Lemma cache_key_collision_outside_tile_ids :
  snd (findPath code_unit_compare
         (fst (findPath code_unit_compare (createPathfindingService arrow_tiles 256) request_ab_c))
         request_a_bc) = found ["a->b"%string; "c"%string] true /\
  route_ok (tile_step arrow_tiles []) "a"%string "b->c"%string ["a"%string; "b->c"%string].
Proof.
  split; [vm_compute; reflexivity|].
  assert (Ha : open_tile arrow_tiles [] "a"%string)
    by (eexists; split; [right; right; left; reflexivity|cbn; auto]).
  assert (Hb : open_tile arrow_tiles [] "b->c"%string)
    by (eexists; split; [right; right; right; left; reflexivity|cbn; auto]).
  split; [exists ["b->c"%string]; reflexivity|].
  split; [exists ["a"%string]; reflexivity|].
  cbn [chain_ok]. split; [|exact I]. split; [|split; assumption].
  exists (mkTile "a"%string (mkCoordinate 5 5) tile_path true),
         (mkTile "b->c"%string (mkCoordinate 6 5) tile_path true).
  split; [right; right; left; reflexivity|].
  split; [right; right; right; left; reflexivity|].
  split; [reflexivity|split; [reflexivity|vm_compute; reflexivity]].
Qed.

Lemma C1_findPath_shortest_witness :
  exists p fromCache,
    snd (findPath code_unit_compare
           (fst (run_requests code_unit_compare (createPathfindingService two_tiles 256) []))
           request_00_10) = found p fromCache /\
    route_optimal two_tiles [] "tile_0_0"%string "tile_1_0"%string p.
Proof.
  refine (proj1 (C1_findPath_shortest code_unit_compare two_tiles _ _ _ 256 [] request_00_10
                   _ _ _ _) _).
  - repeat constructor; cbn; intuition discriminate.
  - repeat constructor; cbn; intuition discriminate.
  - intros t [<-|[<-|[]]]; vm_compute; reflexivity.
  - intros r v [<-|[]] Hin. destruct Hin.
  - exists (mkTile "tile_0_0"%string (mkCoordinate 0 0) tile_path true).
    split; [left; reflexivity|cbn; auto].
  - exists (mkTile "tile_1_0"%string (mkCoordinate 1 0) tile_path true).
    split; [right; left; reflexivity|cbn; auto].
  - discriminate.
  - assert (H0 : open_tile two_tiles [] "tile_0_0"%string)
      by (eexists; split; [left; reflexivity|cbn; auto]).
    assert (H1 : open_tile two_tiles [] "tile_1_0"%string)
      by (eexists; split; [right; left; reflexivity|cbn; auto]).
    exists ["tile_0_0"%string; "tile_1_0"%string].
    split; [exists ["tile_1_0"%string]; reflexivity|].
    split; [exists ["tile_0_0"%string]; reflexivity|].
    cbn [chain_ok]. split; [|exact I]. split; [|split; assumption].
    exists (mkTile "tile_0_0"%string (mkCoordinate 0 0) tile_path true),
           (mkTile "tile_1_0"%string (mkCoordinate 1 0) tile_path true).
    split; [left; reflexivity|]. split; [right; left; reflexivity|].
    split; [reflexivity|split; [reflexivity|vm_compute; reflexivity]].
Defined.

End ServiceProofs.

(* ================================================================== *)
(** * The snapshot parser *)

Module SnapshotProofs.
Import QArith_base Domain Snapshot.
Local Open Scope Z_scope.
Local Open Scope string_scope.

(** Induction over values, with the elements of arrays and the property
    values of objects. *)
Section JsValueInd.
Variable P : JsValue -> Prop.
Hypothesis P_undefined : P JsUndefined.
Hypothesis P_null : P JsNull.
Hypothesis P_bool : forall b, P (JsBool b).
Hypothesis P_num : forall n, P (JsNum n).
Hypothesis P_str : forall s, P (JsStr s).
Hypothesis P_arr : forall items, Forall P items -> P (JsArr items).
Hypothesis P_obj : forall ps, Forall (fun kv => P (snd kv)) ps -> P (JsObj ps).

Fixpoint js_value_ind (v : JsValue) : P v :=
  match v with
  | JsUndefined => P_undefined
  | JsNull => P_null
  | JsBool b => P_bool b
  | JsNum n => P_num n
  | JsStr s => P_str s
  | JsArr items =>
      P_arr items
        ((fix go (l : list JsValue) : Forall P l :=
            match l with
            | [] => Forall_nil _
            | x :: l' => Forall_cons x (js_value_ind x) (go l')
            end) items)
  | JsObj ps =>
      P_obj ps
        ((fix go (l : list (string * JsValue)) : Forall (fun kv => P (snd kv)) l :=
            match l with
            | [] => Forall_nil _
            | kv :: l' =>
                Forall_cons kv
                  (match kv as kv0 return P (snd kv0) with (_, x) => js_value_ind x end)
                  (go l')
            end) ps)
  end.
End JsValueInd.

(** A property as read after the round trip: absent stays absent. *)
Definition prop_rt (v : JsValue) : JsValue :=
  if is_undefined v then JsUndefined else json_roundtrip v.

Lemma js_get_cons k' x ps k :
  js_get (JsObj ((k', x) :: ps)) k = if String.eqb k' k then x else js_get (JsObj ps) k.
Proof. cbn. destruct (String.eqb k' k); reflexivity. Qed.

Lemma json_props_get f seen ps k :
  js_get (JsObj (json_props f seen ps)) k =
  if existsb (String.eqb k) seen then JsUndefined
  else if is_undefined (js_get (JsObj ps) k) then JsUndefined else f (js_get (JsObj ps) k).
Proof.
  revert seen. induction ps as [|[k' x] ps IH]; intros seen.
  - cbn. destruct (existsb _ seen); reflexivity.
  - rewrite js_get_cons. cbn [json_props].
    destruct (String.eqb k' k) eqn:Ek.
    + apply String.eqb_eq in Ek. subst k'.
      destruct (existsb (String.eqb k) seen) eqn:Es.
      * rewrite IH, Es. reflexivity.
      * destruct (is_undefined x) eqn:Ex.
        -- rewrite IH. cbn. rewrite String.eqb_refl. reflexivity.
        -- rewrite js_get_cons, String.eqb_refl. reflexivity.
    + destruct (existsb (String.eqb k') seen) eqn:Es; [apply IH|].
      destruct (is_undefined x).
      * rewrite IH. cbn. rewrite String.eqb_sym, Ek. reflexivity.
      * rewrite js_get_cons, Ek, IH. cbn. rewrite String.eqb_sym, Ek. reflexivity.
Qed.

Lemma get_rt v k : js_get (json_roundtrip v) k = prop_rt (js_get v k).
Proof.
  unfold prop_rt. destruct v as [| | | [q| |] | | items | ps]; try reflexivity.
  cbn [json_roundtrip]. rewrite json_props_get. reflexivity.
Qed.

Lemma get_prop_rt v k : js_get (prop_rt v) k = prop_rt (js_get v k).
Proof.
  unfold prop_rt at 1. destruct v; try apply get_rt. reflexivity.
Qed.

Lemma is_undefined_prop_rt v : is_undefined (prop_rt v) = is_undefined v.
Proof. destruct v as [| | | [q| |] | | items | ps]; reflexivity. Qed.

Lemma Array_isArray_prop_rt v : Array_isArray (prop_rt v) = Array_isArray v.
Proof. destruct v as [| | | [q| |] | | items | ps]; reflexivity. Qed.

Lemma prop_rt_object v : typeof_is v "object" = true ->
  typeof_is (prop_rt v) "object" = true /\ js_truthy (prop_rt v) = js_truthy v.
Proof. destruct v as [| | | [q| |] | | items | ps]; try discriminate; auto. Qed.

Lemma prop_rt_string v : typeof_is v "string" = true -> prop_rt v = v.
Proof. destruct v as [| | | [q| |] | | items | ps]; try discriminate; reflexivity. Qed.

Lemma prop_rt_integer v : Number_isInteger v = true -> prop_rt v = v.
Proof. destruct v as [| | | [q| |] | | items | ps]; try discriminate; reflexivity. Qed.

Lemma prop_rt_importance v : isMemoryImportance v = true -> prop_rt v = v.
Proof. destruct v as [| | | [q| |] | | items | ps]; try discriminate; reflexivity. Qed.

Lemma prop_rt_undefined_or_string v b :
  is_undefined v || (typeof_is v "string" && b) = true -> prop_rt v = v.
Proof. destruct v as [| | | [q| |] | | items | ps]; try discriminate; reflexivity. Qed.

Lemma prop_rt_undefined_or_string' v :
  is_undefined v || typeof_is v "string" = true -> prop_rt v = v.
Proof. destruct v as [| | | [q| |] | | items | ps]; try discriminate; reflexivity. Qed.

Lemma prop_rt_optional_integer v :
  negb (is_undefined v) && (negb (typeof_is v "number") || negb (Number_isInteger v)) = false ->
  prop_rt v = v.
Proof. destruct v as [| | | [q| |] | | items | ps]; try discriminate; reflexivity. Qed.

Lemma prop_rt_optional_string v :
  negb (is_undefined v) && negb (typeof_is v "string") = false -> prop_rt v = v.
Proof. destruct v as [| | | [q| |] | | items | ps]; try discriminate; reflexivity. Qed.

Lemma every_rt (V : JsValue -> bool) v :
  (forall x, V x = true -> V (prop_rt x) = true) -> V JsUndefined = false ->
  every V v = true -> every V (prop_rt v) = true.
Proof.
  intros HV HU. destruct v as [| | | [q| |] | | items | ps]; try discriminate.
  cbn. induction items as [|x items IH]; [reflexivity|].
  cbn. intros H. apply andb_prop in H as [Hx Hr].
  rewrite IH by exact Hr.
  assert (Hd : is_undefined x = false) by (destruct x; cbn; congruence).
  pose proof (HV x Hx) as Hx'. unfold prop_rt in Hx'. rewrite Hd in Hx'.
  rewrite Hx'. reflexivity.
Qed.

(** Splits an accepted validator into the facts it checked. *)
Ltac bool_facts :=
  repeat match goal with
  | H : (if ?c then false else _) = true |- _ =>
      let E := fresh "E" in destruct c eqn:E; [discriminate H|]
  | H : (_ || _) = false |- _ => apply orb_false_elim in H as [? ?]
  | H : (_ && _) = true |- _ => apply andb_prop in H as [? ?]
  | H : negb _ = false |- _ => apply negb_false_iff in H
  | H : negb _ = true |- _ => apply negb_true_iff in H
  end.

(** Replaces each checked field after the round trip by the field itself. *)
Ltac stabilize :=
  repeat match goal with
  | H : is_undefined ?y || (typeof_is ?y "string" && _) = true |- context [prop_rt ?y] =>
      rewrite (prop_rt_undefined_or_string y _ H)
  | H : is_undefined ?y || typeof_is ?y "string" = true |- context [prop_rt ?y] =>
      rewrite (prop_rt_undefined_or_string' y H)
  | H : negb (is_undefined ?y) && (negb (typeof_is ?y "number") || _) = false
    |- context [prop_rt ?y] =>
      rewrite (prop_rt_optional_integer y H)
  | H : negb (is_undefined ?y) && negb (typeof_is ?y "string") = false
    |- context [prop_rt ?y] =>
      rewrite (prop_rt_optional_string y H)
  | H : typeof_is ?y "string" = true |- context [prop_rt ?y] =>
      rewrite (prop_rt_string y H)
  | H : Number_isInteger ?y = true |- context [prop_rt ?y] =>
      rewrite (prop_rt_integer y H)
  | H : isMemoryImportance ?y = true |- context [prop_rt ?y] =>
      rewrite (prop_rt_importance y H)
  | H : typeof_is ?y "object" = true |- context [typeof_is (prop_rt ?y) "object"] =>
      rewrite (proj1 (prop_rt_object y H)), (proj2 (prop_rt_object y H))
  end.

(** Closes the goal with the checked facts. *)
Ltac close_facts :=
  repeat match goal with
  | H : ?a = true |- context [?a] => rewrite H
  | H : ?a = false |- context [?a] => rewrite H
  end;
  reflexivity.

Lemma isMemoryCreatedAt_rt v : isMemoryCreatedAt v = true -> isMemoryCreatedAt (prop_rt v) = true.
Proof.
  unfold isMemoryCreatedAt. intros H. rewrite !get_prop_rt.
  bool_facts. stabilize. close_facts.
Qed.

Ltac memory_rt :=
  let H := fresh "H" in
  intros H; rewrite !get_prop_rt, !is_undefined_prop_rt;
  bool_facts;
  repeat match goal with
  | H : isMemoryCreatedAt ?y = true |- context [isMemoryCreatedAt (prop_rt ?y)] =>
      rewrite (isMemoryCreatedAt_rt y H)
  end;
  stabilize; close_facts.

Lemma isShortTermMemory_rt v : isShortTermMemory v = true -> isShortTermMemory (prop_rt v) = true.
Proof. unfold isShortTermMemory. memory_rt. Qed.

Lemma isLongTermMemory_rt v : isLongTermMemory v = true -> isLongTermMemory (prop_rt v) = true.
Proof. unfold isLongTermMemory. memory_rt. Qed.

Lemma isVillagerMemoryStore_rt v :
  isVillagerMemoryStore v = true -> isVillagerMemoryStore (prop_rt v) = true.
Proof.
  unfold isVillagerMemoryStore. intros H. rewrite !get_prop_rt, !Array_isArray_prop_rt.
  bool_facts.
  repeat match goal with
  | H : every isShortTermMemory ?y = true |- context [every isShortTermMemory (prop_rt ?y)] =>
      rewrite (every_rt isShortTermMemory y isShortTermMemory_rt eq_refl H)
  | H : every isLongTermMemory ?y = true |- context [every isLongTermMemory (prop_rt ?y)] =>
      rewrite (every_rt isLongTermMemory y isLongTermMemory_rt eq_refl H)
  end.
  stabilize. close_facts.
Qed.

Lemma isNpcReplanState_rt v : isNpcReplanState v = true -> isNpcReplanState (prop_rt v) = true.
Proof.
  unfold isNpcReplanState. intros H. rewrite !get_prop_rt, !is_undefined_prop_rt.
  bool_facts.
  destruct (is_undefined (js_get v "intent")) eqn:Ei.
  - stabilize. close_facts.
  - bool_facts. stabilize. close_facts.
Qed.

Lemma isPersistedNpcWorldState_rt v :
  isPersistedNpcWorldState v = true -> isPersistedNpcWorldState (prop_rt v) = true.
Proof.
  unfold isPersistedNpcWorldState. intros H. rewrite !get_prop_rt.
  bool_facts.
  repeat match goal with
  | H : isVillagerMemoryStore ?y = true |- context [isVillagerMemoryStore (prop_rt ?y)] =>
      rewrite (isVillagerMemoryStore_rt y H)
  | H : isNpcReplanState ?y = true |- context [isNpcReplanState (prop_rt ?y)] =>
      rewrite (isNpcReplanState_rt y H)
  end.
  stabilize. close_facts.
Qed.

(** JSON data comes back unchanged from the round trip. *)
Lemma json_props_data seen ps :
  Forall (fun kv => json_data (snd kv) = true -> json_roundtrip (snd kv) = snd kv) ps ->
  (forall k, In k (map fst ps) -> existsb (String.eqb k) seen = false) ->
  distinct_keys (map fst ps) = true ->
  forallb (fun '(_, x) => json_data x) ps = true ->
  json_props json_roundtrip seen ps = ps.
Proof.
  intros Hall. revert seen.
  induction Hall as [|[k x] ps Hx Hall IH]; intros seen Hs Hd Hj; [reflexivity|].
  cbn in Hd, Hj, Hx |- *. apply andb_prop in Hd as [Hk Hd]. apply andb_prop in Hj as [Hjx Hj].
  rewrite (Hs k (or_introl eq_refl)).
  assert (Hu : is_undefined x = false) by (destruct x; cbn in Hjx |- *; congruence).
  rewrite Hu, (Hx Hjx), IH; [reflexivity| |exact Hd|exact Hj].
  intros k' Hk'. cbn. rewrite (Hs k' (or_intror Hk')).
  destruct (String.eqb k' k) eqn:E; [|reflexivity].
  apply String.eqb_eq in E. subst k'.
  apply negb_true_iff in Hk. rewrite <- Hk. symmetry.
  apply existsb_exists. exists k. split; [exact Hk'|apply String.eqb_refl].
Qed.

Lemma json_data_rt v : json_data v = true -> json_roundtrip v = v.
Proof.
  induction v as [| | | n | s | items IH | ps IH] using js_value_ind; intros H;
    try reflexivity; try discriminate.
  - destruct n; try discriminate. reflexivity.
  - cbn in H |- *. f_equal. induction IH as [|x items Hx _ IH']; [reflexivity|].
    cbn in H. apply andb_prop in H as [H1 H2]. cbn. rewrite (Hx H1), (IH' H2). reflexivity.
  - cbn in H |- *. apply andb_prop in H as [Hd Hj].
    f_equal. apply json_props_data; auto.
Qed.

(** The round trip drops the properties that hold [undefined] and keeps
    the rest of such data as it is. *)
Lemma json_props_undef seen ps :
  Forall (fun kv => json_data_undef (snd kv) = true ->
                    json_roundtrip (snd kv) = strip_undefined (snd kv)) ps ->
  (forall k, In k (map fst ps) -> existsb (String.eqb k) seen = false) ->
  distinct_keys (map fst ps) = true ->
  forallb (fun '(_, x) => is_undefined x || json_data_undef x) ps = true ->
  json_props json_roundtrip seen ps =
    filter (fun kv => negb (is_undefined (snd kv)))
           (map (fun '(k, x) => (k, strip_undefined x)) ps).
Proof.
  intros Hall. revert seen.
  induction Hall as [|[k x] ps Hx Hall IH]; intros seen Hs Hd Hj; [reflexivity|].
  cbn in Hd, Hj, Hx |- *. apply andb_prop in Hd as [Hk Hd]. apply andb_prop in Hj as [Hjx Hj].
  rewrite (Hs k (or_introl eq_refl)).
  assert (Hseen : forall k', In k' (map fst ps) -> existsb (String.eqb k') (k :: seen) = false).
  { intros k' Hk'. cbn. rewrite (Hs k' (or_intror Hk')).
    destruct (String.eqb k' k) eqn:E; [|reflexivity].
    apply String.eqb_eq in E. subst k'.
    apply negb_true_iff in Hk. rewrite <- Hk. symmetry.
    apply existsb_exists. exists k. split; [exact Hk'|apply String.eqb_refl]. }
  destruct x; cbn in Hjx |- *; rewrite IH by assumption; try reflexivity;
    f_equal; f_equal; apply Hx; exact Hjx.
Qed.

Lemma json_undef_rt v : json_data_undef v = true -> json_roundtrip v = strip_undefined v.
Proof.
  induction v as [| | | n | s | items IH | ps IH] using js_value_ind; intros H;
    try reflexivity; try discriminate.
  - destruct n; try discriminate. reflexivity.
  - cbn in H |- *. f_equal. induction IH as [|x items Hx _ IH']; [reflexivity|].
    cbn in H. apply andb_prop in H as [H1 H2]. cbn. rewrite (Hx H1), (IH' H2). reflexivity.
  - cbn in H |- *. apply andb_prop in H as [Hd Hj].
    f_equal. apply json_props_undef; auto.
Qed.

Lemma Qle_bool_inject a b : Qle_bool (inject_Z a) (inject_Z b) = Z.leb a b.
Proof. unfold Qle_bool. cbn. rewrite !Z.mul_1_r. reflexivity. Qed.

Lemma forallb_npcs_rt np :
  forallb isPersistedNpcWorldState np = true ->
  forallb isPersistedNpcWorldState (map json_roundtrip np) = true.
Proof.
  intros H.
  exact (every_rt isPersistedNpcWorldState (JsArr np) isPersistedNpcWorldState_rt eq_refl H).
Qed.

(** The parser accepts a version-1 snapshot object with valid world time
    and valid records, and rebuilds it. *)
Lemma parse_snapshot_object s t d m np :
  0 <= t -> 1 <= d -> 0 <= m <= 1439 ->
  forallb isPersistedNpcWorldState np = true ->
  let value := JsObj [("version", js_int WORLD_SNAPSHOT_VERSION); ("savedAtIso", JsStr s);
                      ("world", JsObj [("tick", js_int t); ("day", js_int d);
                                       ("minuteOfDay", js_int m)]);
                      ("npcs", JsArr np)] in
  parseWorldSnapshot value = Some value.
Proof.
  intros Ht Hd Hm Hn value. unfold parseWorldSnapshot, value.
  cbn -[forallb isPersistedNpcWorldState Qle_bool Z.rem].
  rewrite Hn, !Z.rem_1_r, !Qle_bool_inject.
  replace (Z.leb 0 t) with true by (symmetry; apply Z.leb_le; lia).
  replace (Z.leb 1 d) with true by (symmetry; apply Z.leb_le; lia).
  replace (Z.leb 0 m) with true by (symmetry; apply Z.leb_le; lia).
  replace (Z.leb m 1439) with true by (symmetry; apply Z.leb_le; lia).
  reflexivity.
Qed.

Lemma snapshot_rt ws :
  json_roundtrip (snapshot_value ws) =
  JsObj [("version", js_int (version ws)); ("savedAtIso", JsStr (savedAtIso ws));
         ("world", JsObj [("tick", js_int (tick (world ws))); ("day", js_int (day (world ws)));
                          ("minuteOfDay", js_int (minuteOfDay (world ws)))]);
         ("npcs", JsArr (map json_roundtrip (npcs ws)))].
Proof. reflexivity. Qed.

(** A record as the loop writes it at start-up: an empty memory store and
    an empty replan state. *)
Definition npc_ava : JsValue :=
  JsObj [("villagerId", JsStr "villager_ava"); ("currentTileId", JsStr "tile_1_3");
         ("targetTileId", JsStr "tile_1_3"); ("npcState", JsStr "planning");
         ("memoryStore", JsObj [("villagerId", JsStr "villager_ava");
                                ("shortTerm", JsArr []); ("longTerm", JsArr [])]);
         ("replan", JsObj [])].

Definition snapshot_ava : WorldSnapshot :=
  mkWorldSnapshot 1 "2026-10-17T00:00:00.000Z" (mkWorldClock 480 1 480) [npc_ava].

(** The same record after a tick with no movement event, as the loop
    writes it (src/unnamed/part_002, lines 572-577): [replan] is
    [{ ...runtime.replan, lastMajorEventTick: runtime.replan.lastMajorEventTick }]
    with the spread state holding [lastPlanTick] and no major event yet,
    so [lastMajorEventTick] is an own property holding [undefined]. *)
Definition npc_ava_ticked : JsValue :=
  JsObj [("villagerId", JsStr "villager_ava"); ("currentTileId", JsStr "tile_1_3");
         ("targetTileId", JsStr "tile_1_3"); ("npcState", JsStr "planning");
         ("memoryStore", JsObj [("villagerId", JsStr "villager_ava");
                                ("shortTerm", JsArr []); ("longTerm", JsArr [])]);
         ("replan", JsObj [("lastPlanTick", js_int 480); ("lastMajorEventTick", JsUndefined)])].

Definition snapshot_ava_ticked : WorldSnapshot :=
  mkWorldSnapshot 1 "2026-10-17T00:00:00.000Z" (mkWorldClock 481 1 482) [npc_ava_ticked].

(** ** Claim C8 (counterexample): a snapshot with version 1, valid world
    time and a valid record whose [replan.lastMajorEventTick] holds
    [undefined] does not come back equal after a JSON round trip: the
    parser accepts the decoded value, which has lost that property. *)
Lemma C8_undefined_property_dropped :
  version snapshot_ava_ticked = WORLD_SNAPSHOT_VERSION /\
  0 <= tick (world snapshot_ava_ticked) /\ 1 <= day (world snapshot_ava_ticked) /\
  0 <= minuteOfDay (world snapshot_ava_ticked) <= 1439 /\
  forallb isPersistedNpcWorldState (npcs snapshot_ava_ticked) = true /\
  parseWorldSnapshot (snapshot_value snapshot_ava_ticked) = Some (snapshot_value snapshot_ava_ticked) /\
  parseWorldSnapshot (json_roundtrip (snapshot_value snapshot_ava_ticked)) <>
    Some (snapshot_value snapshot_ava_ticked).
Proof.
  split; [reflexivity|]. split; [cbn; lia|]. split; [cbn; lia|]. split; [cbn; lia|].
  split; [vm_compute; reflexivity|]. split; [vm_compute; reflexivity|].
  vm_compute. discriminate.
Qed.

(** ** Claim C8 (amended): a [WorldSnapshot] with version 1, tick at
    least 0, day at least 1, minute of day in [0, 1439] and records that
    pass the record validation is returned equal by [parseWorldSnapshot];
    after a JSON round trip it is still accepted and the decoded value is
    returned, which equals the snapshot with every property that holds
    [undefined] removed (when the records are JSON data apart from such
    properties), and the snapshot itself when the records are JSON data;
    an input whose [version] is not the number 1 is rejected. *)
Theorem C8_parse_snapshot_roundtrip (ws : WorldSnapshot) (v : JsValue) :
  (version ws = WORLD_SNAPSHOT_VERSION ->
   0 <= tick (world ws) -> 1 <= day (world ws) -> 0 <= minuteOfDay (world ws) <= 1439 ->
   forallb isPersistedNpcWorldState (npcs ws) = true ->
   parseWorldSnapshot (snapshot_value ws) = Some (snapshot_value ws) /\
   parseWorldSnapshot (json_roundtrip (snapshot_value ws)) =
     Some (json_roundtrip (snapshot_value ws)) /\
   (forallb json_data_undef (npcs ws) = true ->
      json_roundtrip (snapshot_value ws) = strip_undefined (snapshot_value ws)) /\
   (forallb json_data (npcs ws) = true -> json_roundtrip (snapshot_value ws) = snapshot_value ws)) /\
  ((forall q, js_get v "version" = JsNum (JsFinite q) -> ~ Qeq q (inject_Z WORLD_SNAPSHOT_VERSION)) ->
   parseWorldSnapshot v = None).
Proof.
  split.
  - intros Hv Ht Hd Hm Hn. split; [|split; [|split]].
    + destruct ws as [ver s [t d m] np]. cbn in *. subst ver.
      exact (parse_snapshot_object s t d m np Ht Hd Hm Hn).
    + rewrite snapshot_rt. destruct ws as [ver s [t d m] np]. cbn in *. subst ver.
      exact (parse_snapshot_object s t d m (map json_roundtrip np) Ht Hd Hm (forallb_npcs_rt np Hn)).
    + intros Hu. apply json_undef_rt.
      destruct ws as [ver s [t d m] np]. cbn in Hu |- *. rewrite Hu. reflexivity.
    + intros Hj. rewrite snapshot_rt. destruct ws as [ver s [t d m] np]. cbn in *.
      assert (Em : map json_roundtrip np = np).
      { clear Hn. induction np as [|x np IH]; [reflexivity|].
        cbn in Hj |- *. apply andb_prop in Hj as [Hx Hj].
        rewrite (json_data_rt x Hx), (IH Hj). reflexivity. }
      rewrite Em. reflexivity.
  - intros Hq. unfold parseWorldSnapshot.
    destruct (negb (js_truthy v) || negb (typeof_is v "object")); [reflexivity|].
    assert (E : strict_equals_number (js_get v "version") WORLD_SNAPSHOT_VERSION = false).
    { destruct (js_get v "version") as [| | | [q| |] | | |]; try reflexivity.
      cbn. apply not_true_iff_false. intros Hb. apply (Hq q eq_refl), Qeq_bool_iff, Hb. }
    rewrite E. reflexivity.
Qed.

Lemma C8_parse_snapshot_roundtrip_witness :
  parseWorldSnapshot (snapshot_value snapshot_ava_ticked) = Some (snapshot_value snapshot_ava_ticked) /\
  parseWorldSnapshot (json_roundtrip (snapshot_value snapshot_ava_ticked)) =
    Some (json_roundtrip (snapshot_value snapshot_ava_ticked)) /\
  json_roundtrip (snapshot_value snapshot_ava_ticked) = strip_undefined (snapshot_value snapshot_ava_ticked) /\
  json_roundtrip (snapshot_value snapshot_ava) = snapshot_value snapshot_ava /\
  parseWorldSnapshot (JsObj [("version", js_int 2)]) = None.
Proof.
  assert (Hv : 0 <= tick (world snapshot_ava_ticked) /\ 1 <= day (world snapshot_ava_ticked) /\
               0 <= minuteOfDay (world snapshot_ava_ticked) <= 1439) by (cbn; lia).
  assert (Hn : forallb isPersistedNpcWorldState (npcs snapshot_ava_ticked) = true)
    by (vm_compute; reflexivity).
  assert (Hv' : 0 <= tick (world snapshot_ava) /\ 1 <= day (world snapshot_ava) /\
                0 <= minuteOfDay (world snapshot_ava) <= 1439) by (cbn; lia).
  assert (Hn' : forallb isPersistedNpcWorldState (npcs snapshot_ava) = true)
    by (vm_compute; reflexivity).
  destruct Hv as (Ht & Hd & Hm). destruct Hv' as (Ht' & Hd' & Hm').
  destruct (proj1 (C8_parse_snapshot_roundtrip snapshot_ava_ticked (JsObj []))
              eq_refl Ht Hd Hm Hn) as (P1 & P2 & P3 & _).
  destruct (proj1 (C8_parse_snapshot_roundtrip snapshot_ava (JsObj []))
              eq_refl Ht' Hd' Hm' Hn') as (_ & _ & _ & P4).
  split; [exact P1|]. split; [exact P2|].
  split; [apply P3; vm_compute; reflexivity|].
  split; [apply P4; vm_compute; reflexivity|].
  apply (proj2 (C8_parse_snapshot_roundtrip snapshot_ava (JsObj [("version", js_int 2)]))).
  intros q E. injection E as <-. unfold Qeq. cbn. discriminate.
Defined.

End SnapshotProofs.

Module TimeProofs.
Import Schedule SimTime.

Lemma Qle_bool_inject' a b : QArith_base.Qle_bool (QArith_base.inject_Z a) (QArith_base.inject_Z b) = Z.leb a b.
Proof.
  unfold QArith_base.Qle_bool, QArith_base.inject_Z. cbn. rewrite !Z.mul_1_r. reflexivity.
Qed.

Lemma Number_isInteger_int z : Snapshot.Number_isInteger (Snapshot.js_int z) = true.
Proof. cbn. rewrite Z.rem_1_r. reflexivity. Qed.

Lemma toSimulationTime_some tick L : 0 <= tick -> 0 < L ->
  toSimulationTime tick L =
  Some (mkTime tick (tick / L + 1) (Z.min 1439 ((Z.rem tick L * 1440) / L))).
Proof.
  intros Ht HL. unfold toSimulationTime, assertNonNegativeInteger, assertPositiveInteger.
  destruct (tick <? 0) eqn:E1; [lia|]. destruct (L <=? 0) eqn:E2; [lia|]. reflexivity.
Qed.

Theorem toSimulationTime_range (tick dayLengthTicks : Z) :
  (toSimulationTime tick dayLengthTicks = None <-> tick < 0 \/ dayLengthTicks <= 0) /\
  (forall t, toSimulationTime tick dayLengthTicks = Some t ->
     Schedule.tick t = tick /\ 1 <= day t /\ 0 <= minuteOfDay t <= 1439 /\
     isSimulationTime (time_value t) = true).
Proof.
  destruct (Z_lt_le_dec tick 0) as [Ht|Ht].
  { unfold toSimulationTime, assertNonNegativeInteger.
    replace (tick <? 0) with true by lia. split; [tauto|discriminate]. }
  destruct (Z_le_gt_dec dayLengthTicks 0) as [HL|HL].
  { unfold toSimulationTime, assertNonNegativeInteger, assertPositiveInteger.
    replace (tick <? 0) with false by lia. replace (dayLengthTicks <=? 0) with true by lia.
    split; [tauto|discriminate]. }
  rewrite toSimulationTime_some by lia. split; [split; [discriminate|lia]|].
  intros t Et. injection Et as <-. cbn [Schedule.tick day minuteOfDay].
  assert (0 <= tick / dayLengthTicks) by (apply Z.div_pos; lia).
  assert (0 <= Z.rem tick dayLengthTicks) by (apply Z.rem_nonneg; lia).
  assert (0 <= (Z.rem tick dayLengthTicks * 1440) / dayLengthTicks) by (apply Z.div_pos; lia).
  split; [reflexivity|]. split; [lia|]. split; [lia|].
  unfold isSimulationTime, time_value. cbn -[Z.min QArith_base.Qle_bool Snapshot.js_int Snapshot.Number_isInteger].
  rewrite !Number_isInteger_int. unfold Snapshot.js_ge, Snapshot.js_lt, Snapshot.js_int.
  rewrite !Qle_bool_inject'.
  replace (0 <=? tick) with true by lia.
  replace (1 <=? tick / dayLengthTicks + 1) with true by lia.
  replace (0 <=? Z.min 1439 (Z.rem tick dayLengthTicks * 1440 / dayLengthTicks)) with true by lia.
  replace (1440 <=? Z.min 1439 (Z.rem tick dayLengthTicks * 1440 / dayLengthTicks)) with false by lia.
  reflexivity.
Qed.


Theorem toSimulationTime_monotone (t1 t2 dayLengthTicks : Z) (s1 s2 : SimulationTime) :
  t1 <= t2 ->
  toSimulationTime t1 dayLengthTicks = Some s1 ->
  toSimulationTime t2 dayLengthTicks = Some s2 ->
  day s1 < day s2 \/ (day s1 = day s2 /\ minuteOfDay s1 <= minuteOfDay s2).
Proof.
  intros Hle E1 E2.
  destruct (proj2 (toSimulationTime_range t1 dayLengthTicks) s1 E1) as [_ [Hd1 _]].
  assert (Ht1 : 0 <= t1 /\ 0 < dayLengthTicks).
  { pose proof (proj1 (toSimulationTime_range t1 dayLengthTicks)) as [_ H].
    destruct (Z_lt_le_dec t1 0); destruct (Z_le_gt_dec dayLengthTicks 0); try lia;
      rewrite H in E1 by lia; discriminate. }
  destruct Ht1 as [Ht1 HL].
  rewrite toSimulationTime_some in E1, E2 by lia.
  injection E1 as <-. injection E2 as <-. cbn [day minuteOfDay].
  set (L := dayLengthTicks) in *.
  assert (Hdiv : t1 / L <= t2 / L) by (apply Z.div_le_mono; lia).
  destruct (Z.eq_dec (t1 / L) (t2 / L)) as [Eq|Ne]; [right|left; lia].
  split; [lia|].
  rewrite !Z.rem_mod_nonneg by lia.
  assert (Hm : t1 mod L <= t2 mod L).
  { rewrite !Z.mod_eq by lia. rewrite Eq. lia. }
  apply Z.min_le_compat_l. apply Z.div_le_mono; [lia|]. nia.
Qed.

Theorem toSimulationTime_divisor (tick dayLengthTicks : Z) :
  0 <= tick -> 0 < dayLengthTicks -> 1440 mod dayLengthTicks = 0 ->
  toSimulationTime tick dayLengthTicks =
  Some (mkTime tick (tick / dayLengthTicks + 1)
          ((tick mod dayLengthTicks) * (1440 / dayLengthTicks))).
Proof.
  intros Ht HL Hd. rewrite toSimulationTime_some by lia. do 2 f_equal.
  set (L := dayLengthTicks) in *.
  rewrite Z.rem_mod_nonneg by lia.
  assert (E1440 : 1440 = L * (1440 / L)) by (apply Z.div_exact; lia).
  assert (Hr : 0 <= tick mod L < L) by (apply Z.mod_pos_bound; lia).
  assert (HL1440 : L <= 1440).
  { destruct (Z_le_gt_dec L 1440) as [|Hg]; [assumption|].
    rewrite Z.mod_small in Hd by lia. discriminate. }
  assert (Hq : 0 < 1440 / L) by (apply Z.div_str_pos; lia).
  replace (tick mod L * 1440) with (tick mod L * (1440 / L) * L) by (rewrite <- Z.mul_assoc, (Z.mul_comm (1440 / L) L), <- E1440; reflexivity).
  rewrite Z.div_mul by lia.
  apply Z.min_r. nia.
Qed.

Lemma toSimulationTime_divisor_witness :
  toSimulationTime 1000 240 = Some (mkTime 1000 5 240).
Proof.
  rewrite (toSimulationTime_divisor 1000 240); [vm_compute; reflexivity|lia|lia|reflexivity].
Defined.

Lemma toSimulationTime_monotone_witness :
  exists s1 s2, toSimulationTime 239 240 = Some s1 /\ toSimulationTime 240 240 = Some s2 /\
  (day s1 < day s2 \/ (day s1 = day s2 /\ minuteOfDay s1 <= minuteOfDay s2)).
Proof.
  exists (mkTime 239 1 1434), (mkTime 240 2 0).
  split; [reflexivity|]. split; [reflexivity|].
  apply (toSimulationTime_monotone 239 240 240); [lia|reflexivity|reflexivity].
Defined.

End TimeProofs.

Module ActionProofs.
Import Schedule ActionExecution.

(** The first tick of [ts] at or after [c]. *)
Definition first_due (c : Z) (ts : list Z) : option Z := find (fun t => c <=? t) ts.

Definition busy_state (a : VillagerActionType) : NpcState :=
  match a with rest => resting | _ => acting end.

Theorem begin_action_lifecycle (task : ActiveVillagerTask) (tick : Z) (sig : string) :
  (beginVillagerActionExecution task tick sig = None <->
   task_action task = walk \/ task_action task = observe) /\
  (forall e, beginVillagerActionExecution task tick sig = Some e ->
   exec_action e = task_action task /\ completedAtTick e = None /\ startedAtTick e = tick /\
   tick < completesAtTick e /\
   forall t,
     (t < completesAtTick e ->
      advanceVillagerActionExecution e t = mkProgress e false (busy_state (task_action task))) /\
     (completesAtTick e <= t ->
      completed (advanceVillagerActionExecution e t) = true /\
      npcState (advanceVillagerActionExecution e t) = planning /\
      completedAtTick (execution (advanceVillagerActionExecution e t)) = Some t)).
Proof.
  unfold beginVillagerActionExecution.
  split.
  - destruct (task_action task); cbn; split; intros H; try discriminate; auto;
      destruct H; discriminate.
  - intros e He. destruct (ACTION_DURATION_TICKS (task_action task) <=? 0) eqn:Ed;
      [discriminate|]. injection He as <-. cbn.
    split; [reflexivity|]. split; [reflexivity|]. split; [reflexivity|]. split; [lia|].
    intros t. unfold advanceVillagerActionExecution. cbn [completedAtTick completesAtTick Movement.isSome orb].
    split; intros Ht.
    + replace (t <? tick + ACTION_DURATION_TICKS (task_action task)) with true by lia.
      reflexivity.
    + replace (t <? tick + ACTION_DURATION_TICKS (task_action task)) with false by lia.
      cbn. auto.
Qed.

Theorem advance_execution_once (e : VillagerActionExecution) (ts : list Z) :
  let (e', flags) := advance_execution_all e ts in
  exec_action e' = exec_action e /\ taskSignature e' = taskSignature e /\
  startedAtTick e' = startedAtTick e /\ completesAtTick e' = completesAtTick e /\
  match completedAtTick e with
  | Some _ => e' = e /\ count_occ Bool.bool_dec flags true = 0%nat
  | None =>
      completedAtTick e' = first_due (completesAtTick e) ts /\
      count_occ Bool.bool_dec flags true =
        (match first_due (completesAtTick e) ts with Some _ => 1 | None => 0 end)%nat
  end.
Proof.
  revert e. induction ts as [|t ts IH]; intros e; cbn.
  - destruct (completedAtTick e); repeat split; reflexivity.
  - specialize (IH (execution (advanceVillagerActionExecution e t))).
    destruct (advance_execution_all _ ts) as [e' flags].
    unfold advanceVillagerActionExecution in *.
    destruct (completedAtTick e) as [c|] eqn:Ec; cbn in *.
    + cbn in IH. rewrite Ec in IH. destruct IH as (H1 & H2 & H3 & H4 & -> & H5).
      repeat split; auto.
    + destruct (t <? completesAtTick e) eqn:Et; cbn in *.
      * rewrite Ec in IH. destruct IH as (H1 & H2 & H3 & H4 & H5 & H6).
        replace (completesAtTick e <=? t) with false by lia. repeat split; auto.
      * destruct IH as (H1 & H2 & H3 & H4 & -> & H5).
        replace (completesAtTick e <=? t) with true by lia. cbn. repeat split; auto.
Qed.

End ActionProofs.

Module MoveExtra.
Import Movement.

Lemma advance_two c t1 t2 : 0 <= t1 <= t2 ->
  advance_all c [t1; t2] = advance_all c [t2].
Proof.
  intros Ht. destruct c as [v cur p i t0 a].
  unfold advance_all, advanceVillagerMovement, assertNonNegativeInteger.
  replace (t1 <? 0) with false by lia. replace (t2 <? 0) with false by lia.
  destruct a as [x|];
  cbn [villagerId currentTileId path pathIndex lastProcessedTick arrivedAtTick component events
       isSome negb andb orb app];
  repeat (first [ match goal with |- context [?x <=? ?y] => destruct (Z.leb_spec x y) end
                | match goal with |- context [?x =? ?y] => destruct (Z.eqb_spec x y) end ];
          cbn [villagerId currentTileId path pathIndex lastProcessedTick arrivedAtTick component events
               isSome negb andb orb app]);
  try lia.
  all: repeat (match goal with
              | |- Some _ = Some _ => f_equal
              | |- (_, _) = (_, _) => f_equal
              | |- mkComponent _ _ _ _ _ _ = mkComponent _ _ _ _ _ _ => f_equal
              | |- Some _ = Some _ => f_equal
              | |- cons _ _ = cons _ _ => f_equal
              | |- mkArrival _ _ _ = mkArrival _ _ _ => f_equal
              | |- path_at ?p _ = path_at ?p _ => f_equal
              end); try reflexivity; try lia.
Qed.

Definition movement_wf (c : VillagerMovementComponent) : Prop :=
  path c <> [] /\ 0 <= pathIndex c <= len (path c) - 1 /\
  currentTileId c = path_at (path c) (pathIndex c).

Lemma len_pos (p : list TileId) : p <> [] -> 1 <= len p.
Proof. destruct p; [congruence|]. intros _. unfold len. cbn [Datatypes.length]. lia. Qed.

Theorem advance_catch_up c ts t :
  (forall x, In x ts -> 0 <= x <= t) ->
  advance_all c (ts ++ [t]) = advance_all c [t].
Proof.
  revert c. induction ts as [|x ts IH]; intros c Hts; [reflexivity|].
  rewrite <- app_comm_cons, <- (advance_two c x t) by (apply Hts; left; reflexivity).
  cbn [advance_all].
  destruct (advanceVillagerMovement c x) as [r|] eqn:Ex.
  - rewrite IH by (intros y Hy; apply Hts; right; exact Hy). reflexivity.
  - reflexivity.
Qed.

Lemma advance_catch_up_witness :
  advance_all (mkComponent "v"%string "a"%string ["a"%string; "b"%string; "c"%string] 0 0 None) [1; 2; 5] =
  advance_all (mkComponent "v"%string "a"%string ["a"%string; "b"%string; "c"%string] 0 0 None) [5].
Proof.
  apply (advance_catch_up (mkComponent "v"%string "a"%string ["a"%string; "b"%string; "c"%string] 0 0 None) [1; 2] 5).
  intros x Hx. simpl in Hx. lia.
Defined.

Theorem movement_component_wf :
  (forall vid start t c, createVillagerMovementComponent vid start t = Some c -> movement_wf c) /\
  (forall c0 p t c, assignVillagerMovementPath c0 p t = Some c -> movement_wf c) /\
  (forall c t r, movement_wf c -> advanceVillagerMovement c t = Some r ->
     movement_wf (component r) /\ path (component r) = path c /\
     villagerId (component r) = villagerId c /\
     lastProcessedTick (component r) = Z.max (lastProcessedTick c) t /\
     (forall e, In e (events r) ->
        ev_villagerId e = villagerId c /\
        ev_tileId e = path_at (path c) (len (path c) - 1))).
Proof.
  split; [|split].
  - intros vid start t c H. unfold createVillagerMovementComponent, assertNonNegativeInteger in H.
    destruct (t <? 0); [discriminate|]. injection H as <-.
    unfold movement_wf; simpl. repeat split; [congruence|unfold len; simpl; lia..].
  - intros c0 p t c H. unfold assignVillagerMovementPath, assertNonNegativeInteger in H.
    destruct (t <? 0); [discriminate|]. destruct p as [|a p]; [discriminate|].
    injection H as <-. unfold movement_wf; cbn [path pathIndex currentTileId].
    pose proof (len_pos (a :: p) ltac:(congruence)).
    repeat split; [congruence|lia|lia].
  - intros [v cur p i t0 a] t r (Hne & Hi & Hcur) H. simpl in Hne, Hi, Hcur.
    unfold advanceVillagerMovement, assertNonNegativeInteger in H. cbn [path pathIndex lastProcessedTick arrivedAtTick villagerId currentTileId] in H.
    destruct (Z.ltb_spec t 0); [discriminate|].
    destruct (Z.leb_spec t t0); cbn [orb] in H;
      [|destruct (Z.leb_spec (len p) 1); cbn [orb] in H];
      [| |destruct ((Z.min (len p - 1) (i + (t - t0)) =? len p - 1)) eqn:Er;
          destruct a as [x|]; cbn [negb andb orb isSome] in H].
    all: injection H as <-; unfold movement_wf;
      cbn [component events path villagerId currentTileId pathIndex lastProcessedTick
           ev_villagerId ev_tileId In].
    all: repeat split; try congruence; try lia.
    all: try (intros e []; fail).
    all: match goal with Hin : In _ _ |- _ => destruct Hin as [<-|[]] | Hin : _ \/ False |- _ => destruct Hin as [<-|[]] end.
    all: cbn [ev_villagerId ev_tileId]; try reflexivity.
    apply Z.eqb_eq in Er. rewrite Er. reflexivity.
Qed.


Lemma advance_all_short c ts c' evs :
  len (path c) <= 1 -> advance_all c ts = Some (c', evs) ->
  evs = [] /\ c' = mkComponent (villagerId c) (currentTileId c) (path c) (pathIndex c)
                     (fold_left Z.max ts (lastProcessedTick c)) (arrivedAtTick c).
Proof.
  revert c c' evs. induction ts as [|t ts IH]; intros c c' evs Hl H.
  - injection H as <- <-. destruct c; split; reflexivity.
  - cbn [advance_all] in H. unfold advanceVillagerMovement, assertNonNegativeInteger in H.
    destruct (t <? 0); [discriminate|].
    replace (len (path c) <=? 1) with true in H by lia. rewrite orb_true_r in H.
    destruct (advance_all _ ts) as [[c1 e1]|] eqn:E; [|discriminate].
    injection H as <- <-. apply IH in E as [-> ->]; [|exact Hl].
    split; reflexivity.
Qed.

Theorem fresh_component_stationary vid start t0 :
  (createVillagerMovementComponent vid start t0 = None <-> t0 < 0) /\
  (forall c ts c' evs, createVillagerMovementComponent vid start t0 = Some c ->
     advance_all c ts = Some (c', evs) ->
     evs = [] /\ currentTileId c' = start /\ path c' = [start] /\
     arrivedAtTick c' = Some t0 /\ lastProcessedTick c' = fold_left Z.max ts t0).
Proof.
  unfold createVillagerMovementComponent, assertNonNegativeInteger. split.
  - destruct (Z.ltb_spec t0 0); split; intros; try discriminate; try lia; reflexivity.
  - intros c ts c' evs Hc Ha. destruct (t0 <? 0); [discriminate|]. injection Hc as <-.
    apply advance_all_short in Ha as [-> ->]; [|unfold len; reflexivity].
    repeat split; reflexivity.
Qed.

End MoveExtra.

Module ScheduleExtra.
Import Schedule ScheduleProofs Sorting FinFun.

Definition slot_entry (s : VillagerScheduleSlot) : VillagerScheduleEntry :=
  mkEntry (hour s * 60) (slot_action s) (slot_targetTileId s).

Definition slot_in_day (s : VillagerScheduleSlot) : Prop := 0 <= hour s <= 23.

Lemma map_option_slots l :
  (forall mapped, map_option (fun slot =>
      match normalizeHourToMinute (hour slot) with
      | Some m => Some (mkEntry m (slot_action slot) (slot_targetTileId slot))
      | None => None
      end) l = Some mapped -> mapped = map slot_entry l) /\
  (map_option (fun slot =>
      match normalizeHourToMinute (hour slot) with
      | Some m => Some (mkEntry m (slot_action slot) (slot_targetTileId slot))
      | None => None
      end) l <> None <-> Forall slot_in_day l).
Proof.
  induction l as [|x xs [IH1 IH2]]; simpl.
  - split; [intros mapped H; injection H as <-; reflexivity|].
    split; [constructor|congruence].
  - unfold normalizeHourToMinute. change (MINUTES_PER_DAY / MINUTES_PER_HOUR) with 24.
    unfold MINUTES_PER_HOUR.
    destruct (Z.ltb_spec (hour x) 0) as [Hl|Hl]; [|destruct (Z.geb_spec (hour x) 24) as [Hg|Hg]]; cbn [orb].
    + split; [discriminate|]. split; [congruence|]. intros Hf. inversion Hf; subst.
      unfold slot_in_day in *. lia.
    + split; [discriminate|]. split; [congruence|]. intros Hf. inversion Hf; subst.
      unfold slot_in_day in *. lia.
    + destruct (map_option _ xs) as [ys|] eqn:E.
      * split.
        -- intros mapped H. injection H as <-. rewrite (IH1 ys eq_refl). reflexivity.
        -- split; [|congruence]. intros _. constructor; [unfold slot_in_day; lia|].
           apply IH2. congruence.
      * split; [discriminate|]. split; [congruence|]. intros Hf. inversion Hf as [|? ? _ Hxs]; subst.
        apply IH2 in Hxs. congruence.
Qed.

Lemma has_adjacent_duplicate_nodup l :
  Sorted start_le l -> (has_adjacent_duplicate l = false <-> NoDup (map startMinute l)).
Proof.
  intros Hs. split.
  - intros Hd. apply sorted_no_dup_strict in Hd; [|exact Hs].
    apply Sorted_StronglySorted in Hd; [|intros a b c; unfold start_lt; lia]. clear Hs.
    induction Hd as [|x xs Hxs IH Hall]; simpl; [constructor|]. constructor; [|exact IH].
    intros Hin. apply in_map_iff in Hin as (y & Hy & Hin).
    rewrite Forall_forall in Hall. specialize (Hall y Hin). unfold start_lt in Hall. lia.
  - induction l as [|x xs IH]; [reflexivity|]. intros Hnd.
    destruct xs as [|y ys]; [reflexivity|].
    cbn [map] in Hnd. change (has_adjacent_duplicate (x :: y :: ys)) with ((startMinute x =? startMinute y) || has_adjacent_duplicate (y :: ys)). inversion Hnd as [|? ? Hnin Hnd']; subst.
    apply Sorted_inv in Hs as [Hs _].
    rewrite (IH Hs Hnd'). destruct (Z.eqb_spec (startMinute x) (startMinute y)); [|reflexivity].
    exfalso. apply Hnin. left. congruence.
Qed.

Lemma slot_minutes_nodup l :
  NoDup (map startMinute (map slot_entry l)) <-> NoDup (map hour l).
Proof.
  rewrite map_map. replace (map (fun x => startMinute (slot_entry x)) l)
    with (map (fun h => h * 60) (map hour l)) by (rewrite map_map; reflexivity).
  split; [apply NoDup_map_inv|].
  apply Injective_map_NoDup. intros a b H. lia.
Qed.

Theorem createVillagerDailySchedule_spec v :
  (createVillagerDailySchedule v <> None <->
     Forall slot_in_day (baseSchedule v) /\ NoDup (map hour (baseSchedule v))) /\
  (forall sched, createVillagerDailySchedule v = Some sched ->
     sched_villagerId sched = id v /\
     Permutation (entries sched) (map slot_entry (baseSchedule v)) /\
     StronglySorted start_lt (entries sched)).
Proof.
  destruct (map_option_slots (baseSchedule v)) as [Hmap Hnone].
  unfold createVillagerDailySchedule.
  destruct (map_option _ (baseSchedule v)) as [mapped|] eqn:E.
  - specialize (Hmap mapped eq_refl). subst mapped.
    destruct (sort_by_start_spec (map slot_entry (baseSchedule v))) as [Hp Hs].
    pose proof (has_adjacent_duplicate_nodup _ Hs) as Hd.
    assert (Hnd : NoDup (map startMinute (sort_by_start (map slot_entry (baseSchedule v))))
                  <-> NoDup (map hour (baseSchedule v))).
    { rewrite <- slot_minutes_nodup. split; apply Permutation_NoDup;
        [|symmetry]; apply Permutation_map; exact Hp. }
    destruct (has_adjacent_duplicate _) eqn:Ehd.
    + split; [|discriminate]. split; [congruence|]. intros [_ H].
      apply Hnd, Hd in H. congruence.
    + split.
      * split; [|congruence]. intros _. split; [apply Hnone; congruence|].
        apply Hnd, Hd. reflexivity.
      * intros sched H. injection H as <-. cbn [sched_villagerId entries].
        split; [reflexivity|]. split; [exact Hp|].
        apply Sorted_StronglySorted; [intros a b c; unfold start_lt; lia|].
        apply sorted_no_dup_strict; assumption.
  - split; [|discriminate]. split; [congruence|]. intros [H _].
    apply Hnone in H. congruence.
Qed.

Lemma map_option_Forall2 {A B} (f : A -> option B) l ys :
  map_option f l = Some ys -> Forall2 (fun a b => f a = Some b) l ys.
Proof.
  revert ys. induction l as [|x xs IH]; intros ys H; simpl in H.
  - injection H as <-. constructor.
  - destruct (f x) as [y|] eqn:Ex; [|discriminate].
    destruct (map_option f xs) as [zs|]; [|discriminate].
    injection H as <-. constructor; [exact Ex|exact (IH zs eq_refl)].
Qed.

Lemma map_option_None {A B} (f : A -> option B) l :
  map_option f l = None <-> exists a, In a l /\ f a = None.
Proof.
  induction l as [|x xs IH]; simpl.
  - split; [discriminate|]. intros (a & [] & _).
  - destruct (f x) as [y|] eqn:Ex.
    + destruct (map_option f xs) as [zs|] eqn:Ez.
      * split; [discriminate|]. intros (a & [<-|Ha] & Hn); [congruence|].
        assert (H : Some zs = None) by (apply IH; eauto). discriminate.
      * split; [intros _|reflexivity]. destruct (proj1 IH eq_refl) as (a & Ha & Hn). eauto.
    + split; [intros _|reflexivity]. eauto.
Qed.

Lemma Forall2_rev' {A B} (R : A -> B -> Prop) l1 l2 :
  Forall2 R l1 l2 -> Forall2 R (rev l1) (rev l2).
Proof.
  induction 1; simpl; [constructor|]. apply Forall2_app; [assumption|].
  constructor; [assumption|constructor].
Qed.

Lemma find_Forall2 {A B} (R : A -> B -> Prop) (p : A -> bool) (p' : B -> bool) l1 l2 :
  Forall2 R l1 l2 -> (forall a b, R a b -> p a = p' b) ->
  match find p l1, find p' l2 with
  | None, None => True
  | Some a, Some b => R a b
  | _, _ => False
  end.
Proof.
  intros H Hp. induction H as [|a b l1 l2 Hab _ IH]; simpl; [exact I|].
  rewrite (Hp a b Hab). destruct (p' b); [exact Hab|exact IH].
Qed.

Theorem buildVillagerDailyScheduleIndex_spec villagers :
  (ScheduleIndex.buildVillagerDailyScheduleIndex villagers = None <->
     exists v, In v villagers /\ createVillagerDailySchedule v = None) /\
  (forall idx q, ScheduleIndex.buildVillagerDailyScheduleIndex villagers = Some idx ->
     Js.map_get String.eqb idx q =
       match find (fun v => String.eqb (id v) q) (rev villagers) with
       | Some v => createVillagerDailySchedule v
       | None => None
       end).
Proof.
  unfold ScheduleIndex.buildVillagerDailyScheduleIndex. split.
  - destruct (map_option _ villagers) as [pairs|] eqn:E.
    + split; [discriminate|]. intros (v & Hv & Hn).
      assert (H : map_option (fun v => match createVillagerDailySchedule v with
                             | Some s => Some (id v, s)
                             | None => None
                             end) villagers = None).
      { apply map_option_None. exists v. rewrite Hn. auto. }
      congruence.
    + split; [intros _|reflexivity]. apply map_option_None in E as (v & Hv & Hn).
      exists v. split; [exact Hv|]. destruct (createVillagerDailySchedule v); congruence.
  - intros idx q H. destruct (map_option _ villagers) as [pairs|] eqn:E; [|discriminate].
    injection H as <-.
    rewrite (SearchProofs.fold_map_set_get String.eqb JsProofs.string_eqb_spec fst snd).
    apply map_option_Forall2, Forall2_rev' in E.
    pose proof (find_Forall2 _ (fun v => String.eqb (id v) q) (fun p => String.eqb (fst p) q) _ _ E) as Hf.
    assert (Hp : forall v p, (match createVillagerDailySchedule v with
                              | Some s => Some (id v, s) | None => None end) = Some p ->
                 String.eqb (id v) q = String.eqb (fst p) q).
    { intros v p Hvp. destruct (createVillagerDailySchedule v); [|discriminate].
      injection Hvp as <-. reflexivity. }
    specialize (Hf Hp). unfold VillagerId in *.
    destruct (find (fun v => String.eqb (id v) q) (rev villagers)) as [v|];
      match goal with |- context [find ?g (rev pairs)] =>
        revert Hf; destruct (find g (rev pairs)) as [p|]; intros Hf end;
      try contradiction; [|reflexivity].
    destruct (createVillagerDailySchedule v); [|discriminate]. injection Hf as <-. reflexivity.
Qed.

End ScheduleExtra.

Module ReplanExtra.
Import Schedule Replan ReplanIntent.

Definition at_tick (input : ShouldRequestNpcReplanInput) (t : Z) : ShouldRequestNpcReplanInput :=
  mkReplanInput t (intervalTicks input) (promptSignature input) (input_lastPlanTick input)
    (input_lastPlanSignature input) (input_lastMajorEventTick input).

Theorem shouldRequestNpcReplan_monotone input reason t :
  shouldRequestNpcReplan input = Some reason -> input_tick input <= t ->
  shouldRequestNpcReplan (at_tick input t) = Some reason.
Proof.
  destruct input as [tk iv sig lp ls lm]. unfold shouldRequestNpcReplan, at_tick; cbn.
  intros H Ht. destruct lm as [m|]; destruct lp as [p|]; cbn in H |- *; try exact H.
  all: try destruct (m >? p); cbn in H |- *; rewrite ?andb_false_r in H |- *; try exact H.
  all: destruct (Z.geb_spec (tk - p) iv); cbn in H; [|discriminate].
  all: destruct (Z.geb_spec (t - p) iv); [exact H|lia].
Qed.

Lemma shouldRequestNpcReplan_monotone_witness :
  shouldRequestNpcReplan (at_tick (mkReplanInput 100 60 "s2"%string (Some 30) (Some "s1"%string) None) 500)
    = Some cadence.
Proof.
  apply (shouldRequestNpcReplan_monotone (mkReplanInput 100 60 "s2"%string (Some 30) (Some "s1"%string) None));
    [reflexivity|cbn; lia].
Defined.

Theorem applyNpcIntentToTask_spec task intent :
  applyNpcIntentToTask (applyNpcIntentToTask task intent) intent = applyNpcIntentToTask task intent /\
  task_villagerId (applyNpcIntentToTask task intent) = task_villagerId task /\
  task_source (applyNpcIntentToTask task intent) = task_source task /\
  (forall i, intent = Some i ->
     task_action (applyNpcIntentToTask task intent) = intent_action i /\
     (intent_targetTileId i <> None ->
        task_targetTileId (applyNpcIntentToTask task intent) = intent_targetTileId i)).
Proof.
  destruct intent as [i|]; cbn.
  - destruct (intent_targetTileId i) as [t|] eqn:E; cbn; rewrite ?E.
    all: split; [reflexivity|split; [reflexivity|split; [reflexivity|]]].
    all: intros i' Hi; injection Hi as <-; split; [reflexivity|congruence].
  - split; [reflexivity|split; [reflexivity|split; [reflexivity|]]]. discriminate.
Qed.

End ReplanExtra.

Module GuardExtra.
Import Schedule Guardrail DecisionIntent.

Definition quiet_hours (context : NpcPromptInput) : bool :=
  (worldTime_minuteOfDay context <? 360) || (worldTime_minuteOfDay context >=? 1320).

Theorem guardrail_final_action d context res :
  applyDecisionGuardrails d context = inr res ->
  (role context <> merchant -> decision_action (decision res) <> shop) /\
  (role context <> farmer -> decision_action (decision res) <> farm) /\
  (quiet_hours context = true ->
     decision_action (decision res) <> chat /\ decision_action (decision res) <> shop) /\
  reasoning (decision res) = reasoning d /\
  applyDecisionGuardrails (decision res) context =
    inr (mkModeration (decision res) accepted []).
Proof.
  destruct d as [a r t]; destruct context as [ro m]. unfold quiet_hours.
  unfold applyDecisionGuardrails, DECISION_POLICY_RULES. cbn [role worldTime_minuteOfDay].
  intros H. destruct a; destruct ro; cbn in H |- *; unfold guard_step in H |- *; cbn in H |- *;
    destruct ((m <? 360) || (m >=? 1320)) eqn:Q; cbn in H |- *; try discriminate;
    injection H as <-; cbn; repeat split; try congruence.
Qed.

Lemma guardrail_final_action_witness :
  applyDecisionGuardrails (mkDecision observe "r"%string None) (mkContext fisher 300) =
    inr (mkModeration (mkDecision observe "r"%string None) accepted []).
Proof.
  apply (guardrail_final_action (mkDecision chat "r"%string None) (mkContext fisher 300)
    (mkModeration (mkDecision observe "r"%string None) rewritten
       [mkViolation "quiet-hours-social"%string
          "Social and market actions are disallowed during quiet hours."%string
          chat observe violation_rewrite])).
  reflexivity.
Defined.

Theorem normalize_then_guard_target action targetTileId gc reasoning context a' t' res :
  normalizeDecisionIntent action targetTileId gc = inr (a', t') ->
  applyDecisionGuardrails (mkDecision a' reasoning t') context = inr res ->
  actionRequiresTarget (decision_action (decision res)) = true ->
  decision res = mkDecision action reasoning t' /\
  falsy_target (decision_targetTileId (decision res)) = false.
Proof.
  unfold normalizeDecisionIntent. intros Hn.
  destruct (actionRequiresTarget action && falsy_target _) eqn:Hf; [discriminate|].
  injection Hn as <- <-.
  destruct context as [ro m].
  revert Hf. generalize (coalesce targetTileId (coalesce (currentGoal_targetTileId gc)
    (location_targetTileId gc))) as tgt. intros tgt Hf.
  unfold applyDecisionGuardrails, DECISION_POLICY_RULES.
  intros H. destruct action; destruct ro; cbn in H |- *; unfold guard_step in H |- *; cbn in H |- *;
    destruct ((m <? 360) || (m >=? 1320)); cbn in H |- *; try discriminate;
    injection H as <-; cbn; try discriminate; intros _; split; try reflexivity; exact Hf.
Qed.

Lemma normalize_then_guard_target_witness :
  decision (mkModeration (mkDecision walk "r"%string (Some "tile_2_3"%string)) accepted []) =
    mkDecision walk "r"%string (Some "tile_2_3"%string) /\
  falsy_target (Some "tile_2_3"%string) = false.
Proof.
  apply (normalize_then_guard_target walk None (mkGoalContext (Some "tile_2_3"%string) None)
    "r"%string (mkContext fisher 300) walk (Some "tile_2_3"%string)
    (mkModeration (mkDecision walk "r"%string (Some "tile_2_3"%string)) accepted []));
    reflexivity.
Defined.

End GuardExtra.

Module PairKeyProofs.
Import Js PairKey.

Lemma toVillagerPairKey_form a b :
  toVillagerPairKey a b =
    if default_compare b a <? 0 then (b ++ String "|" a)%string else (a ++ String "|" b)%string.
Proof. unfold toVillagerPairKey, sort_by. cbn. destruct (default_compare b a <? 0); reflexivity. Qed.

Theorem toVillagerPairKey_symmetric a b :
  toVillagerPairKey a b = toVillagerPairKey b a.
Proof.
  rewrite !toVillagerPairKey_form. unfold default_compare.
  rewrite (String.compare_antisym a b).
  destruct (String.compare b a) eqn:E; cbn.
  - apply String.compare_eq_iff in E. subst. reflexivity.
  - reflexivity.
  - reflexivity.
Qed.

Theorem toVillagerPairKey_injective a b c d :
  ServiceProofs.no_char "|"%char a -> ServiceProofs.no_char "|"%char b ->
  ServiceProofs.no_char "|"%char c -> ServiceProofs.no_char "|"%char d ->
  toVillagerPairKey a b = toVillagerPairKey c d ->
  (a = c /\ b = d) \/ (a = d /\ b = c).
Proof.
  intros Ha Hb Hc Hd. rewrite !toVillagerPairKey_form.
  destruct (default_compare b a <? 0); destruct (default_compare d c <? 0); intros E;
    apply ServiceProofs.sep1 in E as [-> ->]; auto.
Qed.

Lemma toVillagerPairKey_injective_witness :
  ("villager_ava"%string = "villager_ben"%string /\ "villager_ben"%string = "villager_ava"%string) \/
  ("villager_ava"%string = "villager_ava"%string /\ "villager_ben"%string = "villager_ben"%string).
Proof.
  apply (toVillagerPairKey_injective "villager_ava" "villager_ben" "villager_ben" "villager_ava");
    [vm_compute; intuition discriminate..|reflexivity].
Defined.

End PairKeyProofs.

Module SnapshotExtra.
Import Snapshot.

Theorem parseWorldSnapshot_idempotent v w :
  parseWorldSnapshot v = Some w ->
  (exists ps, v = JsObj ps) /\ parseWorldSnapshot w = Some w.
Proof.
  intros H. unfold parseWorldSnapshot in H.
  destruct (negb (js_truthy v) || negb (typeof_is v "object")) eqn:E1; [discriminate|].
  match type of H with (if ?c then None else _) = _ => destruct c eqn:E2; [discriminate|] end.
  match type of H with (if ?c then None else _) = _ => destruct c eqn:E3; [discriminate|] end.
  injection H as <-. split.
  - destruct v; cbn in E1, E2; try discriminate. eauto.
  - repeat rewrite orb_false_iff in E2. repeat rewrite orb_false_iff in E3.
    repeat rewrite negb_false_iff in E2. repeat rewrite negb_false_iff in E3.
    destruct E2 as [[[[[E2a E2b] E2c] E2d] E2e] E2f].
    destruct E3 as [[[[[[[[[E3a E3b] E3c] E3d] E3e] E3f] E3g] E3h] E3i] E3j].
    unfold parseWorldSnapshot. cbn [js_get find String.eqb Ascii.eqb Bool.eqb js_truthy typeof_is js_typeof negb orb].
    rewrite E2b, E2e, E2f, E3a, E3b, E3c, E3d, E3e, E3f, E3g, E3h, E3i, E3j. reflexivity.
Qed.

Theorem parseWorldSnapshot_json_roundtrip v w :
  parseWorldSnapshot v = Some w ->
  parseWorldSnapshot (json_roundtrip v) = Some (json_roundtrip w).
Proof.
  intros H. unfold parseWorldSnapshot in H.
  destruct (negb (js_truthy v) || negb (typeof_is v "object")) eqn:E1; [discriminate|].
  match type of H with (if ?c then None else _) = _ => destruct c eqn:E2; [discriminate|] end.
  match type of H with (if ?c then None else _) = _ => destruct c eqn:E3; [discriminate|] end.
  injection H as <-.
  assert (Hv : exists ps, v = JsObj ps) by (destruct v; cbn in E1, E2; try discriminate; eauto).
  destruct Hv as [ps ->].
  repeat rewrite orb_false_iff in E2. repeat rewrite orb_false_iff in E3.
  repeat rewrite negb_false_iff in E2. repeat rewrite negb_false_iff in E3.
  destruct E2 as [[[[[E2a E2b] E2c] E2d] E2e] E2f].
  destruct E3 as [[[[[[[[[E3a E3b] E3c] E3d] E3e] E3f] E3g] E3h] E3i] E3j].
  unfold parseWorldSnapshot. rewrite !SnapshotProofs.get_rt, !SnapshotProofs.get_prop_rt.
  cbn [js_truthy json_roundtrip typeof_is js_typeof].
  revert E2a E2b E2c E2d E2e E2f E3a E3b E3c E3d E3e E3f E3g E3h E3i E3j.
  generalize (js_get (JsObj ps) "npcs") as np.
  generalize (js_get (JsObj ps) "version") as ver.
  generalize (js_get (JsObj ps) "savedAtIso") as sv.
  generalize (js_get (JsObj ps) "world") as wo.
  intros wo sv ver np. intros.
  destruct ver as [| | | [qv| |] | | |]; try discriminate.
  destruct sv as [| | | | sv | |]; try discriminate.
  destruct np as [| | | | | items |]; try discriminate.
  destruct wo as [| | | | | wi | wps]; try (cbn in E2c, E2d, E3a; discriminate).
  revert E3a E3b E3c E3d E3e E3f E3g E3h E3i E3j.
  generalize (js_get (JsObj wps) "tick") as tk.
  generalize (js_get (JsObj wps) "day") as dy.
  generalize (js_get (JsObj wps) "minuteOfDay") as mn.
  intros mn dy tk. intros.
  destruct tk as [| | | [qt| |] | | |]; try discriminate.
  destruct dy as [| | | [qd| |] | | |]; try discriminate.
  destruct mn as [| | | [qm| |] | | |]; try discriminate.
  cbn [every] in E2f.
  pose proof (SnapshotProofs.forallb_npcs_rt items E2f) as Hn.
  unfold SnapshotProofs.prop_rt. cbn in *.
  rewrite Hn.
  repeat match goal with Hb : ?x = ?b |- context [?x] =>
    match b with true => idtac | false => idtac end; rewrite Hb end.
  reflexivity.
Qed.

Definition empty_snapshot : JsValue :=
  JsObj [("version", js_int 1); ("savedAtIso", JsStr "2026-01-01T00:00:00.000Z");
         ("world", JsObj [("tick", js_int 480); ("day", js_int 2); ("minuteOfDay", js_int 0)]);
         ("npcs", JsArr [])]%string.

Lemma parseWorldSnapshot_idempotent_witness :
  (exists ps, empty_snapshot = JsObj ps) /\ parseWorldSnapshot empty_snapshot = Some empty_snapshot.
Proof.
  apply (parseWorldSnapshot_idempotent empty_snapshot empty_snapshot). vm_compute. reflexivity.
Defined.

Lemma parseWorldSnapshot_json_roundtrip_witness :
  parseWorldSnapshot (json_roundtrip empty_snapshot) = Some (json_roundtrip empty_snapshot).
Proof.
  apply (parseWorldSnapshot_json_roundtrip empty_snapshot empty_snapshot). vm_compute. reflexivity.
Defined.

End SnapshotExtra.

Module HeapExtra.
Import Js Pathfinding HeapProofs Sorting.

(** Pushing entries one by one onto an empty heap. *)
Definition heap_push_all (es : list HeapEntry) : list HeapEntry :=
  fold_left (fun h e => heap_push h (entry_id e) (score e)) es [].

(** Popping up to [fuel] ids off a heap. *)
Fixpoint heap_drain (fuel : nat) (h : list HeapEntry) : list TileId :=
  match fuel with
  | O => []
  | S fuel' =>
      match heap_pop h with
      | (h', Some id) => id :: heap_drain fuel' h'
      | (_, None) => []
      end
  end.

Definition score_le (a b : HeapEntry) : Prop := le (score a) (score b).

Lemma heap_push_all_spec es :
  heap_ordered (heap_push_all es) /\ Permutation (heap_push_all es) es.
Proof.
  unfold heap_push_all.
  assert (H : forall h, heap_ordered h ->
    heap_ordered (fold_left (fun h e => heap_push h (entry_id e) (score e)) es h) /\
    Permutation (fold_left (fun h e => heap_push h (entry_id e) (score e)) es h) (h ++ es)).
  { induction es as [|e es IH]; intros h Ho; cbn.
    - rewrite app_nil_r. split; [exact Ho|reflexivity].
    - destruct (heap_push_spec h (entry_id e) (score e) Ho) as [Ho' Hp].
      destruct (IH _ Ho') as [Ho'' Hp'']. split; [exact Ho''|].
      rewrite Hp'', Hp. destruct e. rewrite <- app_assoc. reflexivity. }
  destruct (H [] ltac:(intros i Hi; cbn in Hi; lia)) as [Ho Hp]. split; [exact Ho|exact Hp].
Qed.

Lemma heap_drain_spec n h :
  heap_ordered h -> List.length h = n ->
  exists l, Permutation l h /\ Sorted score_le l /\ heap_drain n h = map entry_id l.
Proof.
  revert h. induction n as [|n IH]; intros h Ho Hl.
  - destruct h; [|discriminate]. exists []. split; [reflexivity|]. split; constructor.
  - destruct h as [|top t]; [discriminate|].
    destruct (heap_pop_spec (top :: t) top t Ho eq_refl) as (Ho' & Hs & Hp & Hmin).
    remember (heap_pop (top :: t)) as r eqn:E. destruct r as [h' o]. cbn [fst snd] in *. subst o.
    assert (Hl' : List.length h' = n).
    { apply Permutation_length in Hp. cbn in Hp, Hl. lia. }
    destruct (IH h' Ho' Hl') as (l & Hpl & Hsl & Hd).
    exists (top :: l). split; [|split].
    + rewrite Hpl. symmetry. exact Hp.
    + constructor; [exact Hsl|]. destruct l as [|x l]; constructor.
      apply Hmin. apply (Permutation_in _ (Permutation_sym Hp)). right.
      apply (Permutation_in _ Hpl). left. reflexivity.
    + cbn [heap_drain]. rewrite <- E, Hd. reflexivity.
Qed.

Theorem heap_sorts_by_score es :
  exists l, Permutation l es /\ Sorted score_le l /\
    heap_drain (List.length es) (heap_push_all es) = map entry_id l.
Proof.
  destruct (heap_push_all_spec es) as [Ho Hp].
  destruct (heap_drain_spec (List.length es) (heap_push_all es) Ho
              (Permutation_length Hp)) as (l & Hpl & Hs & Hd).
  exists l. split; [rewrite Hpl; exact Hp|]. split; assumption.
Qed.

End HeapExtra.

Module GraphExtra.
Import Js Pathfinding SearchProofs.

Theorem createNodesById_grid tiles :
  NoDup (map tile_id tiles) -> NoDup (map tile_key tiles) ->
  (forall u v, edge (createNodesById tiles) u v <-> adjacent tiles u v) /\
  (forall t, In t tiles -> exists n, node_get (createNodesById tiles) (tile_id t) = Some n /\
     node_id n = tile_id t /\ node_x n = coord_x (coordinate t) /\
     node_y n = coord_y (coordinate t) /\ node_walkable n = walkable t) /\
  (forall v, node_get (createNodesById tiles) v <> None <-> In v (map tile_id tiles)).
Proof.
  intros Hids Hkeys. split; [|split].
  - intros u v. split; [apply edge_adjacent|apply adjacent_edge; assumption].
  - intros t Ht. exists (node_of tiles t). split; [apply tile_node; assumption|].
    repeat split.
  - intros v. split.
    + intros Hn. destruct (node_get _ v) as [n|] eqn:E; [|congruence].
      apply node_get_tile in E as (t & Ht & <- & _). apply in_map, Ht.
    + intros Hin. apply in_map_iff in Hin as (t & <- & Ht).
      rewrite (tile_node tiles Hids t Ht). discriminate.
Qed.

Definition two_tiles : list Tile :=
  [mkTile "a"%string (mkCoordinate 0 0) tile_path true;
   mkTile "b"%string (mkCoordinate 1 0) tile_path true].

Lemma createNodesById_grid_witness :
  edge (createNodesById two_tiles) "a"%string "b"%string <-> adjacent two_tiles "a"%string "b"%string.
Proof.
  apply (createNodesById_grid two_tiles).
  - cbn. repeat constructor; cbn; intuition discriminate.
  - cbn. repeat constructor; cbn; intuition discriminate.
Defined.

End GraphExtra.

Module ServiceExtra.
Import Js Pathfinding.

Theorem findPath_frame cmp svc request :
  nodesById (fst (findPath cmp svc request)) = nodesById svc /\
  normalizedMaxCachedRoutes (fst (findPath cmp svc request)) = normalizedMaxCachedRoutes svc /\
  (forall reason p, snd (findPath cmp svc request) = unreachable reason p ->
     fst (findPath cmp svc request) = svc /\ p = []) /\
  (node_get (nodesById svc) (startTileId request) = None ->
     snd (findPath cmp svc request) = unreachable unknown_start []).
Proof.
  unfold findPath.
  destruct (node_get (nodesById svc) (startTileId request)) as [sn|] eqn:Es;
    [|repeat split; intros; try congruence; cbn in *; congruence].
  destruct (node_get (nodesById svc) (destinationTileId request)) as [dn|] eqn:Ed;
    [|repeat split; intros; cbn in *; congruence].
  repeat match goal with |- context [if ?c then _ else _] =>
    destruct c; [repeat split; intros; cbn in *; congruence|] end.
  destruct (map_get String.eqb (routeCache svc) _) as [cp|];
    [repeat split; intros; cbn in *; congruence|].
  destruct (findShortestPath _ _ _ _) as [path|];
    [|repeat split; intros; cbn in *; congruence].
  repeat split; intros; cbn in *; congruence.
Qed.

End ServiceExtra.
